(** * metasinf: operators of the population-based optimisation toolkit

    Shallow embedding of the operator library of [include/metasinf]
    (crossover.h, mutation.h, population.h, selection.h, replacement.h,
    termination.h, migration.h, ga.h, eda.h, pbil.h, island_model.h) and
    the properties stated about it.

    Conventions of the embedding.
    - A C++ container ([std::vector], [std::array]) is a [list]; [v[i]] is
      the lookup [v !! i].  An access outside the container, a failed
      [assert] and a loop that never ends have no result: every operator
      that can run into one of them returns an [option], and [None] stands
      for "the call does not return normally".
    - [size_t] values drawn from a distribution are numbers in [N]; the
      one place where the source subtracts below zero writes the
      wrap-around out ([size_t_sub]).
    - The numeric template parameters [F] (fitness) and [ProbT]
      (probabilities) and the [double] configuration fields are rationals
      [Q].  Where the result of an operator depends on the rounding of a
      [double] operation (the product in [SelectionSize], the sum in
      [MutationUniform]) the operation is rounded to the nearest double
      ([binary64]); the remaining arithmetic is written on exact
      rationals, and what is stated about it is which formula is
      computed, not its last bits.  The one quotient whose
      divisor can be zero is computed with the IEEE 754 special values
      ([Fext]).
    - The pseudorandom engine [Rng] is any type with the standard
      distributions the operators draw from ([RandomSource]); every
      operator threads the generator state explicitly.
    - [std::sort] is any function that returns a descending
      rearrangement ([StdSort]): the order of individuals of equal fitness
      is left open, as the standard leaves it.
    - A [while] or [do]-[while] loop without a bound on its iterations
      runs on fuel ([Outcome]).
    The simulated binary crossover, the intermediate recombination, the
    normal mutation, the sigma scaling and the wall-clock predicate, whose
    results are rounded throughout or depend on the clock, are left
    out. *)

From Stdlib Require Import QArith Qround Qpower Lqa.
From Stdlib Require SpecFloat.
From stdpp Require Import base option list numbers sorting relations.

Local Open Scope nat_scope.

(** ** The pseudorandom source *)

(** The distributions of [<random>] used by the operators, each with the
    range the C++ standard guarantees for its result.
    [uniform_int a b] is [std::uniform_int_distribution<size_t>(a, b)],
    [bernoulli p] is [std::bernoulli_distribution(p)], [canonical] is
    [std::uniform_real_distribution<F>()] on [[0, 1)], and [shuffle] is
    [std::shuffle]. *)
Class RandomSource (Rng : Type) := {
  uniform_int : N → N → Rng → N * Rng;
  bernoulli : Q → Rng → bool * Rng;
  canonical : Rng → Q * Rng;
  shuffle : ∀ {A : Type}, list A → Rng → list A * Rng;
  uniform_int_range : ∀ a b g,
    (a ≤ b)%N → (a ≤ (uniform_int a b g).1 ≤ b)%N;
  canonical_range : ∀ g, (0 <= (canonical g).1)%Q ∧ ((canonical g).1 < 1)%Q;
  shuffle_perm : ∀ (A : Type) (l : list A) g, (shuffle l g).1 ≡ₚ l
}.

(** [std::uniform_real_distribution<F>(a, b)]: the affine image of a
    canonical draw, as the standard library computes it. *)
Definition uniform_real `{RandomSource Rng} (a b : Q) (g : Rng) : Q * Rng :=
  let '(u, g') := canonical g in ((a + (b - a) * u)%Q, g').

(** A concrete engine: a tape of raw 64-bit words, read front to back
    (an exhausted tape keeps yielding 0). *)
Definition Tape := list N.

Definition tape_next (g : Tape) : N * Tape :=
  match g with
  | [] => (0%N, [])
  | r :: g' => (r, g')
  end.

Definition tape_uniform_int (a b : N) (g : Tape) : N * Tape :=
  let '(r, g') := tape_next g in ((a + r mod (b - a + 1))%N, g').

Definition tape_bernoulli (p : Q) (g : Tape) : bool * Tape :=
  let '(r, g') := tape_next g in
  (negb (Qle_bool p (inject_Z (Z.of_N (r mod 1000)) / 1000)), g').

Definition tape_canonical (g : Tape) : Q * Tape :=
  let '(r, g') := tape_next g in
  ((inject_Z (Z.of_N (r mod 1000)) / 1000)%Q, g').

Definition tape_shuffle {A} (l : list A) (g : Tape) : list A * Tape :=
  let '(r, g') := tape_next g in
  let k := N.to_nat r `mod` S (length l) in
  (drop k l ++ take k l, g').

(** ** Counted loops *)

(** [for (i = lo; i < lo + k; ++i) body]: the loop state is threaded
    through the [k] iterations, and the loop stops without a result as soon
    as one iteration has none. *)
Fixpoint for_range {St : Type} (k i : nat) (body : nat → St → option St)
    (s : St) : option St :=
  match k with
  | O => Some s
  | S k' => s' ← body i s; for_range k' (S i) body s'
  end.

(** [assert(c)]: a failed assertion ends the call without a result. *)
Definition assert (c : bool) : option unit :=
  if c then Some () else None.

(** ** crossover.h *)

(** [size_t] subtraction, modulo 2^64. *)
Definition size_t_sub (a b : N) : N := ((a + 2 ^ 64 - b) mod 2 ^ 64)%N.

Section Crossover.
Context `{RandomSource Rng} {A : Type}.

(** [std::swap_ranges(value0.begin(), value0.begin() + index,
    value1.begin())]: exchanges the first [index] elements pairwise;
    both ranges must exist. *)
Fixpoint swap_ranges (index : nat) (value0 value1 : list A)
    : option (list A * list A) :=
  match index, value0, value1 with
  | O, _, _ => Some (value0, value1)
  | S n, x :: xs, y :: ys =>
      '(xs', ys') ← swap_ranges n xs ys; Some (y :: xs', x :: ys')
  | S _, _, _ => None
  end.

(** One iteration of the loop of [CrossoverPoint::operator()]. *)
Definition CrossoverPoint_body (size : N) (_ : nat)
    (s : list A * list A * Rng) : option (list A * list A * Rng) :=
  let '(value0, value1, rng) := s in
  let '(index, rng) := uniform_int 0 (size_t_sub size 1) rng in
  '(value0, value1) ← swap_ranges (N.to_nat index) value0 value1;
  Some (value0, value1, rng).

(** [CrossoverPoint::operator()]; [point_count] is an [int]. *)
Definition CrossoverPoint (point_count : Z) (value0 value1 : list A)
    (rng : Rng) : option (list A * list A * Rng) :=
  let size := N.of_nat (max (length value0) (length value1)) in
  for_range (Z.to_nat point_count) 0 (CrossoverPoint_body size)
    (value0, value1, rng).

(** [std::swap(value0[i], value1[i])]. *)
Definition swap_at (i : nat) (value0 value1 : list A)
    : option (list A * list A) :=
  x ← value0 !! i; y ← value1 !! i;
  Some (<[i := y]> value0, <[i := x]> value1).

(** One iteration of the loop of [CrossoverUniform::operator()]. *)
Definition CrossoverUniform_body (i : nat) (s : list A * list A * Rng)
    : option (list A * list A * Rng) :=
  let '(value0, value1, rng) := s in
  let '(b, rng) := bernoulli (1 # 2) rng in
  if b then
    '(value0, value1) ← swap_at i value0 value1; Some (value0, value1, rng)
  else Some (value0, value1, rng).

Definition CrossoverUniform (value0 value1 : list A) (rng : Rng)
    : option (list A * list A * Rng) :=
  let size := min (length value0) (length value1) in
  for_range size 0 CrossoverUniform_body (value0, value1, rng).
End Crossover.

Section CrossoverPmx.
Context `{RandomSource Rng}.

(** [v[i] = x] on a vector: no result outside the vector. *)
Definition store (v : list nat) (i x : nat) : option (list nat) :=
  if decide (i < length v) then Some (<[i := x]> v) else None.

(** [std::swap(p[a], p[b])]. *)
Definition swap_entries (p : list nat) (a b : nat) : option (list nat) :=
  x ← p !! a; y ← p !! b; p ← store p a y; store p b x.

(** First loop of [CrossoverPmx::operator()]: the inverse-position
    maps [p0] and [p1]. *)
Definition Pmx_inverse_body (size : nat) (value0 value1 : list nat)
    (i : nat) (s : list nat * list nat) : option (list nat * list nat) :=
  let '(p0, p1) := s in
  x0 ← value0 !! i; x1 ← value1 !! i;
  _ ← assert (x0 <? size); _ ← assert (x1 <? size);
  p0 ← store p0 x0 i; p1 ← store p1 x1 i;
  Some (p0, p1).

(** Second loop: the position-wise exchange with repair. *)
Definition Pmx_exchange_body (i : nat)
    (s : list nat * list nat * list nat * list nat)
    : option (list nat * list nat * list nat * list nat) :=
  let '(value0, value1, p0, p1) := s in
  tmp0 ← value0 !! i; tmp1 ← value1 !! i;
  value0 ← store value0 i tmp1;
  value1 ← store value1 i tmp0;
  j0 ← p0 !! tmp1; value0 ← store value0 j0 tmp0;
  j1 ← p1 !! tmp0; value1 ← store value1 j1 tmp1;
  p0 ← swap_entries p0 tmp0 tmp1;
  p1 ← swap_entries p1 tmp0 tmp1;
  Some (value0, value1, p0, p1).

Definition CrossoverPmx (value0 value1 : list nat) (rng : Rng)
    : option (list nat * list nat * Rng) :=
  let size := min (length value0) (length value1) in
  let '(index0, rng) := uniform_int 0 (N.of_nat size) rng in
  let '(index1, rng) := uniform_int 0 (N.of_nat size) rng in
  let '(index0, index1) :=
    if (index1 <? index0)%N then (index1, index0) else (index0, index1) in
  if (index0 =? index1)%N then Some (value0, value1, rng)
  else
    '(p0, p1) ← for_range size 0 (Pmx_inverse_body size value0 value1)
                   (replicate size 0, replicate size 0);
    '(value0, value1, _, _) ←
      for_range (N.to_nat index1 - N.to_nat index0) (N.to_nat index0)
        Pmx_exchange_body (value0, value1, p0, p1);
    Some (value0, value1, rng).
End CrossoverPmx.

(** ** population.h *)

(** [x < y] on the numeric type. *)
Definition Qlt_bool (x y : Q) : bool := negb (Qle_bool y x).

(** [struct SelectionSize]: an absolute [count] or a [percentage]. *)
Record SelectionSize := mkSelectionSize {
  count : N;
  percentage : Q
}.

(** The three constructors. *)
Definition SelectionSize_default : SelectionSize :=
  {| count := 0; percentage := 0 |}.
Definition SelectionSize_count (c : N) : SelectionSize :=
  {| count := c; percentage := 0 |}.
Definition SelectionSize_percentage (p : Q) : SelectionSize :=
  {| count := 0; percentage := p |}.

(** [std::ceil] followed by [static_cast<size_t>]. *)
Definition ceil_size_t (x : Q) : nat := Z.to_nat (Qceiling x).

(** [SelectionSize::operator()(size_t size)]. *)
Definition SelectionSize_call (s : SelectionSize) (size : nat) : option nat :=
  if (0 <? count s)%N then Some (min (N.to_nat (count s)) size)
  else
    _ ← assert (Qle_bool 0 (percentage s) && Qle_bool (percentage s) 1);
    Some (ceil_size_t (percentage s * inject_Z (Z.of_nat size))).

(** The sizes on which [operator()] passes its assertion: a positive
    count, or a percentage in [[0, 1]]. *)
Definition SelectionSize_valid (s : SelectionSize) : Prop :=
  (0 < count s)%N ∨ ((0 <= percentage s)%Q ∧ (percentage s <= 1)%Q).

(** *** The product in double precision *)

(** Round to the nearest integer, ties to the even one. *)
Definition round_half_even (x : Q) : Z :=
  let f := Qfloor x in
  match (x - inject_Z f ?= 1 # 2)%Q with
  | Lt => f
  | Gt => (f + 1)%Z
  | Eq => if Z.even f then f else (f + 1)%Z
  end.

(** [floor (log2 x)] for a positive [x]. *)
Definition binade (x : Q) : Z :=
  let e := (Z.log2 (Qnum x) - Z.log2 (Z.pos (Qden x)))%Z in
  if Qle_bool (2 ^ e) x then e else (e - 1)%Z.

(** The exponent of the unit in the last place of the doubles of the
    magnitude of [x]: 52 binary places below the leading bit, and no
    smaller than that of the subnormal numbers. *)
Definition ulp_exp (x : Q) : Z := Z.max (binade x - 52) (-1074).

Definition round_pos (x : Q) : Q :=
  (inject_Z (round_half_even (x / 2 ^ ulp_exp x)) * 2 ^ ulp_exp x)%Q.

(** The result of a [double] operation whose exact value is [x]: the
    double nearest to [x], ties to the even significand (the rounding of
    IEEE 754 binary64 in its default mode).  Overflow is not modelled: the
    operands in this file stay far below 2^1024. *)
Definition binary64 (x : Q) : Q :=
  match (0 ?= x)%Q with
  | Eq => 0
  | Lt => round_pos x
  | Gt => - round_pos (- x)
  end.

(** The value of a finite double of the Standard Library's specification
    of IEEE 754, against which [binary64] is checked below. *)
Definition SF2Q (f : SpecFloat.spec_float) : Q :=
  match f with
  | SpecFloat.S754_finite s m e =>
      ((if s then -1 else 1) * inject_Z (Z.pos m) * 2 ^ e)%Q
  | _ => 0
  end.

(** [SelectionSize::operator()(size_t size)] as the machine computes it:
    in [percentage * size] the size is converted to [double] and the
    product is rounded before [std::ceil] sees it.  [SelectionSize_call]
    above is the same resolution on the exact product: the two agree in
    count mode, differ by at most one in percentage mode, and both stay
    within the source size ([SelectionSize_call_double_exact]). *)
Definition SelectionSize_call_double (s : SelectionSize) (size : nat)
    : option nat :=
  if (0 <? count s)%N then Some (min (N.to_nat (count s)) size)
  else
    _ ← assert (Qle_bool 0 (percentage s) && Qle_bool (percentage s) 1);
    Some (ceil_size_t
            (binary64 (percentage s
                       * binary64 (inject_Z (Z.of_nat size))))).

(** [struct Individual<T, F>]. *)
Record Individual (T : Type) := mkIndividual {
  data : T;
  fitness : Q
}.
Arguments mkIndividual {T} _ _.
Arguments data {T} _.
Arguments fitness {T} _.

(** [Individual()]: a default-constructed value with the dirty mark. *)
Definition Individual_default {T} `{Inhabited T} : Individual T :=
  {| data := inhabitant; fitness := -1 |}.

Definition is_dirty {T} (it : Individual T) : bool :=
  Qlt_bool (fitness it) 0.

Definition mark_dirty {T} (it : Individual T) : Individual T :=
  {| data := data it; fitness := -1 |}.

(** [operator<] and [operator>] of individuals compare the fitness. *)
Definition Individual_lt {T} (a b : Individual T) : bool :=
  Qlt_bool (fitness a) (fitness b).
Definition Individual_gt {T} (a b : Individual T) : bool :=
  Qlt_bool (fitness b) (fitness a).

Abbreviation Population T := (list (Individual T)).

(** [Evaluate]: the fitness of every dirty individual is recomputed. *)
Fixpoint Evaluate {T Rng} (func : T → Rng → Q * Rng) (pop : Population T)
    (rng : Rng) : option (Population T * Rng) :=
  match pop with
  | [] => Some ([], rng)
  | it :: pop' =>
      if is_dirty it then
        let '(f, rng) := func (data it) rng in
        _ ← assert (Qle_bool 0 f);
        '(pop', rng) ← Evaluate func pop' rng;
        Some ({| data := data it; fitness := f |} :: pop', rng)
      else
        '(pop', rng) ← Evaluate func pop' rng;
        Some (it :: pop', rng)
  end.

(** The generator as the evaluation of [pop] leaves it: the evaluator
    has been called on the dirty individuals, in their order. *)
Fixpoint Evaluate_rng {T Rng} (func : T → Rng → Q * Rng) (pop : Population T)
    (rng : Rng) : Rng :=
  match pop with
  | [] => rng
  | it :: pop' =>
      Evaluate_rng func pop'
        (if is_dirty it then (func (data it) rng).2 else rng)
  end.

(** [std::sort(first, last, std::greater<Individual<T, F>>())].  The
    standard fixes the result only up to the order of individuals of
    equal fitness: it is a rearrangement of the range in which no
    individual is greater than one placed before it. *)
Definition fitness_ge {T} (a b : Individual T) : Prop :=
  (fitness b <= fitness a)%Q.

Class StdSort := {
  sort_greater : ∀ {T : Type}, Population T → Population T;
  sort_greater_perm : ∀ T (pop : Population T), sort_greater pop ≡ₚ pop;
  sort_greater_sorted : ∀ T (pop : Population T),
    StronglySorted fitness_ge (sort_greater pop)
}.

(** [std::vector::resize]. *)
Definition resize {T} `{Inhabited T} (v : Population T) (n : nat)
    : Population T :=
  take n v ++ replicate (n - length v) Individual_default.

(** ** replacement.h *)

Section Replacement.
Context `{StdSort} {T : Type} `{Inhabited T} {Rng : Type}.

(** [ReplacementAll::operator()]: the pool is moved into [dst]. *)
Definition ReplacementAll (src dst : Population T) (rng : Rng)
    : option (Population T * Population T * Rng) :=
  Some ([], src, rng).

(** [ReplacementElitist::operator()]; [size] is the elitism size. *)
Definition ReplacementElitist (size : SelectionSize)
    (src dst : Population T) (rng : Rng)
    : option (Population T * Population T * Rng) :=
  count ← SelectionSize_call size (length dst);
  let dst := sort_greater dst in
  let dst := resize dst count in
  let dst := dst ++ src in
  Some ([], dst, rng).
End Replacement.

(** ** termination.h *)

(** [++i] on an [int]: signed overflow has no defined result. *)
Definition INT_MAX : Z := (2 ^ 31 - 1)%Z.

Definition int_incr (i : Z) : option Z :=
  if (i <? INT_MAX)%Z then Some (i + 1)%Z else None.

(** [std::max_element(first, last)]: the first of the greatest elements,
    [None] for [last] on an empty range. *)
Fixpoint max_element_from {T} (largest : Individual T) (pop : Population T)
    : Individual T :=
  match pop with
  | [] => largest
  | it :: pop' =>
      max_element_from (if Individual_lt largest it then it else largest) pop'
  end.

Definition max_element {T} (pop : Population T) : option (Individual T) :=
  match pop with
  | [] => None
  | it :: pop' => Some (max_element_from it pop')
  end.

(** The calling convention of every termination functor: the functor's
    own state [St], the population and the generator go in and come out. *)
Abbreviation Termination St T Rng :=
  (St → Population T → Rng → option (bool * St * Population T * Rng)).

Module TerminationGeneration.
Record t := mk { max_generations : Z; curr_generation_ : Z }.

Definition new (max_generations : Z) : t :=
  {| max_generations := max_generations; curr_generation_ := 0 |}.

Definition call {T Rng} : Termination t T Rng := λ self pop rng,
  c ← int_incr (curr_generation_ self);
  Some ((max_generations self <=? c)%Z,
        {| max_generations := max_generations self; curr_generation_ := c |},
        pop, rng).
End TerminationGeneration.

Module TerminationFitness.
Record t := mk { target_fitness : Q }.

Definition call {T Rng} : Termination t T Rng := λ self pop rng,
  match max_element pop with
  | None => Some (true, self, pop, rng)
  | Some best =>
      Some (Qle_bool (target_fitness self) (fitness best), self, pop, rng)
  end.
End TerminationFitness.

Module TerminationStagnation.
Record t := mk {
  max_generations : Z;
  curr_generation_ : Z;
  best_fitness_ : Q
}.

Definition new (max_generations : Z) : t :=
  {| max_generations := max_generations;
     curr_generation_ := 0;
     best_fitness_ := 0 |}.

Definition call {T Rng} : Termination t T Rng := λ self pop rng,
  match max_element pop with
  | None => Some (true, self, pop, rng)
  | Some best =>
      if Qlt_bool (best_fitness_ self) (fitness best) then
        Some (false,
              {| max_generations := max_generations self;
                 curr_generation_ := 0;
                 best_fitness_ := fitness best |},
              pop, rng)
      else
        c ← int_incr (curr_generation_ self);
        Some ((max_generations self <=? c)%Z,
              {| max_generations := max_generations self;
                 curr_generation_ := c;
                 best_fitness_ := best_fitness_ self |},
              pop, rng)
  end.

(** The verdicts of consecutive calls on the populations [pops], as a
    driver that keeps calling would see them. *)
Fixpoint run {T Rng} (self : t) (pops : list (Population T)) (rng : Rng)
    : option (list bool * t) :=
  match pops with
  | [] => Some ([], self)
  | pop :: pops' =>
      '(b, self, _, rng) ← call self pop rng;
      '(bs, self) ← run self pops' rng;
      Some (b :: bs, self)
  end.
End TerminationStagnation.

Module TerminationFlag.
Record t := mk { flag : bool }.

Definition new : t := {| flag := false |}.

Definition call {T Rng} : Termination t T Rng := λ self pop rng,
  Some (flag self, self, pop, rng).
End TerminationFlag.

(** The best fitness of a population, the value the stagnation and
    fitness predicates look at. *)
Definition best_fitness {T} (pop : Population T) : option Q :=
  fitness <$> max_element pop.

Section Combinators.
Context {W T Rng : Type}.

(** [Check<I>] of [TerminationOr]: the members [funcs] are the functors
    of the tuple from index [I] on, each acting on the tuple [W].  The
    arguments are taken by value, so what a member does to the population
    and the generator reaches the later members but not the caller. *)
Fixpoint TerminationOr_Check (funcs : list (Termination W T Rng))
    (self : W) (pop : Population T) (rng : Rng) : option (bool * W) :=
  match funcs with
  | [] => Some (false, self)
  | f :: funcs' =>
      '(b, self, pop, rng) ← f self pop rng;
      if (b : bool) then Some (true, self)
      else TerminationOr_Check funcs' self pop rng
  end.

Definition TerminationOr (funcs : list (Termination W T Rng))
    : Termination W T Rng := λ self pop rng,
  '(b, self) ← TerminationOr_Check funcs self pop rng;
  Some (b, self, pop, rng).

(** [Check<I>] of [TerminationAnd]. *)
Fixpoint TerminationAnd_Check (funcs : list (Termination W T Rng))
    (self : W) (pop : Population T) (rng : Rng) : option (bool * W) :=
  match funcs with
  | [] => Some (true, self)
  | f :: funcs' =>
      '(b, self, pop, rng) ← f self pop rng;
      if (b : bool) then TerminationAnd_Check funcs' self pop rng
      else Some (false, self)
  end.

Definition TerminationAnd (funcs : list (Termination W T Rng))
    : Termination W T Rng := λ self pop rng,
  '(b, self) ← TerminationAnd_Check funcs self pop rng;
  Some (b, self, pop, rng).

(** [all_return v funcs s s']: called one after the other from the
    state [s], every member of [funcs] returns [v], and the calls end in
    the state [s']. *)
Inductive all_return (v : bool)
    : list (Termination W T Rng) → W * Population T * Rng →
      W * Population T * Rng → Prop :=
  | all_return_nil (s : W * Population T * Rng) : all_return v [] s s
  | all_return_cons f funcs self pop rng self' pop' rng'
      (s'' : W * Population T * Rng) :
      f self pop rng = Some (v, self', pop', rng') →
      all_return v funcs (self', pop', rng') s'' →
      all_return v (f :: funcs) (self, pop, rng) s''.
End Combinators.

(** A functor stored in the first or the second slot of a pair. *)
Definition in_fst {A B T Rng} (f : Termination A T Rng)
    : Termination (A * B) T Rng := λ self pop rng,
  '(b, a, pop, rng) ← f self.1 pop rng; Some (b, (a, self.2), pop, rng).

Definition in_snd {A B T Rng} (f : Termination B T Rng)
    : Termination (A * B) T Rng := λ self pop rng,
  '(b, x, pop, rng) ← f self.2 pop rng; Some (b, (self.1, x), pop, rng).

(** ** selection.h *)

(** The quotient in [SelectionSus] can have the divisor 0.  It is
    computed as IEEE 754 arithmetic does, in the rationals extended with
    the infinities and NaN; every comparison with NaN is false. *)
Inductive Fext :=
  | Finite (q : Q)
  | PosInf
  | NegInf
  | NaN.

Definition Fdiv (x y : Q) : Fext :=
  if Qeq_bool y 0 then
    if Qeq_bool x 0 then NaN
    else if Qlt_bool 0 x then PosInf else NegInf
  else Finite (x / y).

Definition Fadd (a b : Fext) : Fext :=
  match a, b with
  | NaN, _ | _, NaN => NaN
  | PosInf, NegInf | NegInf, PosInf => NaN
  | PosInf, _ | _, PosInf => PosInf
  | NegInf, _ | _, NegInf => NegInf
  | Finite x, Finite y => Finite (x + y)
  end.

(** The sum of the fitness values, accumulated from [0.0] front to back. *)
Definition total_fitness {T} (src : Population T) : Q :=
  fold_left (λ acc it, acc + fitness it)%Q src 0%Q.

(** The running sums [cum_fitness[i] = src[i].fitness + cum_fitness[i-1]]. *)
Fixpoint cum_fitness_from {T} (prev : Q) (src : Population T) : list Q :=
  match src with
  | [] => []
  | it :: src' =>
      let c := (fitness it + prev)%Q in c :: cum_fitness_from c src'
  end.

Definition cum_fitness {T} (src : Population T) : list Q :=
  match src with
  | [] => []
  | it :: src' => fitness it :: cum_fitness_from (fitness it) src'
  end.

(** [std::lower_bound]: the furthermost position such that every element
    before it is less than [value]. *)
Fixpoint lower_bound (l : list Q) (value : Q) : nat :=
  match l with
  | [] => 0
  | x :: l' => if Qlt_bool x value then S (lower_bound l' value) else 0
  end.

Section Selection.
Context `{RandomSource Rng} {T : Type}.

(** One draw of [SelectionRouletteWheel::operator()]. *)
Definition RouletteWheel_body (src : Population T) (cum : list Q)
    (total : Q) (_ : nat) (s : Population T * Rng)
    : option (Population T * Rng) :=
  let '(dst, rng) := s in
  let '(selection, rng) := uniform_real 0 total rng in
  let index := lower_bound cum selection in
  it ← src !! index;
  Some (dst ++ [it], rng).

(** [SelectionRouletteWheel::operator()]; the result is the source, the
    destination and the generator after the call. *)
Definition SelectionRouletteWheel (size : SelectionSize)
    (src dst : Population T) (rng : Rng)
    : option (Population T * Population T * Rng) :=
  match src with
  | [] => Some (src, dst, rng)
  | _ :: _ =>
      let cum := cum_fitness src in
      let total := total_fitness src in
      samples ← SelectionSize_call size (length src);
      '(dst, rng) ← for_range samples 0 (RouletteWheel_body src cum total)
                      (dst, rng);
      Some (src, dst, rng)
  end.

(** The inner loop [while (cum_exp > offset + index)] of
    [SelectionSus::operator()] for a finite [cum_exp]; [fuel] bounds the
    number of iterations. *)
Fixpoint Sus_while (fuel : nat) (cum_exp offset : Q) (it : Individual T)
    (dst : Population T) (index : nat) : Population T * nat :=
  match fuel with
  | O => (dst, index)
  | S fuel' =>
      if Qlt_bool (offset + inject_Z (Z.of_nat index)) cum_exp then
        Sus_while fuel' cum_exp offset it (dst ++ [it]) (S index)
      else (dst, index)
  end.

(** One iteration of the outer loop.  With an infinite [cum_exp] the
    inner loop never ends; a NaN or a negative infinity never enters it;
    a finite value leaves it after at most [ceil(cum_exp)] rounds. *)
Definition Sus_body (samples : nat) (total offset : Q) (src : Population T)
    (i : nat) (s : Fext * Population T * nat)
    : option (Fext * Population T * nat) :=
  let '(cum_exp, dst, index) := s in
  it ← src !! i;
  let cum_exp :=
    Fadd cum_exp
      (Fdiv (inject_Z (Z.of_nat samples) * fitness it) total) in
  match cum_exp with
  | PosInf => None
  | Finite c =>
      let '(dst, index) :=
        Sus_while (ceil_size_t c) c offset it dst index in
      Some (cum_exp, dst, index)
  | NegInf | NaN => Some (cum_exp, dst, index)
  end.

(** [SelectionSus::operator()]. *)
Definition SelectionSus (size : SelectionSize) (src dst : Population T)
    (rng : Rng) : option (Population T * Population T * Rng) :=
  samples ← SelectionSize_call size (length src);
  let total := total_fitness src in
  let '(offset, rng) := canonical rng in
  '(_, dst, _) ← for_range (length src) 0
                   (Sus_body samples total offset src) (Finite 0, dst, 0);
  Some (src, dst, rng).
End Selection.

(** ** mutation.h *)

(** One iteration of the loop of [MutationFlip::operator()]. *)
Definition MutationFlip_body `{RandomSource Rng} (prob : Q) (i : nat)
    (s : list bool * Rng) : option (list bool * Rng) :=
  let '(value, rng) := s in
  let '(b, rng) := bernoulli prob rng in
  if b then x ← value !! i; Some (<[i := negb x]> value, rng)
  else Some (value, rng).

Definition MutationFlip `{RandomSource Rng} (prob : Q) (value : list bool)
    (rng : Rng) : option (list bool * Rng) :=
  for_range (length value) 0 (MutationFlip_body prob) (value, rng).

(** ** ga.h *)

Module Ga.
(** [struct Ga]: the two rates and the six functors.  The termination
    functor is the one with a state of its own, [termination_state]. *)
Record t (T Rng St : Type) := mk {
  mutation_rate : Q;
  crossover_rate : Q;
  evaluation : T → Rng → Q * Rng;
  selection : Population T → Population T → Rng
              → option (Population T * Population T * Rng);
  crossover : T → T → Rng → option (T * T * Rng);
  mutation : T → Rng → option (T * Rng);
  replacement : Population T → Population T → Rng
                → option (Population T * Population T * Rng);
  termination : Termination St T Rng;
  termination_state : St
}.
Arguments mk {T Rng St}.
Arguments mutation_rate {T Rng St}.
Arguments crossover_rate {T Rng St}.
Arguments evaluation {T Rng St}.
Arguments selection {T Rng St}.
Arguments crossover {T Rng St}.
Arguments mutation {T Rng St}.
Arguments replacement {T Rng St}.
Arguments termination {T Rng St}.
Arguments termination_state {T Rng St}.

Section Step.
Context `{RandomSource Rng} {T St : Type}.

Definition with_termination_state (ga : t T Rng St) (st : St) : t T Rng St :=
  mk (mutation_rate ga) (crossover_rate ga) (evaluation ga) (selection ga)
     (crossover ga) (mutation ga) (replacement ga) (termination ga) st.

Definition rate_ok (r : Q) : bool := Qle_bool 0 r && Qle_bool r 1.

(** The body of the loop over the pairs of the shuffled pool. *)
Definition pair_body (ga : t T Rng St) (i : nat)
    (s : Population T * Rng) : option (Population T * Rng) :=
  let '(tmp, rng) := s in
  child0 ← tmp !! (2 * i + 0);
  child1 ← tmp !! (2 * i + 1);
  let '(c, rng) := bernoulli (crossover_rate ga) rng in
  '(child0, child1, rng) ←
    (if (c : bool) then
       '(d0, d1, rng) ← crossover ga (data child0) (data child1) rng;
       Some (mark_dirty (mkIndividual d0 (fitness child0)),
             mark_dirty (mkIndividual d1 (fitness child1)), rng)
     else Some (child0, child1, rng));
  let '(m, rng) := bernoulli (mutation_rate ga) rng in
  '(child0, rng) ←
    (if (m : bool) then
       '(d0, rng) ← mutation ga (data child0) rng;
       Some (mark_dirty (mkIndividual d0 (fitness child0)), rng)
     else Some (child0, rng));
  let '(m, rng) := bernoulli (mutation_rate ga) rng in
  '(child1, rng) ←
    (if (m : bool) then
       '(d1, rng) ← mutation ga (data child1) rng;
       Some (mark_dirty (mkIndividual d1 (fitness child1)), rng)
     else Some (child1, rng));
  Some (<[2 * i + 1 := child1]> (<[2 * i + 0 := child0]> tmp), rng).

(** [Ga::operator()]: one evolution step.  The scratch pool [tmp] is
    emptied before it is used, so it is local to the step. *)
Definition step (ga : t T Rng St) (pop : Population T) (rng : Rng)
    : option (bool * t T Rng St * Population T * Rng) :=
  _ ← assert (rate_ok (mutation_rate ga));
  _ ← assert (rate_ok (crossover_rate ga));
  match pop with
  | [] => Some (true, ga, pop, rng)
  | _ :: _ =>
      '(pop, rng) ← Evaluate (evaluation ga) pop rng;
      '(pop, tmp, rng) ← selection ga pop [] rng;
      match tmp with
      | [] => Some (false, ga, pop, rng)
      | _ :: _ =>
          let '(tmp, rng) := shuffle tmp rng in
          '(tmp, rng) ← for_range (length tmp / 2) 0 (pair_body ga)
                          (tmp, rng);
          '(tmp, pop, rng) ← replacement ga tmp pop rng;
          '(b, st, pop, rng) ← termination ga (termination_state ga) pop rng;
          Some (b, with_termination_state ga st, pop, rng)
      end
  end.
End Step.
End Ga.

(** ** pbil.h *)

(** [std::max] and [std::min] as the library defines them. *)
Definition std_max (a b : Q) : Q := if Qlt_bool a b then b else a.
Definition std_min (a b : Q) : Q := if Qlt_bool b a then b else a.

(** [PbilDist<ProbT, Size>]: the probability vector [prob], of length
    [Size], filled with 0.5 by the constructor. *)
Definition PbilDist_new (Size : nat) : list Q := replicate Size (1 # 2).

(** One iteration of the loop of [PbilDist::operator()]. *)
Definition PbilDist_body `{RandomSource Rng} (prob : list Q) (i : nat)
    (s : list bool * Rng) : option (list bool * Rng) :=
  let '(value, rng) := s in
  p ← prob !! i;
  let '(b, rng) := bernoulli p rng in
  _ ← assert (i <? length value);
  Some (<[i := b]> value, rng).

Definition PbilDist_call `{RandomSource Rng} (prob : list Q)
    (value : list bool) (rng : Rng) : option (list bool * Rng) :=
  for_range (length prob) 0 (PbilDist_body prob) (value, rng).

Module PbilUpdate.
Record t := mk {
  rate : Q;
  best_count : nat;
  mutation_prob : Q;
  mutation_shift : Q;
  lower_bound : Q;
  upper_bound : Q
}.

Section Call.
Context `{RandomSource Rng} `{StdSort}.

(** The inner loop over the [best_count] best individuals: [p += lr]
    for every one of them whose bit [i] is set. *)
Definition best_body (pop : Population (list bool)) (i : nat) (lr : Q)
    (j : nat) (p : Q) : option Q :=
  it ← pop !! j;
  b ← data it !! i;
  Some (if (b : bool) then (p + lr)%Q else p).

(** The mutation of one probability. *)
Definition mutate (self : t) (p : Q) (rng : Rng) : Q * Rng :=
  let '(m, rng) := bernoulli (mutation_prob self) rng in
  if (m : bool) then
    let p := (p * (1 - mutation_shift self))%Q in
    let '(f, rng) := bernoulli (1 # 2) rng in
    (if (f : bool) then (p + mutation_shift self)%Q else p, rng)
  else (p, rng).

(** The body of the loop over the positions. *)
Definition body (self : t) (pop : Population (list bool)) (i : nat)
    (s : list Q * Rng) : option (list Q * Rng) :=
  let '(prob, rng) := s in
  old ← prob !! i;
  let p := (old * (1 - rate self))%Q in
  let lr := (rate self / inject_Z (Z.of_nat (best_count self)))%Q in
  p ← for_range (best_count self) 0 (best_body pop i lr) p;
  let '(p, rng) := mutate self p rng in
  Some (<[i := std_min (std_max p (lower_bound self)) (upper_bound self)]>
          prob, rng).

(** [PbilUpdate::operator()]. *)
Definition call (self : t) (prob : list Q) (pop : Population (list bool))
    (rng : Rng) : option (list Q * Population (list bool) * Rng) :=
  _ ← assert ((0 <? best_count self) && (best_count self <=? length pop));
  let pop := sort_greater pop in
  '(prob, rng) ← for_range (length prob) 0 (body self pop) (prob, rng);
  Some (prob, pop, rng).
End Call.
End PbilUpdate.

(** The number of individuals among the first [n] of [pop] whose bit
    [i] is set. *)
Definition set_count (pop : Population (list bool)) (n i : nat) : nat :=
  length (filter (λ it, data it !! i = Some true) (take n pop)).

(** The learning step of PBIL: the old probability with weight
    [1 - rate] and the frequency of set bits with weight [rate]. *)
Definition pbil_blend (rate old : Q) (k n : nat) : Q :=
  (old * (1 - rate)
   + rate * (inject_Z (Z.of_nat k) / inject_Z (Z.of_nat n)))%Q.

(** The mutation of PBIL on the draws [m] (mutate at all) and [f]
    (towards 1 rather than towards 0). *)
Definition pbil_nudge (shift : Q) (m f : bool) (p : Q) : Q :=
  if m then
    if f then (p * (1 - shift) + shift)%Q else (p * (1 - shift))%Q
  else p.

(** ** island_model.h and migration.h *)

Module Island.
(** [struct Island]: a subpopulation and the algorithm that steps it. *)
Record t (T GaT : Type) := mk { pop : Population T; ga : GaT }.
Arguments mk {T GaT}.
Arguments pop {T GaT}.
Arguments ga {T GaT}.

Definition set_pop {T GaT} (isl : t T GaT) (p : Population T) : t T GaT :=
  mk p (ga isl).
End Island.

Section Migration.
Context `{RandomSource Rng} {T GaT : Type}.

(** [islands[index].pop.push_back(x)]. *)
Definition push_back (islands : list (Island.t T GaT)) (index : nat)
    (x : Individual T) : option (list (Island.t T GaT)) :=
  dst ← islands !! index;
  Some (<[index := Island.set_pop dst (Island.pop dst ++ [x])]> islands).

(** [src.erase(src.end() - count, src.end())] on the island [i]. *)
Definition erase_tail (islands : list (Island.t T GaT)) (i count : nat)
    : option (list (Island.t T GaT)) :=
  src ← islands !! i;
  _ ← assert (count <=? length (Island.pop src));
  Some (<[i := Island.set_pop src
               (take (length (Island.pop src) - count) (Island.pop src))]>
          islands).

(** The inner loop of [MigrationRandom::operator()]: the individual at
    position [k] of island [i] goes to a drawn island. *)
Definition MigrationRandom_move (n i k : nat)
    (s : list (Island.t T GaT) * Rng)
    : option (list (Island.t T GaT) * Rng) :=
  let '(islands, rng) := s in
  src ← islands !! i;
  x ← Island.pop src !! k;
  let '(index, rng) := uniform_int 1 (N.of_nat n - 1) rng in
  let index := if (index =? N.of_nat i)%N then 0 else N.to_nat index in
  islands ← push_back islands index x;
  Some (islands, rng).

(** The body of the loop over the islands. *)
Definition MigrationRandom_body (size : SelectionSize) (n i : nat)
    (s : list (Island.t T GaT) * Rng)
    : option (list (Island.t T GaT) * Rng) :=
  let '(islands, rng) := s in
  src ← islands !! i;
  let '(p, rng) := shuffle (Island.pop src) rng in
  let islands := <[i := Island.set_pop src p]> islands in
  count ← SelectionSize_call size (length p);
  '(islands, rng) ←
    for_range count (length p - count) (MigrationRandom_move n i)
      (islands, rng);
  islands ← erase_tail islands i count;
  Some (islands, rng).

(** [MigrationRandom::operator()]. *)
Definition MigrationRandom (size : SelectionSize)
    (islands : list (Island.t T GaT)) (rng : Rng)
    : option (list (Island.t T GaT) * Rng) :=
  _ ← assert (1 <? length islands);
  for_range (length islands) 0
    (MigrationRandom_body size (length islands)) (islands, rng).

(** The body of the loop of [MigrationRing::operator()]. *)
Definition MigrationRing_body (size : SelectionSize) (n i : nat)
    (s : list (Island.t T GaT) * Rng)
    : option (list (Island.t T GaT) * Rng) :=
  let '(islands, rng) := s in
  src ← islands !! i;
  let '(p, rng) := shuffle (Island.pop src) rng in
  let islands := <[i := Island.set_pop src p]> islands in
  let index := if n <=? i + 1 then 0 else i + 1 in
  count ← SelectionSize_call size (length p);
  dst ← islands !! index;
  let islands :=
    <[index := Island.set_pop dst
                 (Island.pop dst ++ drop (length p - count) p)]> islands in
  islands ← erase_tail islands i count;
  Some (islands, rng).

(** [MigrationRing::operator()]. *)
Definition MigrationRing (size : SelectionSize)
    (islands : list (Island.t T GaT)) (rng : Rng)
    : option (list (Island.t T GaT) * Rng) :=
  _ ← assert (1 <? length islands);
  for_range (length islands) 0
    (MigrationRing_body size (length islands)) (islands, rng).

(** All individuals of all islands. *)
Definition individuals (islands : list (Island.t T GaT)) : Population T :=
  concat (Island.pop <$> islands).

(** The two elementary changes of a vector of islands that migration is
    made of: an island is rearranged, or one individual leaves the
    population of an island and is added to the population of another
    island. *)
Inductive migrate_step
    : list (Island.t T GaT) → list (Island.t T GaT) → Prop :=
  | migrate_shuffle islands i src p :
      islands !! i = Some src →
      p ≡ₚ Island.pop src →
      migrate_step islands (<[i := Island.set_pop src p]> islands)
  | migrate_move islands i j src dst l1 x l2 :
      i ≠ j →
      islands !! i = Some src →
      islands !! j = Some dst →
      Island.pop src = l1 ++ x :: l2 →
      migrate_step islands
        (<[j := Island.set_pop dst (Island.pop dst ++ [x])]>
           (<[i := Island.set_pop src (l1 ++ l2)]> islands)).
End Migration.

(** The two parents hold, at position [i], the same unordered pair of
    values before ([value0], [value1]) and after ([value0'], [value1']). *)
Definition pair_preserved {A : Type} (i : nat)
    (value0 value1 value0' value1' : list A) : Prop :=
  (value0' !! i = value0 !! i ∧ value1' !! i = value1 !! i) ∨
  (value0' !! i = value1 !! i ∧ value1' !! i = value0 !! i).

(** [p] is the inverse-position map of the vector [v] of length [n]:
    [p[x]] is the position of the value [x] in [v]. *)
Definition inverse_of (n : nat) (v p : list nat) : Prop :=
  length v = n ∧ length p = n ∧
  (∀ i x, v !! i = Some x → p !! x = Some i) ∧
  (∀ x j, p !! x = Some j → v !! j = Some x).

(** A concrete [std::sort]: merge sort on the fitness order. *)
#[export] Instance fitness_ge_dec {T} (a b : Individual T) :
  Decision (fitness_ge a b).
Proof.
  unfold fitness_ge.
  destruct (Qlt_le_dec (fitness a) (fitness b)) as [Hlt|Hle].
  - right. by apply Qlt_not_le.
  - by left.
Defined.

Definition merge_sort_greater {T} (pop : Population T) : Population T :=
  merge_sort fitness_ge pop.

(** ** selection.h: the remaining operators *)

Section SelectionMore.
Context `{RandomSource Rng} `{StdSort} {T : Type}.

(** One draw of [SelectionRandom::operator()]. *)
Definition SelectionRandom_body (src : Population T) (_ : nat)
    (s : Population T * Rng) : option (Population T * Rng) :=
  let '(dst, rng) := s in
  let '(index, rng) :=
    uniform_int 0 (size_t_sub (N.of_nat (length src)) 1) rng in
  it ← src !! N.to_nat index;
  Some (dst ++ [it], rng).

(** [SelectionRandom::operator()]. *)
Definition SelectionRandom (size : SelectionSize) (src dst : Population T)
    (rng : Rng) : option (Population T * Population T * Rng) :=
  samples ← SelectionSize_call size (length src);
  '(dst, rng) ← for_range samples 0 (SelectionRandom_body src) (dst, rng);
  Some (src, dst, rng).


(** The inner loop of [SelectionTournament::operator()]: one more
    candidate is drawn and replaces [best] when it is strictly fitter. *)
Definition Tournament_round (src : Population T) (_ : nat) (s : N * Rng)
    : option (N * Rng) :=
  let '(best, rng) := s in
  let '(index, rng) :=
    uniform_int 0 (size_t_sub (N.of_nat (length src)) 1) rng in
  a ← src !! N.to_nat index;
  b ← src !! N.to_nat best;
  Some (if Qlt_bool (fitness b) (fitness a) then index else best, rng).

(** One tournament. *)
Definition Tournament_body (tournament_size : Z) (src : Population T)
    (_ : nat) (s : Population T * Rng) : option (Population T * Rng) :=
  let '(dst, rng) := s in
  let '(best, rng) :=
    uniform_int 0 (size_t_sub (N.of_nat (length src)) 1) rng in
  '(best, rng) ← for_range (Z.to_nat (tournament_size - 1)) 0
                   (Tournament_round src) (best, rng);
  it ← src !! N.to_nat best;
  Some (dst ++ [it], rng).

(** [SelectionTournament::operator()]; [tournament_size] is an [int]. *)
Definition SelectionTournament (size : SelectionSize) (tournament_size : Z)
    (src dst : Population T) (rng : Rng)
    : option (Population T * Population T * Rng) :=
  _ ← assert (0 <? tournament_size)%Z;
  samples ← SelectionSize_call size (length src);
  '(dst, rng) ← for_range samples 0 (Tournament_body tournament_size src)
                  (dst, rng);
  Some (src, dst, rng).

(** The loop of [SelectionRank::operator()] that overwrites the fitness
    of the sorted copy with the score of the rank. *)
Definition rank_fitness (fitness_func : nat → nat → Q) (tmp : Population T)
    : Population T :=
  imap (λ i it, mkIndividual (data it) (fitness_func i (length tmp))) tmp.

(** [SelectionRank::operator()]: the wrapped selection works on the
    sorted and rescored copy [tmp]; the source is not touched.
    [fitness_func] is the call operator of the [FitnessFunc] functor, any
    functor that can be called with a rank and a size.  The default
    functor cannot: the result type of [FitnessRankLinear::operator()] is
    a template parameter of its own that the call [fitness(i, tmp.size())]
    does not fix. *)
Definition SelectionRank
    (selection : Population T → Population T → Rng
                 → option (Population T * Population T * Rng))
    (fitness_func : nat → nat → Q) (src dst : Population T) (rng : Rng)
    : option (Population T * Population T * Rng) :=
  let tmp := rank_fitness fitness_func (sort_greater src) in
  '(_, dst, rng) ← selection tmp dst rng;
  Some (src, dst, rng).
End SelectionMore.


(** The verdicts of consecutive calls of a termination functor on the
    populations [pops], as a driver that keeps calling would see them. *)
Fixpoint Termination_run {St T Rng} (call : Termination St T Rng)
    (self : St) (pops : list (Population T)) (rng : Rng)
    : option (list bool * St) :=
  match pops with
  | [] => Some ([], self)
  | pop :: pops' =>
      '(b, self, _, rng) ← call self pop rng;
      '(bs, self) ← Termination_run call self pops' rng;
      Some (b :: bs, self)
  end.

(** ** mutation.h: real-valued and element-wise mutation *)

(** [MutationBoundary<T>::operator()]; the default
    [std::bernoulli_distribution] has probability 0.5. *)
Definition MutationBoundary `{RandomSource Rng} (lower_bound upper_bound : Q)
    (value : Q) (rng : Rng) : Q * Rng :=
  let '(b, rng) := bernoulli (1 # 2) rng in
  if (b : bool) then (lower_bound, rng) else (upper_bound, rng).

(** [MutationUniform<T>::operator()]: the draw is a double, and the sum
    [value + dist(rng)] is rounded before it is clamped.  (A sum beyond
    the largest double is an infinity in the code and a large number
    here; the clamp takes both to the same bound.) *)
Definition MutationUniform `{RandomSource Rng}
    (range lower_bound upper_bound : Q) (value : Q) (rng : Rng) : Q * Rng :=
  let '(d, rng) := uniform_real (- range) range rng in
  let value := binary64 (value + binary64 d) in
  (std_min (std_max value lower_bound) upper_bound, rng).

(** One iteration of the loop of [MutationVector::operator()] over the
    elements of [value]. *)
Definition MutationVector_body `{RandomSource Rng} {A : Type} (prob : Q)
    (func : A → Rng → option (A * Rng)) (i : nat)
    (s : list A * Rng) : option (list A * Rng) :=
  let '(value, rng) := s in
  let '(b, rng) := bernoulli prob rng in
  if (b : bool) then
    it ← value !! i;
    '(it, rng) ← func it rng;
    Some (<[i := it]> value, rng)
  else Some (value, rng).

Definition MutationVector `{RandomSource Rng} {A : Type} (prob : Q)
    (func : A → Rng → option (A * Rng)) (value : list A) (rng : Rng)
    : option (list A * Rng) :=
  for_range (length value) 0 (MutationVector_body prob func) (value, rng).

(** ** Loops without a bound *)

(** The result of a call that contains a [while] or [do]-[while] loop
    whose number of iterations the code does not bound: it returns, it
    has no defined result (an access outside a vector), or the loop is
    still running after [fuel] iterations. *)
Inductive Outcome (A : Type) : Type :=
  | Returns (a : A)
  | Undefined
  | OutOfFuel.
Arguments Returns {A} a.
Arguments Undefined {A}.
Arguments OutOfFuel {A}.

#[export] Instance Outcome_bind : MBind Outcome := λ A B f m,
  match m with
  | Returns a => f a
  | Undefined => Undefined
  | OutOfFuel => OutOfFuel
  end.

Definition of_option {A : Type} (o : option A) : Outcome A :=
  match o with
  | Some a => Returns a
  | None => Undefined
  end.

(** ** mutation.h: mutation of permutations *)

Section MutationPermutation.
Context `{RandomSource Rng} {A : Type}.

(** [do { index1 = dist(rng); } while (index0 == index1);] with [dist]
    uniform on [[0, b]]. *)
Fixpoint draw_distinct (fuel : nat) (b index0 : N) (rng : Rng)
    : Outcome (N * Rng) :=
  match fuel with
  | O => OutOfFuel
  | S fuel =>
      let '(index1, rng) := uniform_int 0 b rng in
      if (index0 =? index1)%N then draw_distinct fuel b index0 rng
      else Returns (index1, rng)
  end.

(** The two indices that [MutationSwap], [MutationInvert] and
    [MutationMove] draw for a vector of [size] elements, with
    [dist(0, size - 1)] in [size_t]. *)
Definition draw_two (fuel : nat) (size : nat) (rng : Rng)
    : Outcome (nat * nat * Rng) :=
  let b := size_t_sub (N.of_nat size) 1 in
  let '(index0, rng) := uniform_int 0 b rng in
  '(index1, rng) ← draw_distinct fuel b index0 rng;
  Returns (N.to_nat index0, N.to_nat index1, rng).

(** [std::swap(value[i], value[j])]. *)
Definition swap_elems (value : list A) (i j : nat) : option (list A) :=
  x ← value !! i; y ← value !! j;
  Some (<[j := x]> (<[i := y]> value)).

(** The loop of [MutationSwap::operator()], with [count] iterations left. *)
Fixpoint MutationSwap_loop (fuel count : nat) (value : list A) (rng : Rng)
    : Outcome (list A * Rng) :=
  match count with
  | O => Returns (value, rng)
  | S count =>
      '(index0, index1, rng) ← draw_two fuel (length value) rng;
      value ← of_option (swap_elems value index0 index1);
      MutationSwap_loop fuel count value rng
  end.

(** [MutationSwap::operator()]; [count] is an [int]. *)
Definition MutationSwap (fuel : nat) (count : Z) (value : list A) (rng : Rng)
    : Outcome (list A * Rng) :=
  MutationSwap_loop fuel (Z.to_nat count) value rng.

(** [MutationInvert::operator()]: [std::reverse] on the positions from
    the smaller index up to, and without, the larger one. *)
Definition MutationInvert (fuel : nat) (value : list A) (rng : Rng)
    : Outcome (list A * Rng) :=
  '(index0, index1, rng) ← draw_two fuel (length value) rng;
  let first := index0 `min` index1 in
  let last := index0 `max` index1 in
  if decide (last ≤ length value) then
    Returns (take first value
             ++ reverse (take (last - first) (drop first value))
             ++ drop last value, rng)
  else Undefined.

(** [value[i] = x] on a vector. *)
Definition assign (value : list A) (i : nat) (x : A) : option (list A) :=
  if decide (i < length value) then Some (<[i := x]> value) else None.

(** The [k]-th iteration of the loop of [MutationMove::operator()], which
    runs [i] from [max_index] down to [min_index + 1]. *)
Definition MutationMove_body (max_index : nat) (k : nat) (value : list A)
    : option (list A) :=
  let i := max_index - k in
  x ← value !! (i - 1);
  assign value i x.

(** [MutationMove::operator()]. *)
Definition MutationMove (fuel : nat) (value : list A) (rng : Rng)
    : Outcome (list A * Rng) :=
  '(index0, index1, rng) ← draw_two fuel (length value) rng;
  let min_index := index0 `min` index1 in
  let max_index := index0 `max` index1 in
  tmp ← of_option (value !! max_index);
  value ← of_option (for_range (max_index - min_index) 0
                       (MutationMove_body max_index) value);
  value ← of_option (assign value min_index tmp);
  Returns (value, rng).
End MutationPermutation.

(** ** ga.h: the run loop *)

(** [Ga::Run]: [while (!operator()(pop, rng)) {}]. *)
Fixpoint Ga_Run `{RandomSource Rng} {T St : Type} (fuel : nat)
    (ga : Ga.t T Rng St) (pop : Population T) (rng : Rng)
    : Outcome (Ga.t T Rng St * Population T * Rng) :=
  match fuel with
  | O => OutOfFuel
  | S fuel =>
      match Ga.step ga pop rng with
      | None => Undefined
      | Some (true, ga, pop, rng) => Returns (ga, pop, rng)
      | Some (false, ga, pop, rng) => Ga_Run fuel ga pop rng
      end
  end.

(** ** eda.h *)

Module Eda.
(** [struct Eda]: the population size and the three functors; [D] is the
    type of the distribution that [update] rewrites. *)
Record t (T D Rng St : Type) := mk {
  pop_size : nat;
  evaluation : T → Rng → Q * Rng;
  update : D → Population T → Rng → option (D * Population T * Rng);
  termination : Termination St T Rng;
  termination_state : St
}.
Arguments mk {T D Rng St}.
Arguments pop_size {T D Rng St}.
Arguments evaluation {T D Rng St}.
Arguments update {T D Rng St}.
Arguments termination {T D Rng St}.
Arguments termination_state {T D Rng St}.

Section Step.
Context {T D Rng St : Type} `{Inhabited T}.

Definition with_termination_state (eda : t T D Rng St) (st : St)
    : t T D Rng St :=
  mk (pop_size eda) (evaluation eda) (update eda) (termination eda) st.

(** One iteration of [for (auto& it : pop) dist(it.data, rng)]; [sample]
    is the call operator of the distribution. *)
Definition sample_body (sample : D → T → Rng → option (T * Rng)) (dist : D)
    (i : nat) (s : Population T * Rng) : option (Population T * Rng) :=
  let '(pop, rng) := s in
  it ← pop !! i;
  '(d, rng) ← sample dist (data it) rng;
  Some (<[i := mkIndividual d (fitness it)]> pop, rng).

(** [Eda::operator()]: one generation.  The scratch population is
    emptied and resized first, so it is local to the step. *)
Definition step (eda : t T D Rng St)
    (sample : D → T → Rng → option (T * Rng)) (dist : D) (rng : Rng)
    : option (bool * t T D Rng St * D * Rng) :=
  let pop := resize [] (pop_size eda) in
  '(pop, rng) ← for_range (length pop) 0 (sample_body sample dist) (pop, rng);
  '(pop, rng) ← Evaluate (evaluation eda) pop rng;
  '(dist, pop, rng) ← update eda dist pop rng;
  '(b, st, pop, rng) ← termination eda (termination_state eda) pop rng;
  Some (b, with_termination_state eda st, dist, rng).
End Step.
End Eda.

(** ** island_model.h: the model *)

Module IslandModel.
(** [struct IslandModel]; [migration_rate] is an [int]. *)
Record t (T Rng St : Type) := mk {
  migration_rate : Z;
  migration : list (Island.t T (Ga.t T Rng St)) → Rng
              → option (list (Island.t T (Ga.t T Rng St)) * Rng)
}.
Arguments mk {T Rng St}.
Arguments migration_rate {T Rng St}.
Arguments migration {T Rng St}.

Section Step.
Context `{RandomSource Rng} {T St : Type}.

(** [Island::operator()]: a step of the island's algorithm on the
    island's population. *)
Definition Island_call (isl : Island.t T (Ga.t T Rng St)) (rng : Rng)
    : option (bool * Island.t T (Ga.t T Rng St) * Rng) :=
  '(b, ga, pop, rng) ← Ga.step (Island.ga isl) (Island.pop isl) rng;
  Some (b, Island.mk pop ga, rng).

(** One iteration of [for (auto& it : islands)]. *)
Definition round_body (i : nat)
    (s : bool * list (Island.t T (Ga.t T Rng St)) * Rng)
    : option (bool * list (Island.t T (Ga.t T Rng St)) * Rng) :=
  let '(result, islands, rng) := s in
  it ← islands !! i;
  '(b, it, rng) ← Island_call it rng;
  Some (if (b : bool) then true else result, <[i := it]> islands, rng).

(** One generation of every island. *)
Definition round (islands : list (Island.t T (Ga.t T Rng St))) (rng : Rng)
    : option (bool * list (Island.t T (Ga.t T Rng St)) * Rng) :=
  for_range (length islands) 0 round_body (false, islands, rng).

(** The loop over the generations between two migrations, with [n]
    generations left, and the migration after it. *)
Fixpoint rounds (self : t T Rng St) (n : nat)
    (islands : list (Island.t T (Ga.t T Rng St))) (rng : Rng)
    : option (bool * list (Island.t T (Ga.t T Rng St)) * Rng) :=
  match n with
  | O =>
      '(islands, rng) ← migration self islands rng;
      Some (false, islands, rng)
  | S n =>
      '(result, islands, rng) ← round islands rng;
      if (result : bool) then Some (true, islands, rng)
      else rounds self n islands rng
  end.

(** [IslandModel::operator()]. *)
Definition step (self : t T Rng St)
    (islands : list (Island.t T (Ga.t T Rng St))) (rng : Rng)
    : option (bool * list (Island.t T (Ga.t T Rng St)) * Rng) :=
  _ ← assert (0 <? migration_rate self)%Z;
  rounds self (Z.to_nat (migration_rate self)) islands rng.
End Step.
End IslandModel.

(** ** Vocabulary of the further properties *)

(** The relation that [MutationUniform] with the bounds 0 and 10
    establishes: a value within the bounds stays within them. *)
Definition stays_within (x x' : Q) : Prop :=
  (0 <= x)%Q ∧ (x <= 10)%Q → (0 <= x')%Q ∧ (x' <= 10)%Q.

(** A child after the crossover and mutation of one pair. *)
Definition touched {T : Type} (it it' : Individual T) : Prop :=
  it' = it ∨ is_dirty it' = true.

(** The number of individuals of the island at position [t]. *)
Definition island_size {T GaT : Type} (islands : list (Island.t T GaT))
    (t : nat) : nat :=
  from_option (λ isl, length (Island.pop isl)) 0 (islands !! t).

(** * Properties *)

(** ** The concrete engine is a pseudorandom source *)

#[export] Program Instance tape_source : RandomSource Tape := {|
  uniform_int := tape_uniform_int;
  bernoulli := tape_bernoulli;
  canonical := tape_canonical;
  shuffle := @tape_shuffle
|}.
Next Obligation.
  intros a b g Hab. unfold tape_uniform_int.
  destruct (tape_next g) as [r g']. simpl.
  pose proof (N.mod_upper_bound r (b - a + 1) ltac:(lia)) as Hr.
  revert Hr. generalize (r `mod` (b - a + 1))%N. lia.
Qed.
Next Obligation.
  intros g. unfold tape_canonical. destruct (tape_next g) as [r g']. simpl.
  pose proof (N.mod_upper_bound r 1000 ltac:(lia)) as Hr.
  revert Hr. generalize (r `mod` 1000)%N. intros m Hm.
  unfold Qle, Qlt. simpl. lia.
Qed.
Next Obligation.
  intros A l g. unfold tape_shuffle. destruct (tape_next g) as [r g']. simpl.
  rewrite Permutation_app_comm. by rewrite take_drop.
Qed.

(** ** Counted loops *)

(** The invariant rule for [for_range]. *)
Lemma for_range_inv {St : Type} (P : nat → St → Prop) body k i (s : St) :
  P i s →
  (∀ j s, i ≤ j < i + k → P j s →
     ∃ s', body j s = Some s' ∧ P (S j) s') →
  ∃ s', for_range k i body s = Some s' ∧ P (i + k) s'.
Proof.
  revert i s. induction k as [|k IH]; intros i s Hs Hbody; simpl.
  - exists s. by rewrite Nat.add_0_r.
  - destruct (Hbody i s) as (s1 & -> & Hs1); [lia | done |]. simpl.
    destruct (IH (S i) s1) as (s2 & Hrun & Hs2); [done | |].
    + intros j s' Hj. apply Hbody. lia.
    + exists s2. split; [done |]. by replace (i + S k) with (S i + k) by lia.
Qed.

(** ** N-point and uniform crossover *)

Section CrossoverFacts.
Context `{RandomSource Rng} {A : Type}.
Implicit Types value a b : list A.

Lemma pair_preserved_refl i value0 value1 :
  pair_preserved i value0 value1 value0 value1.
Proof. by left. Qed.

(** Keeping or exchanging the aligned elements once more keeps the pair. *)
Lemma pair_preserved_step i value0 value1 a0 a1 b0 b1 :
  pair_preserved i value0 value1 a0 a1 →
  pair_preserved i a0 a1 b0 b1 →
  pair_preserved i value0 value1 b0 b1.
Proof.
  unfold pair_preserved.
  intros [[E0 E1]|[E0 E1]] [[F0 F1]|[F0 F1]]; rewrite F0, F1, E0, E1; auto.
Qed.

Lemma swap_ranges_spec index value0 value1 :
  index ≤ length value0 → index ≤ length value1 →
  swap_ranges index value0 value1 =
    Some (take index value1 ++ drop index value0,
          take index value0 ++ drop index value1).
Proof.
  revert value0 value1.
  induction index as [|n IH]; intros [|x xs] [|y ys]; simpl;
    try lia; try done.
  intros Hx Hy. rewrite IH by lia. done.
Qed.

Lemma swap_ranges_pair index value0 value1 i :
  length value0 = length value1 →
  pair_preserved i value0 value1
    (take index value1 ++ drop index value0)
    (take index value0 ++ drop index value1).
Proof.
  intros Hlen. destruct (decide (index ≤ length value0)) as [Hle|Hgt].
  - destruct (decide (i < index)) as [Hi|Hi].
    + right. rewrite !lookup_app_l by (rewrite length_take; lia).
      by rewrite !lookup_take_lt.
    + left. rewrite !lookup_app_r by (rewrite length_take; lia).
      rewrite !length_take, !lookup_drop.
      split; f_equal; lia.
  - rewrite !take_ge, !drop_ge by lia. rewrite !app_nil_r. by right.
Qed.

Lemma size_t_sub_pred (n : N) : (0 < n)%N → (size_t_sub n 1 < n)%N.
Proof.
  intros Hn. unfold size_t_sub.
  replace (n + 2 ^ 64 - 1)%N with (n - 1 + 1 * 2 ^ 64)%N by lia.
  rewrite N.Div0.mod_add.
  pose proof (N.Div0.mod_le (n - 1) (2 ^ 64)). lia.
Qed.

Lemma CrossoverPoint_preserves point_count value0 value1 (rng : Rng) :
  length value0 = length value1 → 0 < length value0 →
  ∃ value0' value1' rng',
    CrossoverPoint point_count value0 value1 rng
      = Some (value0', value1', rng') ∧
    length value0' = length value0 ∧ length value1' = length value1 ∧
    ∀ i, pair_preserved i value0 value1 value0' value1'.
Proof.
  intros Hlen Hpos. unfold CrossoverPoint.
  rewrite <- Hlen, Nat.max_id.
  set (n := length value0) in *.
  destruct (for_range_inv
    (λ _ s, length s.1.1 = n ∧ length s.1.2 = n ∧
            ∀ i, pair_preserved i value0 value1 s.1.1 s.1.2)
    (CrossoverPoint_body (N.of_nat n)) (Z.to_nat point_count) 0
    (value0, value1, rng)) as ([[v0 v1] g] & Hrun & Hl0 & Hl1 & Hp).
  - simpl. repeat split; auto using pair_preserved_refl.
  - intros j [[a0 a1] g] _ (Hl0 & Hl1 & Hp). simpl in *.
    unfold CrossoverPoint_body.
    pose proof (uniform_int_range 0 (size_t_sub (N.of_nat n) 1) g
                  ltac:(lia)) as [_ Hidx].
    destruct (uniform_int 0 (size_t_sub (N.of_nat n) 1) g) as [index g'].
    simpl in Hidx.
    pose proof (size_t_sub_pred (N.of_nat n) ltac:(lia)).
    rewrite swap_ranges_spec by lia. simpl.
    eexists. split; [done |]. simpl.
    rewrite !length_app, !length_take, !length_drop.
    repeat split; try lia.
    intros i. eapply pair_preserved_step; [apply Hp |].
    apply swap_ranges_pair. lia.
  - simpl in *. exists v0, v1, g. repeat split; done || congruence.
Qed.

Lemma swap_at_pair i j value0 value1 x y :
  value0 !! i = Some x → value1 !! i = Some y →
  pair_preserved j value0 value1 (<[i := y]> value0) (<[i := x]> value1).
Proof.
  intros Hx Hy. destruct (decide (i = j)) as [<-|Hne].
  - right. rewrite !list_lookup_insert_eq by eauto using lookup_lt_Some.
    done.
  - left. by rewrite !list_lookup_insert_ne.
Qed.

Lemma CrossoverUniform_preserves value0 value1 (rng : Rng) :
  length value0 = length value1 →
  ∃ value0' value1' rng',
    CrossoverUniform value0 value1 rng = Some (value0', value1', rng') ∧
    length value0' = length value0 ∧ length value1' = length value1 ∧
    ∀ i, pair_preserved i value0 value1 value0' value1'.
Proof.
  intros Hlen. unfold CrossoverUniform.
  rewrite <- Hlen, Nat.min_id.
  set (n := length value0) in *.
  destruct (for_range_inv
    (λ _ s, length s.1.1 = n ∧ length s.1.2 = n ∧
            ∀ i, pair_preserved i value0 value1 s.1.1 s.1.2)
    CrossoverUniform_body n 0
    (value0, value1, rng)) as ([[v0 v1] g] & Hrun & Hl0 & Hl1 & Hp).
  - simpl. repeat split; auto using pair_preserved_refl.
  - intros j [[a0 a1] g] Hj (Hl0 & Hl1 & Hp). simpl in *.
    unfold CrossoverUniform_body.
    destruct (bernoulli (1 # 2) g) as [[] g']; [| eauto].
    unfold swap_at.
    destruct (lookup_lt_is_Some_2 a0 j ltac:(lia)) as [x Hx].
    destruct (lookup_lt_is_Some_2 a1 j ltac:(lia)) as [y Hy].
    rewrite Hx, Hy. simpl. eexists. split; [done |]. simpl.
    rewrite !length_insert. repeat split; try done.
    intros i. eapply pair_preserved_step; [apply Hp |].
    by apply swap_at_pair.
  - simpl in *. exists v0, v1, g. repeat split; done || congruence.
Qed.
End CrossoverFacts.

(** ** Partially-matched crossover *)

Section PmxFacts.
Context `{RandomSource Rng}.
Implicit Types v p : list nat.

Lemma store_Some v i x :
  i < length v → store v i x = Some (<[i := x]> v).
Proof. intros Hi. unfold store. by rewrite decide_True. Qed.

Lemma assert_lt x n : x < n → assert (x <? n) = Some ().
Proof. intros Hx. unfold assert. by rewrite (proj2 (Nat.ltb_lt _ _) Hx). Qed.

(** A vector with an inverse-position map is a permutation of [0..n-1]. *)
Lemma inverse_of_perm n v p : inverse_of n v p → v ≡ₚ seq 0 n.
Proof.
  intros (Hv & Hp & Hfw & Hbw). apply NoDup_Permutation.
  - apply NoDup_alt. intros i j x Hi Hj.
    apply Hfw in Hi, Hj. congruence.
  - apply NoDup_seq.
  - intros x. rewrite elem_of_seq, list_elem_of_lookup. split.
    + intros [i Hi%Hfw]. apply lookup_lt_Some in Hi. lia.
    + intros [_ Hx].
      destruct (lookup_lt_is_Some_2 p x ltac:(lia)) as [j Hj]. eauto.
Qed.

Lemma perm_seq_lookup_lt n v i x :
  v ≡ₚ seq 0 n → v !! i = Some x → x < n.
Proof.
  intros Hperm Hx. apply list_elem_of_lookup_2 in Hx.
  rewrite Hperm, elem_of_seq in Hx. lia.
Qed.

Lemma perm_seq_facts n v :
  v ≡ₚ seq 0 n → NoDup v ∧ ∀ x, x < n → x ∈ v.
Proof.
  intros Hv. split.
  - rewrite Hv. apply NoDup_seq.
  - intros x Hx. rewrite Hv, elem_of_seq. lia.
Qed.

(** The first loop computes the inverse-position maps. *)
Lemma Pmx_inverse_spec n value0 value1 :
  value0 ≡ₚ seq 0 n → value1 ≡ₚ seq 0 n →
  ∃ p0 p1,
    for_range n 0 (Pmx_inverse_body n value0 value1)
      (replicate n 0, replicate n 0) = Some (p0, p1) ∧
    inverse_of n value0 p0 ∧ inverse_of n value1 p1.
Proof.
  intros Hperm0 Hperm1.
  assert (length value0 = n) as Hl0
    by (by rewrite Hperm0, length_seq).
  assert (length value1 = n) as Hl1
    by (by rewrite Hperm1, length_seq).
  assert (NoDup value0) as Hnd0 by (rewrite Hperm0; apply NoDup_seq).
  assert (NoDup value1) as Hnd1 by (rewrite Hperm1; apply NoDup_seq).
  set (fw k v p := ∀ i x, i < k → v !! i = Some x → p !! x = Some i).
  destruct (for_range_inv
    (λ k s, length s.1 = n ∧ length s.2 = n ∧
            fw k value0 s.1 ∧ fw k value1 s.2)
    (Pmx_inverse_body n value0 value1) n 0
    (replicate n 0, replicate n 0))
    as ([p0 p1] & Hrun & Hp0 & Hp1 & Hfw0 & Hfw1).
  - simpl. rewrite !length_replicate. unfold fw. repeat split; intros; lia.
  - intros k [p0 p1] Hk (Hp0 & Hp1 & Hfw0 & Hfw1). simpl in *.
    destruct (lookup_lt_is_Some_2 value0 k ltac:(lia)) as [x0 Hx0].
    destruct (lookup_lt_is_Some_2 value1 k ltac:(lia)) as [x1 Hx1].
    pose proof (perm_seq_lookup_lt _ _ _ _ Hperm0 Hx0) as Hlt0.
    pose proof (perm_seq_lookup_lt _ _ _ _ Hperm1 Hx1) as Hlt1.
    unfold Pmx_inverse_body. rewrite Hx0, Hx1. simpl.
    rewrite !assert_lt by done. simpl.
    rewrite !store_Some by lia. simpl.
    eexists. split; [done |]. simpl. rewrite !length_insert.
    repeat split; try done; intros i x Hi Hx.
    + destruct (decide (i = k)) as [->|Hne].
      * assert (x = x0) as -> by congruence.
        apply list_lookup_insert_eq. lia.
      * rewrite list_lookup_insert_ne.
        { apply Hfw0; [lia | done]. }
        intros <-. apply Hne. by apply (NoDup_lookup value0 _ _ x0).
    + destruct (decide (i = k)) as [->|Hne].
      * assert (x = x1) as -> by congruence.
        apply list_lookup_insert_eq. lia.
      * rewrite list_lookup_insert_ne.
        { apply Hfw1; [lia | done]. }
        intros <-. apply Hne. by apply (NoDup_lookup value1 _ _ x1).
  - simpl in *. exists p0, p1. split; [done |].
    assert (∀ v p, v ≡ₚ seq 0 n → length v = n → length p = n →
                   fw n v p → inverse_of n v p) as Hinv.
    { intros v p Hperm Hv Hp Hfw. repeat split; try done.
      - intros i x Hx. apply Hfw; [| done].
        apply lookup_lt_Some in Hx. lia.
      - intros x j Hj.
        assert (x ∈ v) as [i Hi]%list_elem_of_lookup.
        { rewrite Hperm, elem_of_seq. apply lookup_lt_Some in Hj. lia. }
        assert (p !! x = Some i) as Hpi.
        { apply Hfw; [| done]. apply lookup_lt_Some in Hi. lia. }
        congruence. }
    split; apply Hinv; done.
Qed.

(** Exchanging the values [a] (at position [i]) and [b] (at position
    [j]) of a vector, and their entries in the inverse map, keeps the map
    the inverse of the vector. *)
Lemma exchange_inverse n v p v' p' i j a b :
  inverse_of n v p →
  v !! i = Some a → p !! b = Some j →
  length v' = n → length p' = n →
  (∀ k, v' !! k = if decide (k = j) then Some a
                  else if decide (k = i) then Some b else v !! k) →
  (∀ x, p' !! x = if decide (x = a) then Some j
                  else if decide (x = b) then Some i else p !! x) →
  inverse_of n v' p'.
Proof.
  intros (Hv & Hp & Hfw & Hbw) Hi Hj Hv' Hp' Hlv Hlp.
  pose proof (Hfw _ _ Hi) as Hpa. pose proof (Hbw _ _ Hj) as Hvj.
  repeat split; try done.
  - intros k x. rewrite Hlv, Hlp. intros Hk.
    repeat case_decide; simplify_eq; try done.
    + apply Hfw in Hk. congruence.
    + apply Hfw in Hk. congruence.
    + by apply Hfw.
  - intros x k. rewrite Hlv, Hlp. intros Hk.
    repeat case_decide; simplify_eq; try done.
    + apply Hbw in Hk. congruence.
    + apply Hbw in Hk. congruence.
    + by apply Hbw.
Qed.

Lemma swap_entries_spec p a b x y :
  p !! a = Some x → p !! b = Some y →
  ∃ p', swap_entries p a b = Some p' ∧ length p' = length p ∧
    ∀ k, p' !! k = if decide (k = b) then Some x
                   else if decide (k = a) then Some y else p !! k.
Proof.
  intros Ha Hb. unfold swap_entries. rewrite Ha, Hb. simpl.
  pose proof (lookup_lt_Some _ _ _ Ha). pose proof (lookup_lt_Some _ _ _ Hb).
  rewrite store_Some by done. simpl.
  rewrite store_Some by (by rewrite length_insert).
  eexists. split; [done |]. rewrite !length_insert. split; [done |].
  intros k. rewrite !list_lookup_insert, !length_insert.
  repeat case_decide; simplify_eq; try done; lia.
Qed.

(** One iteration of the exchange loop keeps both inverse maps. *)
Lemma Pmx_exchange_body_spec n i value0 value1 p0 p1 :
  i < n → inverse_of n value0 p0 → inverse_of n value1 p1 →
  ∃ value0' value1' p0' p1',
    Pmx_exchange_body i (value0, value1, p0, p1)
      = Some (value0', value1', p0', p1') ∧
    inverse_of n value0' p0' ∧ inverse_of n value1' p1'.
Proof.
  intros Hi Hinv0 Hinv1.
  pose proof Hinv0 as (Hv0 & Hp0 & Hfw0 & Hbw0).
  pose proof Hinv1 as (Hv1 & Hp1 & Hfw1 & Hbw1).
  destruct (lookup_lt_is_Some_2 value0 i ltac:(lia)) as [tmp0 Htmp0].
  destruct (lookup_lt_is_Some_2 value1 i ltac:(lia)) as [tmp1 Htmp1].
  pose proof (lookup_lt_Some _ _ _ (Hfw0 _ _ Htmp0)) as Hlt0.
  pose proof (lookup_lt_Some _ _ _ (Hfw1 _ _ Htmp1)) as Hlt1.
  destruct (lookup_lt_is_Some_2 p0 tmp1 ltac:(lia)) as [j0 Hj0].
  destruct (lookup_lt_is_Some_2 p1 tmp0 ltac:(lia)) as [j1 Hj1].
  pose proof (lookup_lt_Some _ _ _ (Hbw0 _ _ Hj0)) as Hltj0.
  pose proof (lookup_lt_Some _ _ _ (Hbw1 _ _ Hj1)) as Hltj1.
  destruct (swap_entries_spec p0 tmp0 tmp1 i j0) as (p0' & Hs0 & Hl0 & Hk0);
    [by apply Hfw0 | done |].
  destruct (swap_entries_spec p1 tmp0 tmp1 j1 i) as (p1' & Hs1 & Hl1 & Hk1);
    [done | by apply Hfw1 |].
  unfold Pmx_exchange_body. rewrite Htmp0, Htmp1. simpl.
  rewrite !store_Some by lia. simpl. rewrite Hj0. simpl.
  rewrite store_Some by (rewrite length_insert; lia). simpl.
  rewrite Hj1. simpl.
  rewrite store_Some by (rewrite length_insert; lia). simpl.
  rewrite Hs0. simpl. rewrite Hs1. simpl.
  eexists _, _, _, _. split; [done |]. split.
  - eapply (exchange_inverse n value0 p0 _ _ i j0 tmp0 tmp1); try done;
      first
      [ rewrite !length_insert; lia
      | lia
      | intros k; rewrite !list_lookup_insert, !length_insert;
        repeat case_decide; simplify_eq; try done; lia
      | intros x; rewrite Hk0; repeat case_decide; simplify_eq; try done;
        apply Hfw0 in Htmp0; congruence ].
  - eapply (exchange_inverse n value1 p1 _ _ i j1 tmp1 tmp0); try done;
      first
      [ rewrite !length_insert; lia
      | lia
      | intros k; rewrite !list_lookup_insert, !length_insert;
        repeat case_decide; simplify_eq; try done; lia
      | intros x; rewrite Hk1; repeat case_decide; simplify_eq; done ].
Qed.

Lemma Pmx_exchange_spec n lo k value0 value1 p0 p1 :
  lo + k ≤ n → inverse_of n value0 p0 → inverse_of n value1 p1 →
  ∃ value0' value1' p0' p1',
    for_range k lo Pmx_exchange_body (value0, value1, p0, p1)
      = Some (value0', value1', p0', p1') ∧
    inverse_of n value0' p0' ∧ inverse_of n value1' p1'.
Proof.
  intros Hle Hinv0 Hinv1.
  destruct (for_range_inv
    (λ _ s, inverse_of n s.1.1.1 s.1.2 ∧ inverse_of n s.1.1.2 s.2)
    Pmx_exchange_body k lo (value0, value1, p0, p1))
    as ([[[v0 v1] q0] q1] & Hrun & Hq0 & Hq1).
  - done.
  - intros i [[[v0 v1] q0] q1] Hi [Hq0 Hq1].
    destruct (Pmx_exchange_body_spec n i v0 v1 q0 q1)
      as (v0' & v1' & q0' & q1' & Hbody & ? & ?); [lia | done | done |].
    eexists. split; [exact Hbody | done].
  - by exists v0, v1, q0, q1.
Qed.
End PmxFacts.

(** C1. Partially-matched crossover keeps permutations: for two parents
    of equal length that are each a permutation of [0..size-1], and for
    every state of every pseudorandom source, [CrossoverPmx] returns, and
    each offspring is a permutation of the parent it replaces, hence of
    the same value set [0..size-1], without duplicates. *)
Theorem CrossoverPmx_permutation `{RandomSource Rng}
    (value0 value1 : list nat) (rng : Rng) :
  length value0 = length value1 →
  value0 ≡ₚ seq 0 (length value0) →
  value1 ≡ₚ seq 0 (length value1) →
  ∃ value0' value1' rng',
    CrossoverPmx value0 value1 rng = Some (value0', value1', rng') ∧
    value0' ≡ₚ value0 ∧ value1' ≡ₚ value1 ∧
    NoDup value0' ∧ NoDup value1' ∧
    (∀ x, x < length value0 → x ∈ value0' ∧ x ∈ value1').
Proof.
  intros Hlen Hperm0 Hperm1. rewrite <- Hlen in Hperm1.
  set (n := length value0) in *.
  assert (∀ rng' : Rng, ∃ value0' value1' rng'',
    Some (value0, value1, rng') = Some (value0', value1', rng'') ∧
    value0' ≡ₚ value0 ∧ value1' ≡ₚ value1 ∧
    NoDup value0' ∧ NoDup value1' ∧
    (∀ x, x < n → x ∈ value0' ∧ x ∈ value1')) as Hsame.
  { intros rng'. exists value0, value1, rng'.
    destruct (perm_seq_facts _ _ Hperm0), (perm_seq_facts _ _ Hperm1).
    naive_solver. }
  unfold CrossoverPmx. rewrite <- Hlen. fold n. rewrite Nat.min_id.
  pose proof (uniform_int_range 0 (N.of_nat n) rng ltac:(lia)) as [_ Hi0].
  destruct (uniform_int 0 (N.of_nat n) rng) as [index0 rng1].
  pose proof (uniform_int_range 0 (N.of_nat n) rng1 ltac:(lia)) as [_ Hi1].
  destruct (uniform_int 0 (N.of_nat n) rng1) as [index1 rng2].
  simpl in Hi0, Hi1.
  assert (∀ lo hi, (lo ≤ hi)%N → (hi ≤ N.of_nat n)%N →
    ∃ value0' value1' rng'',
      (if (lo =? hi)%N then Some (value0, value1, rng2)
       else
         '(p0, p1) ← for_range n 0 (Pmx_inverse_body n value0 value1)
                        (replicate n 0, replicate n 0);
         '(value0, value1, _, _) ←
           for_range (N.to_nat hi - N.to_nat lo) (N.to_nat lo)
             Pmx_exchange_body (value0, value1, p0, p1);
         Some (value0, value1, rng2)) = Some (value0', value1', rng'') ∧
      value0' ≡ₚ value0 ∧ value1' ≡ₚ value1 ∧
      NoDup value0' ∧ NoDup value1' ∧
      (∀ x, x < n → x ∈ value0' ∧ x ∈ value1')) as Hmain.
  { intros lo hi Hle Hhi. destruct (lo =? hi)%N; [apply Hsame |].
    destruct (Pmx_inverse_spec n value0 value1 Hperm0 Hperm1)
      as (p0 & p1 & -> & Hinv0 & Hinv1). simpl.
    destruct (Pmx_exchange_spec n (N.to_nat lo)
                (N.to_nat hi - N.to_nat lo) value0 value1 p0 p1)
      as (v0 & v1 & q0 & q1 & -> & Hq0%inverse_of_perm & Hq1%inverse_of_perm);
      [lia | done | done |]. simpl.
    exists v0, v1, rng2.
    destruct (perm_seq_facts _ _ Hq0), (perm_seq_facts _ _ Hq1).
    rewrite Hperm0 at 1. rewrite Hperm1 at 1. naive_solver. }
  destruct (index1 <? index0)%N eqn:Hcmp.
  - apply N.ltb_lt in Hcmp. apply Hmain; lia.
  - apply N.ltb_ge in Hcmp. apply Hmain; lia.
Qed.

Lemma CrossoverPmx_permutation_witness :
  ∃ value0' value1' rng',
    CrossoverPmx [2; 0; 1; 3] [3; 1; 0; 2] ([1; 2]%N : Tape)
      = Some (value0', value1', rng') ∧
    value0' ≡ₚ [2; 0; 1; 3] ∧ value1' ≡ₚ [3; 1; 0; 2] ∧
    NoDup value0' ∧ NoDup value1' ∧
    (∀ x, x < 4 → x ∈ value0' ∧ x ∈ value1').
Proof.
  apply (CrossoverPmx_permutation [2; 0; 1; 3] [3; 1; 0; 2] ([1; 2]%N : Tape)).
  - reflexivity.
  - vm_compute length. vm_compute seq. apply (bool_decide_unpack _).
    vm_compute. exact I.
  - vm_compute length. vm_compute seq. apply (bool_decide_unpack _).
    vm_compute. exact I.
Defined.

(** The exchange of the cut interval [1..2) on a concrete pair. *)
Example CrossoverPmx_example :
  CrossoverPmx [2; 0; 1; 3] [3; 1; 0; 2] ([1; 2]%N : Tape)
    = Some ([2; 1; 0; 3], [3; 0; 1; 2], []).
Proof. vm_compute. reflexivity. Qed.

(** C10. N-point and uniform crossover keep, at every position, the
    unordered pair of the two parents' values: for parents of equal length
    and every state of every pseudorandom source, both operators return,
    and at every position [i] of the parents the two offspring hold
    either the parents' values at [i] or these two values exchanged. *)
Theorem crossover_preserves_aligned_pairs `{RandomSource Rng} {A : Type}
    (point_count : Z) (value0 value1 : list A) (rng : Rng) (i : nat) :
  length value0 = length value1 → i < length value0 →
  (∃ value0' value1' rng',
     CrossoverPoint point_count value0 value1 rng
       = Some (value0', value1', rng') ∧
     pair_preserved i value0 value1 value0' value1') ∧
  (∃ value0' value1' rng',
     CrossoverUniform value0 value1 rng = Some (value0', value1', rng') ∧
     pair_preserved i value0 value1 value0' value1').
Proof.
  intros Hlen Hi. split.
  - destruct (CrossoverPoint_preserves point_count value0 value1 rng)
      as (v0 & v1 & g & Hrun & _ & _ & Hp); [done | lia |].
    exists v0, v1, g. auto.
  - destruct (CrossoverUniform_preserves value0 value1 rng)
      as (v0 & v1 & g & Hrun & _ & _ & Hp); [done |].
    exists v0, v1, g. auto.
Qed.

Lemma crossover_preserves_aligned_pairs_witness :
  (∃ value0' value1' rng',
     CrossoverPoint 2 [10; 11; 12] [20; 21; 22] ([2; 1]%N : Tape)
       = Some (value0', value1', rng') ∧
     pair_preserved 1 [10; 11; 12] [20; 21; 22] value0' value1') ∧
  (∃ value0' value1' rng',
     CrossoverUniform [10; 11; 12] [20; 21; 22] ([2; 1]%N : Tape)
       = Some (value0', value1', rng') ∧
     pair_preserved 1 [10; 11; 12] [20; 21; 22] value0' value1').
Proof.
  apply (crossover_preserves_aligned_pairs 2 [10; 11; 12] [20; 21; 22]
           ([2; 1]%N : Tape) 1).
  - reflexivity.
  - simpl. lia.
Defined.

(** Two cuts at 2 and at 1 exchange position 0 twice and position 1
    once. *)
Example CrossoverPoint_example :
  CrossoverPoint 2 [10; 11; 12] [20; 21; 22] ([2; 1]%N : Tape)
    = Some ([10; 21; 12], [20; 11; 22], []).
Proof. vm_compute. reflexivity. Qed.

(** ** Selection sizes *)

Lemma Qle_bool_true x y : (x <= y)%Q → Qle_bool x y = true.
Proof. apply Qle_bool_iff. Qed.

Lemma Qlt_bool_true x y : (x < y)%Q → Qlt_bool x y = true.
Proof.
  intros Hlt. unfold Qlt_bool. destruct (Qle_bool y x) eqn:Hle; [| done].
  apply Qle_bool_iff in Hle. by apply Qlt_not_le in Hlt.
Qed.

Lemma Qlt_bool_false x y : (y <= x)%Q → Qlt_bool x y = false.
Proof. intros Hle. unfold Qlt_bool. by rewrite Qle_bool_true. Qed.

Lemma Qlt_bool_iff x y : Qlt_bool x y = true ↔ (x < y)%Q.
Proof.
  split; [| apply Qlt_bool_true].
  unfold Qlt_bool. destruct (Qle_bool y x) eqn:Hle; [done |]. intros _.
  apply Qnot_le_lt. intros Hyx. apply Qle_bool_iff in Hyx. congruence.
Qed.

(** Rounding a fraction of [size] up never exceeds [size]. *)
Lemma ceil_percentage_le (p : Q) (size : nat) :
  (0 <= p)%Q → (p <= 1)%Q →
  ceil_size_t (p * inject_Z (Z.of_nat size)) ≤ size.
Proof.
  intros H0 H1. unfold ceil_size_t.
  assert (p * inject_Z (Z.of_nat size) <= inject_Z (Z.of_nat size))%Q as Hle.
  { rewrite <- (Qmult_1_l (inject_Z (Z.of_nat size))) at 2.
    apply Qmult_le_compat_r; [done |].
    change 0%Q with (inject_Z 0). rewrite <- Zle_Qle. lia. }
  apply Qceiling_resp_le in Hle. rewrite Qceiling_Z in Hle. lia.
Qed.

(** [ceil_size_t] is the ceiling: the least count that covers [x]. *)
Lemma ceil_size_t_spec (x : Q) :
  (0 <= x)%Q →
  (x <= inject_Z (Z.of_nat (ceil_size_t x)))%Q ∧
  (inject_Z (Z.of_nat (ceil_size_t x)) - 1 < x)%Q.
Proof.
  intros Hx. unfold ceil_size_t.
  assert (0 ≤ Qceiling x)%Z as Hpos.
  { apply Qceiling_resp_le in Hx. exact Hx. }
  rewrite Z2Nat.id by done. split.
  - apply Qle_ceiling.
  - pose proof (Qceiling_lt x) as Hlt.
    unfold Z.sub in Hlt. rewrite inject_Z_plus in Hlt. exact Hlt.
Qed.

Lemma SelectionSize_call_le (s : SelectionSize) (size k : nat) :
  SelectionSize_call s size = Some k → k ≤ size.
Proof.
  unfold SelectionSize_call. destruct (0 <? count s)%N.
  - intros [= <-]. lia.
  - destruct (Qle_bool 0 (percentage s)) eqn:H0; [| done].
    destruct (Qle_bool (percentage s) 1) eqn:H1; [| done]. simpl.
    intros [= <-]. apply ceil_percentage_le; by apply Qle_bool_iff.
Qed.

Lemma SelectionSize_call_Some (s : SelectionSize) (size : nat) :
  SelectionSize_valid s →
  ∃ k, SelectionSize_call s size = Some k ∧ k ≤ size.
Proof.
  intros Hvalid.
  destruct (SelectionSize_call s size) as [k|] eqn:Hk.
  - exists k. eauto using SelectionSize_call_le.
  - unfold SelectionSize_call in Hk.
    destruct (0 <? count s)%N eqn:Hc; [done |].
    destruct Hvalid as [Hpos|[H0 H1]].
    + apply N.ltb_ge in Hc. lia.
    + by rewrite !Qle_bool_true in Hk.
Qed.

(** *** Rounding to the nearest double *)

Lemma round_half_even_cases (x : Q) :
  (round_half_even x = Qfloor x ∧ (x - inject_Z (Qfloor x) <= 1 # 2)%Q) ∨
  (round_half_even x = (Qfloor x + 1)%Z ∧
   (1 # 2 <= x - inject_Z (Qfloor x))%Q).
Proof.
  unfold round_half_even.
  destruct (Qcompare_spec (x - inject_Z (Qfloor x)) (1 # 2)) as [Heq|Hlt|Hgt].
  - destruct (Z.even (Qfloor x)); [left | right]; (split; [done | lra]).
  - left. split; [done | lra].
  - right. split; [done | lra].
Qed.

Lemma round_half_even_Z (k : Z) : round_half_even (inject_Z k) = k.
Proof.
  unfold round_half_even. rewrite Qfloor_Z.
  destruct (Qcompare_spec (inject_Z k - inject_Z k) (1 # 2)); [lra | done | lra].
Qed.

Lemma round_half_even_mono (x y : Q) :
  (x <= y)%Q → (round_half_even x ≤ round_half_even y)%Z.
Proof.
  intros Hxy. pose proof (Qfloor_resp_le x y Hxy) as Hfloor.
  destruct (Z.eq_dec (Qfloor x) (Qfloor y)) as [Heq|Hne].
  - unfold round_half_even. rewrite Heq.
    destruct (Qcompare_spec (x - inject_Z (Qfloor y)) (1 # 2));
      destruct (Qcompare_spec (y - inject_Z (Qfloor y)) (1 # 2));
      try lia; try lra; destruct (Z.even (Qfloor y)); lia || lra.
  - destruct (round_half_even_cases x) as [[-> _]|[-> _]];
      destruct (round_half_even_cases y) as [[-> _]|[-> _]]; lia.
Qed.

Lemma pow2_pos (e : Z) : (0 < 2 ^ e)%Q.
Proof. by apply Qpower_0_lt. Qed.

Lemma pow2_succ (e : Z) : (2 ^ (e + 1) == 2 * 2 ^ e)%Q.
Proof. rewrite Qpower_plus by done. change (2 ^ 1)%Q with 2%Q. ring. Qed.

Lemma pow2_pred (e : Z) : (2 * 2 ^ (e - 1) == 2 ^ e)%Q.
Proof.
  rewrite <- pow2_succ. by replace (e - 1 + 1)%Z with e by lia.
Qed.

Lemma pow2_inject (k : Z) : (0 ≤ k)%Z → (inject_Z (2 ^ k) == 2 ^ k)%Q.
Proof. intros Hk. by rewrite Zpower_Qpower. Qed.

Lemma pow2_le (n m : Z) : (n ≤ m)%Z → (2 ^ n <= 2 ^ m)%Q.
Proof. intros Hnm. by apply Qpower_le_compat_l. Qed.

Lemma pow2_lt_inv (n m : Z) : (2 ^ n < 2 ^ m)%Q → (n < m)%Z.
Proof. intros Hnm. by apply (Qpower_lt_compat_l_inv 2). Qed.

(** The bounds of an integer between two powers of 2, in [Q]. *)
Lemma log2_bounds (n : Z) :
  (0 < n)%Z →
  (2 ^ Z.log2 n <= inject_Z n)%Q ∧ (inject_Z n < 2 * 2 ^ Z.log2 n)%Q.
Proof.
  intros Hn. destruct (Z.log2_spec n Hn) as [Hlo Hhi].
  pose proof (Z.log2_nonneg n) as Hnonneg.
  rewrite <- pow2_succ, <- !pow2_inject by lia.
  rewrite <- Zle_Qle, <- Zlt_Qlt. split; [done |].
  by replace (Z.log2 n + 1)%Z with (Z.succ (Z.log2 n)) by lia.
Qed.

Lemma binade_spec (x : Q) :
  (0 < x)%Q → (2 ^ binade x <= x)%Q ∧ (x < 2 ^ (binade x + 1))%Q.
Proof.
  intros Hx. unfold binade.
  set (a := Z.log2 (Qnum x)). set (b := Z.log2 (Z.pos (Qden x))).
  assert (0 < Qnum x)%Z as Hnum.
  { destruct x as [n d]. unfold Qlt in Hx. simpl in *. lia. }
  destruct (log2_bounds (Qnum x) Hnum) as [HA1 HA2].
  destruct (log2_bounds (Z.pos (Qden x)) ltac:(done)) as [HB1 HB2].
  fold a in HA1, HA2. fold b in HB1, HB2.
  pose proof (pow2_pos a) as HA. pose proof (pow2_pos b) as HB.
  assert (x * inject_Z (Z.pos (Qden x)) == inject_Z (Qnum x))%Q as HX.
  { destruct x as [n d]. unfold Qeq. simpl. lia. }
  assert (2 ^ (a - b) * 2 ^ b == 2 ^ a)%Q as HE.
  { rewrite <- Qpower_plus by done. by replace (a - b + b)%Z with a by lia. }
  set (N := inject_Z (Qnum x)) in *. set (D := inject_Z (Z.pos (Qden x))) in *.
  set (A := (2 ^ a)%Q) in *. set (B := (2 ^ b)%Q) in *.
  set (E := (2 ^ (a - b))%Q) in *.
  assert (0 < D)%Q as HD by lra.
  assert (x < 2 * E)%Q as Hupper.
  { apply Qnot_le_lt. intros Hle.
    assert (2 * E * (B * D) <= x * (B * D))%Q as Hmul.
    { apply Qmult_le_compat_r; [done |]. nra. }
    assert (x * (B * D) == N * B)%Q as H1 by (rewrite <- HX; ring).
    assert (2 * E * (B * D) == 2 * A * D)%Q as H2 by (rewrite <- HE; ring).
    rewrite H1, H2 in Hmul. nra. }
  assert (E <= 2 * x)%Q as Hlower.
  { apply Qnot_lt_le. intros Hlt.
    assert (2 * x * (B * D) < E * (B * D))%Q as Hmul.
    { apply Qmult_lt_compat_r; [nra | done]. }
    assert (2 * x * (B * D) == 2 * N * B)%Q as H1 by (rewrite <- HX; ring).
    assert (E * (B * D) == A * D)%Q as H2 by (rewrite <- HE; ring).
    rewrite H1, H2 in Hmul. nra. }
  destruct (Qle_bool E x) eqn:Hcmp.
  - apply Qle_bool_iff in Hcmp. split; [done |].
    rewrite pow2_succ. by fold E.
  - assert (x < E)%Q as Hlt.
    { apply Qnot_le_lt. intros Hle. apply Qle_bool_iff in Hle. congruence. }
    replace (a - b - 1 + 1)%Z with (a - b)%Z by lia. split; [| done].
    pose proof (pow2_pred (a - b)) as Hpred. fold E in Hpred. lra.
Qed.

Lemma binade_unique (x : Q) (e : Z) :
  (2 ^ e <= x)%Q → (x < 2 ^ (e + 1))%Q → binade x = e.
Proof.
  intros Hlo Hhi.
  assert (0 < x)%Q as Hx by (pose proof (pow2_pos e); lra).
  destruct (binade_spec x Hx) as [Hlo' Hhi'].
  assert (e < binade x + 1)%Z by (apply pow2_lt_inv; lra).
  assert (binade x < e + 1)%Z by (apply pow2_lt_inv; lra).
  lia.
Qed.

Lemma binade_mono (x y : Q) :
  (0 < x)%Q → (x <= y)%Q → (binade x ≤ binade y)%Z.
Proof.
  intros Hx Hxy.
  destruct (binade_spec x Hx) as [Hlo _].
  destruct (binade_spec y ltac:(lra)) as [_ Hhi].
  assert (binade x < binade y + 1)%Z by (apply pow2_lt_inv; lra).
  lia.
Qed.

Lemma pow2_split (k q : Z) :
  (0 ≤ k)%Z → (inject_Z (2 ^ k) * 2 ^ q == 2 ^ (k + q))%Q.
Proof. intros Hk. rewrite pow2_inject by done. by rewrite Qpower_plus. Qed.

Lemma round_half_even_div_le (x : Q) (q K : Z) :
  (x <= inject_Z K * 2 ^ q)%Q → (round_half_even (x / 2 ^ q) ≤ K)%Z.
Proof.
  intros Hle. rewrite <- (round_half_even_Z K).
  apply round_half_even_mono. apply Qle_shift_div_r; [apply pow2_pos | done].
Qed.

Lemma round_half_even_div_ge (x : Q) (q K : Z) :
  (inject_Z K * 2 ^ q <= x)%Q → (K ≤ round_half_even (x / 2 ^ q))%Z.
Proof.
  intros Hle. rewrite <- (round_half_even_Z K) at 1.
  apply round_half_even_mono. apply Qle_shift_div_l; [apply pow2_pos | done].
Qed.

Lemma round_pos_mono (x y : Q) :
  (0 < x)%Q → (x <= y)%Q → (round_pos x <= round_pos y)%Q.
Proof.
  intros Hx Hxy. unfold round_pos.
  pose proof (binade_mono x y Hx Hxy) as Hb.
  destruct (binade_spec x Hx) as [_ Hxhi].
  destruct (binade_spec y ltac:(lra)) as [Hylo _].
  unfold ulp_exp.
  set (qx := Z.max (binade x - 52) (-1074)).
  set (qy := Z.max (binade y - 52) (-1074)).
  pose proof (pow2_pos qx) as Hqx. pose proof (pow2_pos qy) as Hqy.
  destruct (Z.eq_dec qx qy) as [Heq|Hne].
  - rewrite Heq. apply Qmult_le_compat_r; [| lra].
    rewrite <- Zle_Qle. apply round_half_even_mono.
    apply Qmult_le_compat_r; [done |].
    apply Qinv_le_0_compat. lra.
  - assert (qx < qy ∧ qy = binade y - 52 ∧ binade x + 1 ≤ binade y)%Z
      as (Hlt & Hqy' & Hb') by lia.
    apply (Qle_trans _ (2 ^ binade y)).
    + assert (round_half_even (x / 2 ^ qx) ≤ 2 ^ (binade y - qx))%Z as Hr.
      { apply round_half_even_div_le. rewrite pow2_split by lia.
        replace (binade y - qx + qx)%Z with (binade y) by lia.
        pose proof (pow2_le (binade x + 1) (binade y) Hb'). lra. }
      apply (Qle_trans _ (inject_Z (2 ^ (binade y - qx)) * 2 ^ qx)).
      * apply Qmult_le_compat_r; [by rewrite <- Zle_Qle | lra].
      * rewrite pow2_split by lia.
        replace (binade y - qx + qx)%Z with (binade y) by lia. lra.
    + assert (2 ^ 52 ≤ round_half_even (y / 2 ^ qy))%Z as Hr.
      { apply round_half_even_div_ge. rewrite pow2_split by lia.
        by replace (52 + qy)%Z with (binade y) by lia. }
      apply (Qle_trans _ (inject_Z (2 ^ 52) * 2 ^ qy)).
      * rewrite pow2_split by lia.
        replace (52 + qy)%Z with (binade y) by lia. lra.
      * apply Qmult_le_compat_r; [by rewrite <- Zle_Qle | lra].
Qed.

Lemma round_pos_nonneg (x : Q) : (0 < x)%Q → (0 <= round_pos x)%Q.
Proof.
  intros Hx. unfold round_pos. pose proof (pow2_pos (ulp_exp x)) as Hq.
  apply Qmult_le_0_compat; [| lra].
  change 0%Q with (inject_Z 0). rewrite <- Zle_Qle.
  apply round_half_even_div_ge.
  assert (inject_Z 0 * 2 ^ ulp_exp x == 0)%Q as -> by ring. lra.
Qed.

(** Rounding is monotone. *)
Lemma binary64_mono (x y : Q) :
  (x <= y)%Q → (binary64 x <= binary64 y)%Q.
Proof.
  intros Hxy. unfold binary64.
  destruct (Qcompare_spec 0 x) as [Hx|Hx|Hx];
    destruct (Qcompare_spec 0 y) as [Hy|Hy|Hy]; try lra.
  - by apply round_pos_nonneg.
  - by apply round_pos_mono.
  - pose proof (round_pos_nonneg (- x) ltac:(lra)). lra.
  - pose proof (round_pos_nonneg (- x) ltac:(lra)).
    pose proof (round_pos_nonneg y Hy). lra.
  - pose proof (round_pos_mono (- y) (- x) ltac:(lra) ltac:(lra)). lra.
Qed.

(** Equal numbers round to equal numbers. *)
Lemma binary64_proper (x y : Q) : (x == y)%Q → (binary64 x == binary64 y)%Q.
Proof.
  intros Hxy. apply Qle_antisym; apply binary64_mono; lra.
Qed.

Lemma binary64_opp (x : Q) : (binary64 (- x) == - binary64 x)%Q.
Proof.
  assert (∀ y, (0 < y)%Q → binary64 y = round_pos y) as Hpos.
  { intros y Hy. unfold binary64.
    destruct (Qcompare_spec 0 y); [lra | done | lra]. }
  unfold binary64 at 2.
  destruct (Qcompare_spec 0 x) as [Hx|Hx|Hx].
  - rewrite (binary64_proper (- x) 0) by lra. reflexivity.
  - unfold binary64. destruct (Qcompare_spec 0 (- x)); [lra | lra |].
    rewrite <- !Hpos by lra. apply Qopp_comp, binary64_proper. ring.
  - rewrite Hpos by lra. ring.
Qed.

(** A multiple of the unit in the last place with at most 53 bits is
    a double. *)
Lemma round_pos_exact (x : Q) (m : Z) :
  (0 < x)%Q → (x == inject_Z m * 2 ^ ulp_exp x)%Q → (round_pos x == x)%Q.
Proof.
  intros Hx Hm. unfold round_pos.
  assert (round_half_even (x / 2 ^ ulp_exp x) = m) as ->; [| by symmetry].
  pose proof (pow2_pos (ulp_exp x)) as Hq.
  apply Z.le_antisymm.
  - apply round_half_even_div_le. lra.
  - apply round_half_even_div_ge. lra.
Qed.

(** The integers up to 2^53 are doubles. *)
Lemma binary64_Z (k : Z) :
  (0 ≤ k ≤ 2 ^ 53)%Z → (binary64 (inject_Z k) == inject_Z k)%Q.
Proof.
  intros Hk. unfold binary64.
  destruct (Qcompare_spec 0 (inject_Z k)) as [Hx|Hx|Hx].
  - done.
  - assert (0 < k)%Z as Hpos by (by rewrite Zlt_Qlt).
    destruct (binade_spec (inject_Z k) Hx) as [Hlo Hhi].
    set (e := binade (inject_Z k)) in *.
    assert (0 ≤ e ≤ 53)%Z as He.
    { split.
      - assert (2 ^ 0 < 2 ^ (e + 1))%Q as Hlt.
        { change (2 ^ 0)%Q with (inject_Z 1).
          assert (inject_Z 1 <= inject_Z k)%Q by (rewrite <- Zle_Qle; lia).
          lra. }
        apply pow2_lt_inv in Hlt. lia.
      - assert (2 ^ e < 2 ^ 54)%Q as Hlt.
        { assert (inject_Z k <= inject_Z (2 ^ 53))%Q
            by (rewrite <- Zle_Qle; lia).
          rewrite pow2_inject in H by lia.
          pose proof (Qpower_lt_compat_l 2 53 54 ltac:(lia) ltac:(done)).
          lra. }
        apply pow2_lt_inv in Hlt. lia. }
    assert (ulp_exp (inject_Z k) = e - 52)%Z as Hq by (unfold ulp_exp; lia).
    destruct (Z.eq_dec e 53%Z) as [He53|Hne].
    + assert (k = 2 ^ 53)%Z as ->.
      { apply Z.le_antisymm; [lia |]. rewrite Zle_Qle.
        rewrite pow2_inject by lia. by rewrite <- He53. }
      apply (round_pos_exact _ (2 ^ 52)); [done |].
      rewrite Hq, He53. rewrite pow2_split by lia. by rewrite pow2_inject.
    + apply (round_pos_exact _ (k * 2 ^ (52 - e))); [done |].
      rewrite Hq. rewrite inject_Z_mult, <- Qmult_assoc.
      rewrite pow2_split by lia.
      replace (52 - e + (e - 52))%Z with 0%Z by lia.
      change (2 ^ 0)%Q with 1%Q. ring.
  - assert (k < 0)%Z by (by rewrite Zlt_Qlt). lia.
Qed.

(** [binary64] on the operands that the Standard Library's specification
    of IEEE 754 multiplies and adds: 0.4 * 5, 0.07 * 100, 0.1 + 0.2 and a
    product that ends in the subnormal range. *)
Example binary64_agrees_with_SpecFloat :
  let d04 := SpecFloat.S754_finite false 7205759403792794 (-54) in
  let d5 := SpecFloat.S754_finite false 5629499534213120 (-50) in
  let d007 := SpecFloat.S754_finite false 5044031582654956 (-56) in
  let d100 := SpecFloat.S754_finite false 7036874417766400 (-46) in
  let d01 := SpecFloat.S754_finite false 7205759403792794 (-56) in
  let d02 := SpecFloat.S754_finite false 7205759403792794 (-55) in
  let tiny := SpecFloat.S754_finite false 4503599627370497 (-1000) in
  let small := SpecFloat.S754_finite false 6755399441055744 (-130) in
  Qeq_bool (SF2Q (SpecFloat.SFmul 53 1024 d04 d5))
           (binary64 (SF2Q d04 * SF2Q d5)) = true ∧
  Qeq_bool (SF2Q (SpecFloat.SFmul 53 1024 d007 d100))
           (binary64 (SF2Q d007 * SF2Q d100)) = true ∧
  Qeq_bool (SF2Q (SpecFloat.SFadd 53 1024 d01 d02))
           (binary64 (SF2Q d01 + SF2Q d02)) = true ∧
  Qeq_bool (SF2Q (SpecFloat.SFmul 53 1024 tiny small))
           (binary64 (SF2Q tiny * SF2Q small)) = true ∧
  Qeq_bool (binary64 (2 # 5)) (SF2Q d04) = true ∧
  Qeq_bool (binary64 (7 # 100)) (SF2Q d007) = true.
Proof. vm_compute. repeat split. Qed.

(** The count that the machine resolves from a percentage: the ceiling
    of the rounded product.  Up to 2^53 individuals it is the exact
    ceiling or one less, and never more than the source size. *)
Lemma SelectionSize_double_bounds (p : Q) (size : nat) :
  (0 <= p)%Q → (p <= 1)%Q → (Z.of_nat size ≤ 2 ^ 53)%Z →
  let x := (p * inject_Z (Z.of_nat size))%Q in
  (binary64 (p * binary64 (inject_Z (Z.of_nat size))) == binary64 x)%Q ∧
  ceil_size_t (binary64 x) ≤ ceil_size_t x ∧
  ceil_size_t x ≤ ceil_size_t (binary64 x) + 1 ∧
  ceil_size_t (binary64 x) ≤ size.
Proof.
  intros H0 H1 Hsize x.
  assert (0 <= inject_Z (Z.of_nat size))%Q as Hn
    by (change 0%Q with (inject_Z 0); rewrite <- Zle_Qle; lia).
  assert (0 <= x)%Q as Hx by (by apply Qmult_le_0_compat).
  split.
  { apply binary64_proper. rewrite binary64_Z by lia. done. }
  pose proof (ceil_percentage_le p size H0 H1) as Hle. fold x in Hle.
  assert (0 ≤ Qceiling x)%Z as Hceil
    by (apply Qceiling_resp_le in Hx; exact Hx).
  assert (0 ≤ Qfloor x)%Z as Hfloor
    by (apply Qfloor_resp_le in Hx; exact Hx).
  assert (Qceiling x ≤ Z.of_nat size)%Z as Hcs
    by (unfold ceil_size_t in Hle; lia).
  assert (Qceiling (binary64 x) ≤ Qceiling x)%Z as Hup.
  { assert (binary64 x <= inject_Z (Qceiling x))%Q as Hb.
    { rewrite <- (binary64_Z (Qceiling x)) by lia.
      apply binary64_mono, Qle_ceiling. }
    apply Qceiling_resp_le in Hb. by rewrite Qceiling_Z in Hb. }
  assert (Qfloor x ≤ Qceiling (binary64 x))%Z as Hdown.
  { assert (inject_Z (Qfloor x) <= binary64 x)%Q as Hb.
    { rewrite <- (binary64_Z (Qfloor x)).
      - apply binary64_mono, Qfloor_le.
      - pose proof (Qle_floor_ceiling x) as Hfc.
        rewrite <- Zle_Qle in Hfc. lia. }
    apply Qceiling_resp_le in Hb. by rewrite Qceiling_Z in Hb. }
  assert (Qceiling x ≤ Qfloor x + 1)%Z as Hgap.
  { pose proof (Qceiling_lt x) as Hc. pose proof (Qlt_floor x) as Hf.
    assert (inject_Z (Qceiling x - 1) < inject_Z (Qfloor x + 1))%Q as Hlt
      by lra.
    rewrite <- Zlt_Qlt in Hlt. lia. }
  unfold ceil_size_t. lia.
Qed.

(** The resolution on the rounded product and the resolution on the
    exact product. *)
Lemma SelectionSize_call_double_exact (s : SelectionSize) (size : nat) :
  SelectionSize_valid s → (Z.of_nat size ≤ 2 ^ 53)%Z →
  ∃ k k',
    SelectionSize_call s size = Some k ∧
    SelectionSize_call_double s size = Some k' ∧
    k' ≤ k ∧ k ≤ k' + 1 ∧ k ≤ size ∧
    ((0 < count s)%N → k' = k).
Proof.
  intros Hvalid Hsize.
  unfold SelectionSize_call, SelectionSize_call_double.
  destruct (0 <? count s)%N eqn:Hc.
  - eexists _, _. repeat split; lia.
  - apply N.ltb_ge in Hc.
    destruct Hvalid as [Hpos|[H0 H1]]; [lia |].
    rewrite !Qle_bool_true by done. simpl.
    destruct (SelectionSize_double_bounds (percentage s) size H0 H1 Hsize)
      as (Hprod & Hup & Hdown & Hle).
    pose proof (ceil_percentage_le (percentage s) size H0 H1) as Hexact.
    assert (ceil_size_t
              (binary64 (percentage s * binary64 (inject_Z (Z.of_nat size))))
            = ceil_size_t
                (binary64 (percentage s * inject_Z (Z.of_nat size))))
      as Hceil by (unfold ceil_size_t; by rewrite Hprod).
    eexists _, _. split; [done |]. split; [done |]. rewrite Hceil.
    repeat split; lia.
Qed.

(** C7, as the code has it.  Resolution of a [SelectionSize] against a
    source size: a size built from an absolute count resolves to
    [min(count, size)], also for the count 0, and the count field is the
    active mode exactly when it is positive.  A size built from a
    percentage in [[0,1]] resolves to the ceiling of the product
    [percentage * size] as rounded to double precision: for up to 2^53
    individuals this is never more than [ceil(percentage * size)], at most
    one less than it, and never more than the source size. *)
Theorem SelectionSize_resolution (s : SelectionSize) (c : N) (p : Q)
    (size : nat) :
  (0 <= p)%Q → (p <= 1)%Q → (Z.of_nat size ≤ 2 ^ 53)%Z →
  SelectionSize_call_double (SelectionSize_count c) size
    = Some (min (N.to_nat c) size) ∧
  (∃ k, SelectionSize_call_double (SelectionSize_percentage p) size
          = Some k ∧
     k = Z.to_nat (Qceiling (binary64 (p * inject_Z (Z.of_nat size)))) ∧
     k ≤ Z.to_nat (Qceiling (p * inject_Z (Z.of_nat size))) ∧
     Z.to_nat (Qceiling (p * inject_Z (Z.of_nat size))) ≤ k + 1 ∧
     k ≤ size) ∧
  ((0 < count s)%N →
     SelectionSize_call_double s size
       = Some (min (N.to_nat (count s)) size)) ∧
  (count s = 0%N → percentage s = p →
     SelectionSize_call_double s size
       = Some (Z.to_nat
                 (Qceiling (binary64 (p * inject_Z (Z.of_nat size)))))).
Proof.
  intros H0 H1 Hsize.
  destruct (SelectionSize_double_bounds p size H0 H1 Hsize)
    as (Hprod & Hup & Hdown & Hle).
  assert (ceil_size_t (binary64 (p * binary64 (inject_Z (Z.of_nat size))))
          = ceil_size_t (binary64 (p * inject_Z (Z.of_nat size)))) as Hceil.
  { unfold ceil_size_t. by rewrite Hprod. }
  split; [| split; [| split]].
  - unfold SelectionSize_call_double, SelectionSize_count. simpl.
    destruct (0 <? c)%N eqn:Hc; [done |]. apply N.ltb_ge in Hc.
    replace c with 0%N by lia. simpl. by f_equal.
  - eexists. split; [| split; [reflexivity |]].
    + unfold SelectionSize_call_double, SelectionSize_percentage. simpl.
      rewrite !Qle_bool_true by done. simpl. by rewrite Hceil.
    + done.
  - intros Hc. unfold SelectionSize_call_double.
    by rewrite (proj2 (N.ltb_lt _ _) Hc).
  - intros Hc <-. unfold SelectionSize_call_double. rewrite Hc. simpl.
    rewrite !Qle_bool_true by done. simpl. by rewrite Hceil.
Qed.

(** The double nearest to 0.4 against 5 individuals: the rounded
    product has the ceiling 2, the exact product the ceiling 3. *)
Lemma SelectionSize_resolution_witness :
  let p := (3602879701896397 # 9007199254740992)%Q in
  SelectionSize_call_double (SelectionSize_count 7) 5
    = Some (min (N.to_nat 7) 5) ∧
  (∃ k, SelectionSize_call_double (SelectionSize_percentage p) 5 = Some k ∧
     k = Z.to_nat (Qceiling (binary64 (p * inject_Z (Z.of_nat 5)))) ∧
     k ≤ Z.to_nat (Qceiling (p * inject_Z (Z.of_nat 5))) ∧
     Z.to_nat (Qceiling (p * inject_Z (Z.of_nat 5))) ≤ k + 1 ∧
     k ≤ 5) ∧
  ((0 < count (mkSelectionSize 3 p))%N →
     SelectionSize_call_double (mkSelectionSize 3 p) 5
       = Some (min (N.to_nat (count (mkSelectionSize 3 p))) 5)) ∧
  (count (mkSelectionSize 3 p) = 0%N →
   percentage (mkSelectionSize 3 p) = p →
     SelectionSize_call_double (mkSelectionSize 3 p) 5
       = Some (Z.to_nat (Qceiling (binary64 (p * inject_Z (Z.of_nat 5)))))).
Proof.
  intros p.
  apply (SelectionSize_resolution (mkSelectionSize 3 p) 7 p 5).
  - vm_compute. discriminate.
  - vm_compute. discriminate.
  - vm_compute. discriminate.
Defined.

(** The claim fails on the rounded product.  The double nearest to 0.4
    is a little above 2/5, so the ceiling of its exact product with 5 is
    3, but the product rounds to 2.0 and the code selects 2 of 5.  The
    double nearest to 0.07 times 100 rounds to a double above 7, and the
    code selects 8 of 100 where 7 per cent of 100 are 7. *)
Lemma SelectionSize_resolution_counterexample :
  let p := (3602879701896397 # 9007199254740992)%Q in
  let q := (1261007895663739 # 18014398509481984)%Q in
  (binary64 (2 # 5) == p)%Q ∧
  SelectionSize_call_double (SelectionSize_percentage p) 5 = Some 2 ∧
  Z.to_nat (Qceiling (p * inject_Z (Z.of_nat 5))) = 3 ∧
  (binary64 (7 # 100) == q)%Q ∧
  SelectionSize_call_double (SelectionSize_percentage q) 100 = Some 8 ∧
  Z.to_nat (Qceiling ((7 # 100) * inject_Z (Z.of_nat 100))) = 7.
Proof. vm_compute. repeat split. Qed.

(** 41% of 5 individuals are 3; a count of 7 is cut down to 5; a
    percentage above 1 fails the assertion. *)
Example SelectionSize_examples :
  SelectionSize_call_double
    (SelectionSize_percentage (binary64 (41 # 100))) 5 = Some 3 ∧
  SelectionSize_call_double (SelectionSize_percentage (1 # 2)) 5 = Some 3 ∧
  SelectionSize_call_double (SelectionSize_count 7) 5 = Some 5 ∧
  SelectionSize_call_double SelectionSize_default 5 = Some 0 ∧
  SelectionSize_call_double (SelectionSize_percentage (3 # 2)) 5 = None.
Proof. vm_compute. done. Qed.

(** ** Sorting and elitist replacement *)

(** [fitness_ge a b] says that the comparator of the sort does not put
    [b] before [a]: [b > a] is false. *)
Lemma fitness_ge_not_gt {T} (a b : Individual T) :
  fitness_ge a b ↔ Individual_gt b a = false.
Proof.
  unfold fitness_ge, Individual_gt, Qlt_bool.
  rewrite negb_false_iff. symmetry. apply Qle_bool_iff.
Qed.

#[export] Instance fitness_ge_trans {T} : Transitive (@fitness_ge T).
Proof.
  intros a b c Hab Hbc. unfold fitness_ge in *.
  by apply Qle_trans with (fitness b).
Qed.

#[export] Instance fitness_ge_total {T} : Total (@fitness_ge T).
Proof.
  intros a b. unfold fitness_ge.
  destruct (Qlt_le_dec (fitness a) (fitness b)) as [Hlt|Hle]; [| by left].
  right. by apply Qlt_le_weak.
Qed.

#[export] Program Instance merge_sort_source : StdSort := {|
  sort_greater := @merge_sort_greater
|}.
Next Obligation. intros T pop. apply merge_sort_Permutation. Qed.
Next Obligation.
  intros T pop. apply StronglySorted_merge_sort; apply _.
Qed.

Section ReplacementFacts.
Context `{StdSort} {T : Type} `{Inhabited T} {Rng : Type}.
Implicit Types pop src dst : Population T.

Lemma resize_le pop n : n ≤ length pop → resize pop n = take n pop.
Proof.
  intros Hn. unfold resize.
  replace (n - length pop) with 0 by lia. simpl. by rewrite app_nil_r.
Qed.

End ReplacementFacts.



(** 60% of three individuals are two: the two fittest stay, in
    descending order, and the pool follows. *)
Example ReplacementElitist_example :
  ReplacementElitist (SelectionSize_percentage (3 # 5))
    [mkIndividual 7 (-1)]
    [mkIndividual 1 (1 # 2); mkIndividual 2 3; mkIndividual 3 2] ()
  = Some ([], [mkIndividual 2 3; mkIndividual 3 2; mkIndividual 7 (-1)], ()).
Proof. vm_compute. reflexivity. Qed.

(** ** The Or and And combinators *)

Section CombinatorFacts.
Context {W T Rng : Type}.
Implicit Types funcs pre post : list (Termination W T Rng).
Implicit Types s : W * Population T * Rng.

Lemma TerminationOr_first_true pre f post self pop rng s self' pop' rng' :
  all_return false pre (self, pop, rng) s →
  f s.1.1 s.1.2 s.2 = Some (true, self', pop', rng') →
  TerminationOr_Check (pre ++ f :: post) self pop rng = Some (true, self').
Proof.
  intros Hpre. remember (self, pop, rng) as s0 eqn:Hs0.
  revert self pop rng Hs0.
  induction Hpre as [s|g pre w p r w1 p1 r1 s2 Hg Hpre IH];
    intros self pop rng Hs0 Hf; simplify_eq/=.
  - by rewrite Hf.
  - rewrite Hg. simpl. by apply IH.
Qed.

Lemma TerminationOr_all_false funcs self pop rng s :
  all_return false funcs (self, pop, rng) s →
  TerminationOr_Check funcs self pop rng = Some (false, s.1.1).
Proof.
  intros Hall. remember (self, pop, rng) as s0 eqn:Hs0.
  revert self pop rng Hs0.
  induction Hall as [s|g pre w p r w1 p1 r1 s2 Hg Hpre IH];
    intros self pop rng Hs0; simplify_eq/=; [done |].
  rewrite Hg. simpl. by apply IH.
Qed.

Lemma TerminationOr_inv funcs self pop rng b self' :
  TerminationOr_Check funcs self pop rng = Some (b, self') →
  if b then
    ∃ pre f post s pop' rng',
      funcs = pre ++ f :: post ∧
      all_return false pre (self, pop, rng) s ∧
      f s.1.1 s.1.2 s.2 = Some (true, self', pop', rng')
  else
    ∃ pop' rng',
      all_return false funcs (self, pop, rng) (self', pop', rng').
Proof.
  revert self pop rng. induction funcs as [|f funcs IH]; intros self pop rng.
  - intros [= <- <-]. exists pop, rng. constructor.
  - simpl. destruct (f self pop rng) as [[[[[] w1] p1] r1]|] eqn:Hf;
      simpl; [| | done].
    + intros [= <- <-].
      exists [], f, funcs, (self, pop, rng), p1, r1.
      repeat split; [constructor | done].
    + intros Hrest. specialize (IH _ _ _ Hrest). destruct b.
      * destruct IH as (pre & g & post & s & p' & r' & -> & Hpre & Hg).
        exists (f :: pre), g, post, s, p', r'.
        repeat split; [| done]. by econstructor.
      * destruct IH as (p' & r' & Hall). exists p', r'. by econstructor.
Qed.

Lemma TerminationAnd_first_false pre f post self pop rng s self' pop' rng' :
  all_return true pre (self, pop, rng) s →
  f s.1.1 s.1.2 s.2 = Some (false, self', pop', rng') →
  TerminationAnd_Check (pre ++ f :: post) self pop rng = Some (false, self').
Proof.
  intros Hpre. remember (self, pop, rng) as s0 eqn:Hs0.
  revert self pop rng Hs0.
  induction Hpre as [s|g pre w p r w1 p1 r1 s2 Hg Hpre IH];
    intros self pop rng Hs0 Hf; simplify_eq/=.
  - by rewrite Hf.
  - rewrite Hg. simpl. by apply IH.
Qed.

Lemma TerminationAnd_all_true funcs self pop rng s :
  all_return true funcs (self, pop, rng) s →
  TerminationAnd_Check funcs self pop rng = Some (true, s.1.1).
Proof.
  intros Hall. remember (self, pop, rng) as s0 eqn:Hs0.
  revert self pop rng Hs0.
  induction Hall as [s|g pre w p r w1 p1 r1 s2 Hg Hpre IH];
    intros self pop rng Hs0; simplify_eq/=; [done |].
  rewrite Hg. simpl. by apply IH.
Qed.

Lemma TerminationAnd_inv funcs self pop rng b self' :
  TerminationAnd_Check funcs self pop rng = Some (b, self') →
  if b then
    ∃ pop' rng', all_return true funcs (self, pop, rng) (self', pop', rng')
  else
    ∃ pre f post s pop' rng',
      funcs = pre ++ f :: post ∧
      all_return true pre (self, pop, rng) s ∧
      f s.1.1 s.1.2 s.2 = Some (false, self', pop', rng').
Proof.
  revert self pop rng. induction funcs as [|f funcs IH]; intros self pop rng.
  - intros [= <- <-]. exists pop, rng. constructor.
  - simpl. destruct (f self pop rng) as [[[[[] w1] p1] r1]|] eqn:Hf;
      simpl; [| | done].
    + intros Hrest. specialize (IH _ _ _ Hrest). destruct b.
      * destruct IH as (p' & r' & Hall). exists p', r'. by econstructor.
      * destruct IH as (pre & g & post & s & p' & r' & -> & Hpre & Hg).
        exists (f :: pre), g, post, s, p', r'.
        repeat split; [| done]. by econstructor.
    + intros [= <- <-].
      exists [], f, funcs, (self, pop, rng), p1, r1.
      repeat split; [constructor | done].
Qed.
End CombinatorFacts.

(** C8. The Or and And combinators call their members from left to
    right and stop at the first decisive one.  Or returns true exactly
    when some member returns true after all members before it returned
    false, and its state is then the one that member left: the members
    behind it are not called.  Or returns false exactly when every member,
    called in order, returned false.  And is the mirror image: false at
    the first member returning false, true when all returned true.  Without
    members Or returns false and And returns true.  The population and the
    generator of the caller are untouched, since the members work on
    copies. *)
Theorem Termination_combinators_short_circuit {W T Rng : Type}
    (funcs : list (Termination W T Rng)) (self self' : W)
    (pop : Population T) (rng : Rng) :
  (TerminationOr_Check funcs self pop rng = Some (true, self') ↔
     ∃ pre f post s pop' rng',
       funcs = pre ++ f :: post ∧
       all_return false pre (self, pop, rng) s ∧
       f s.1.1 s.1.2 s.2 = Some (true, self', pop', rng')) ∧
  (TerminationOr_Check funcs self pop rng = Some (false, self') ↔
     ∃ pop' rng',
       all_return false funcs (self, pop, rng) (self', pop', rng')) ∧
  (TerminationAnd_Check funcs self pop rng = Some (false, self') ↔
     ∃ pre f post s pop' rng',
       funcs = pre ++ f :: post ∧
       all_return true pre (self, pop, rng) s ∧
       f s.1.1 s.1.2 s.2 = Some (false, self', pop', rng')) ∧
  (TerminationAnd_Check funcs self pop rng = Some (true, self') ↔
     ∃ pop' rng',
       all_return true funcs (self, pop, rng) (self', pop', rng')) ∧
  TerminationOr [] self pop rng = Some (false, self, pop, rng) ∧
  TerminationAnd [] self pop rng = Some (true, self, pop, rng) ∧
  TerminationOr funcs self pop rng
    = (λ r, (r.1, r.2, pop, rng))
        <$> TerminationOr_Check funcs self pop rng ∧
  TerminationAnd funcs self pop rng
    = (λ r, (r.1, r.2, pop, rng))
        <$> TerminationAnd_Check funcs self pop rng.
Proof.
  repeat split.
  - apply (TerminationOr_inv funcs self pop rng true).
  - intros (pre & f & post & s & p' & r' & -> & Hpre & Hf).
    by eapply TerminationOr_first_true.
  - apply (TerminationOr_inv funcs self pop rng false).
  - intros (p' & r' & Hall).
    by apply (TerminationOr_all_false funcs self pop rng (self', p', r')).
  - apply (TerminationAnd_inv funcs self pop rng false).
  - intros (pre & f & post & s & p' & r' & -> & Hpre & Hf).
    by eapply TerminationAnd_first_false.
  - apply (TerminationAnd_inv funcs self pop rng true).
  - intros (p' & r' & Hall).
    by apply (TerminationAnd_all_true funcs self pop rng (self', p', r')).
  - unfold TerminationOr.
    by destruct (TerminationOr_Check funcs self pop rng) as [[]|].
  - unfold TerminationAnd.
    by destruct (TerminationAnd_Check funcs self pop rng) as [[]|].
Qed.

(** A generation limit of 1 in front of a stagnation predicate: Or stops
    at the limit and leaves the stagnation state alone; And goes on to
    the second member, which records the new best fitness. *)
Example TerminationOr_example :
  let funcs := [in_fst TerminationGeneration.call;
                in_snd TerminationStagnation.call] in
  let self := (TerminationGeneration.new 1, TerminationStagnation.new 3) in
  let pop := [mkIndividual () 5] in
  TerminationOr funcs self pop ()
    = Some (true,
            (TerminationGeneration.mk 1 1, TerminationStagnation.new 3),
            pop, ()) ∧
  TerminationAnd funcs self pop ()
    = Some (false,
            (TerminationGeneration.mk 1 1, TerminationStagnation.mk 3 0 5),
            pop, ()).
Proof. vm_compute. done. Qed.

(** ** Stagnation *)

Section StagnationFacts.
Import TerminationStagnation.
Context {T Rng : Type}.
Implicit Types pop : Population T.
Implicit Types pops : list (Population T).
Implicit Types self : TerminationStagnation.t.

Lemma Stagnation_call_empty self (rng : Rng) :
  call self ([] : Population T) rng = Some (true, self, [], rng).
Proof. done. Qed.

(** A strictly better best fitness is recorded and resets the counter. *)
Lemma Stagnation_call_improve self pop (rng : Rng) f :
  best_fitness pop = Some f → (best_fitness_ self < f)%Q →
  call self pop rng
    = Some (false, mk (max_generations self) 0 f, pop, rng).
Proof.
  unfold best_fitness, call. intros Hbest Hlt.
  destruct (max_element pop) as [best|]; simplify_eq/=.
  by rewrite Qlt_bool_true.
Qed.

(** Any other call counts as one more generation without improvement. *)
Lemma Stagnation_call_stall self pop (rng : Rng) f :
  best_fitness pop = Some f → (f <= best_fitness_ self)%Q →
  (curr_generation_ self < INT_MAX)%Z →
  call self pop rng
    = Some ((max_generations self <=? curr_generation_ self + 1)%Z,
            mk (max_generations self) (curr_generation_ self + 1)
               (best_fitness_ self),
            pop, rng).
Proof.
  unfold best_fitness, call, int_incr. intros Hbest Hle Hcurr.
  destruct (max_element pop) as [best|]; simplify_eq/=.
  rewrite Qlt_bool_false by done.
  by rewrite (proj2 (Z.ltb_lt _ _) Hcurr).
Qed.

(** While every population beats the best fitness seen so far, no call
    returns true. *)
Lemma Stagnation_run_increasing pops fs self (rng : Rng) :
  Forall2 (λ pop f, best_fitness pop = Some f) pops fs →
  StronglySorted Qlt (best_fitness_ self :: fs) →
  ∃ self', run self pops rng = Some (replicate (length pops) false, self').
Proof.
  intros Hbest. revert self.
  induction Hbest as [|pop f pops fs Hpop Hbest IH]; intros self Hsorted.
  - by eexists.
  - apply StronglySorted_inv in Hsorted as [Hfs Hall].
    apply Forall_cons in Hall as [Hlt _]. simpl.
    rewrite (Stagnation_call_improve self pop rng f) by done. simpl.
    destruct (IH (mk (max_generations self) 0 f) Hfs) as [self' ->].
    by eexists.
Qed.

(** While no population beats the best fitness seen so far, the calls
    count up, and the [j]-th of them returns true exactly when the counter
    has reached [max_generations]. *)
Lemma Stagnation_run_stall pops self (rng : Rng) :
  Forall (λ pop, ∃ f, best_fitness pop = Some f ∧
                      (f <= best_fitness_ self)%Q) pops →
  (curr_generation_ self + Z.of_nat (length pops) ≤ INT_MAX)%Z →
  run self pops rng
    = Some ((λ j, (max_generations self
                     <=? curr_generation_ self + Z.of_nat j)%Z)
              <$> seq 1 (length pops),
            mk (max_generations self)
               (curr_generation_ self + Z.of_nat (length pops))
               (best_fitness_ self)).
Proof.
  intros Hall. revert self Hall.
  induction pops as [|pop pops IH]; intros self Hall Hmax.
  - simpl. rewrite Z.add_0_r. by destruct self.
  - apply Forall_cons in Hall as [(f & Hf & Hle) Hall]. simpl in Hmax.
    cbn [run].
    rewrite (Stagnation_call_stall self pop rng f) by (done || lia). simpl.
    rewrite IH; simpl; [| done | lia].
    rewrite <- (fmap_S_seq 1), <- list_fmap_compose.
    do 3 f_equal.
    + apply list_fmap_ext. intros _ j _. unfold compose. f_equal. lia.
    + lia.
Qed.

Lemma Stagnation_stall_verdicts (max_generations : Z) (n : nat) :
  Z.of_nat n = max_generations → 0 < n →
  (λ j, (max_generations <=? 0 + Z.of_nat j)%Z) <$> seq 1 n
    = replicate (n - 1) false ++ [true].
Proof.
  intros <- Hn. destruct n as [|n]; [lia |].
  replace (S n - 1) with n by lia.
  rewrite seq_S, fmap_app. simpl. f_equal.
  - apply list_eq. intros i. rewrite list_lookup_fmap.
    destruct (decide (i < n)) as [Hi|Hi].
    + rewrite lookup_seq_lt, lookup_replicate_2 by done. simpl.
      f_equal. apply Z.leb_gt. lia.
    + rewrite lookup_seq_ge by lia. simpl.
      symmetry. apply lookup_replicate_None. lia.
  - do 2 f_equal. apply Z.leb_le. lia.
Qed.
End StagnationFacts.

(** C6, as the code has it.  A call on an empty population returns true
    and changes nothing.  A call on a non-empty population whose best
    fitness is strictly greater than the recorded best records it, resets
    the counter and returns false; any other call on a non-empty population
    adds one to the counter and returns true exactly when the counter has
    reached [max_generations].  The recorded best starts at 0, so over a
    strictly increasing best-fitness sequence no call returns true provided
    the first value is greater than 0, or [max_generations] is at least 2
    and the first value is not negative.  Over a constant best-fitness
    sequence, with [1 <= max_generations], the first true comes exactly
    with the [max_generations]-th consecutive call without improvement:
    after one improving call when the constant is greater than 0, at once
    otherwise. *)
Theorem TerminationStagnation_spec {T Rng : Type}
    (self : TerminationStagnation.t) (max_generations : Z)
    (pop : Population T) (pops : list (Population T)) (fs : list Q) (c : Q)
    (rng : Rng) :
  TerminationStagnation.call self ([] : Population T) rng
    = Some (true, self, [], rng) ∧
  (∀ f, best_fitness pop = Some f →
     (TerminationStagnation.best_fitness_ self < f)%Q →
     TerminationStagnation.call self pop rng
       = Some (false,
               TerminationStagnation.mk
                 (TerminationStagnation.max_generations self) 0 f,
               pop, rng)) ∧
  (∀ f, best_fitness pop = Some f →
     (f <= TerminationStagnation.best_fitness_ self)%Q →
     (TerminationStagnation.curr_generation_ self < INT_MAX)%Z →
     TerminationStagnation.call self pop rng
       = Some ((TerminationStagnation.max_generations self
                  <=? TerminationStagnation.curr_generation_ self + 1)%Z,
               TerminationStagnation.mk
                 (TerminationStagnation.max_generations self)
                 (TerminationStagnation.curr_generation_ self + 1)
                 (TerminationStagnation.best_fitness_ self),
               pop, rng)) ∧
  (Forall2 (λ pop f, best_fitness pop = Some f) pops fs →
     StronglySorted Qlt fs →
     (∀ f, head fs = Some f →
        (0 < f)%Q ∨ ((2 ≤ max_generations)%Z ∧ (0 <= f)%Q)) →
     ∃ self',
       TerminationStagnation.run
         (TerminationStagnation.new max_generations) pops rng
         = Some (replicate (length pops) false, self')) ∧
  ((1 ≤ max_generations ≤ INT_MAX)%Z →
     Forall (λ pop, ∃ f, best_fitness pop = Some f ∧ (f == c)%Q) pops →
     length pops
       = (if Qlt_bool 0 c then 1 else 0) + Z.to_nat max_generations →
     ∃ self',
       TerminationStagnation.run
         (TerminationStagnation.new max_generations) pops rng
         = Some (replicate (length pops - 1) false ++ [true], self')).
Proof.
  split; [| split; [| split; [| split]]].
  - apply Stagnation_call_empty.
  - intros f. apply Stagnation_call_improve.
  - intros f. apply Stagnation_call_stall.
  - intros Hbest Hsorted Hfirst.
    destruct Hbest as [|pop1 f1 pops1 fs1 Hpop1 Hbest]; [by eexists |].
    apply StronglySorted_inv in Hsorted as [Hfs1 Hall].
    destruct (Hfirst f1 eq_refl) as [Hpos|[Hmax Hnonneg]].
    + apply (Stagnation_run_increasing (pop1 :: pops1) (f1 :: fs1)).
      { by constructor. }
      simpl. constructor; [by constructor |].
      constructor; [done |].
      eapply Forall_impl; [exact Hall |].
      intros f Hf. by apply Qlt_trans with f1.
    + destruct (Qlt_le_dec 0 f1) as [Hpos|Hle].
      * apply (Stagnation_run_increasing (pop1 :: pops1) (f1 :: fs1)).
        { by constructor. }
        simpl. constructor; [by constructor |].
        constructor; [done |].
        eapply Forall_impl; [exact Hall |].
        intros f Hf. by apply Qlt_trans with f1.
      * cbn [TerminationStagnation.run].
        rewrite (Stagnation_call_stall _ pop1 rng f1); [| done | done | done].
        simpl.
        destruct (Stagnation_run_increasing pops1 fs1
                    (TerminationStagnation.mk max_generations (0 + 1) 0) rng)
          as [self' ->]; [done | |].
        { simpl. constructor; [done |].
          eapply Forall_impl; [exact Hall |].
          intros f Hf. by apply Qle_lt_trans with f1. }
        simpl. rewrite (proj2 (Z.leb_gt _ _)) by lia. by eexists.
  - intros Hmax Hall Hlen.
    destruct (Qlt_bool 0 c) eqn:Hc.
    + apply Qlt_bool_iff in Hc.
      destruct pops as [|pop1 pops1]; [simpl in Hlen; lia |].
      apply Forall_cons in Hall as [(f1 & Hf1 & Heq1) Hall].
      simpl in Hlen. cbn [TerminationStagnation.run].
      rewrite (Stagnation_call_improve _ pop1 rng f1);
        [| done | by rewrite Heq1].
      simpl. rewrite Stagnation_run_stall; simpl.
      * rewrite Stagnation_stall_verdicts by lia. eexists. do 2 f_equal.
        replace (length pops1 - 0) with (S (length pops1 - 1)) by lia.
        done.
      * eapply Forall_impl; [exact Hall |].
        intros p (f & Hf & Heq). exists f. split; [done |].
        rewrite Heq, Heq1. apply Qle_refl.
      * lia.
    + unfold Qlt_bool in Hc. apply negb_false_iff, Qle_bool_iff in Hc.
      rewrite Stagnation_run_stall; simpl.
      * rewrite Stagnation_stall_verdicts by lia. by eexists.
      * eapply Forall_impl; [exact Hall |].
        intros p (f & Hf & Heq). exists f. split; [done |]. by rewrite Heq.
      * lia.
Qed.

(** Two runs of a predicate with [max_generations = 2]: the increasing
    sequence 0, 1, 3 never stops it, the constant sequence 1, 1, 1 stops
    it at the second call without improvement. *)
Lemma TerminationStagnation_spec_witness :
  (∃ self',
     TerminationStagnation.run (TerminationStagnation.new 2)
       [[mkIndividual () 0]; [mkIndividual () 1]; [mkIndividual () 3]] ()
       = Some ([false; false; false], self')) ∧
  (∃ self',
     TerminationStagnation.run (TerminationStagnation.new 2)
       [[mkIndividual () 1]; [mkIndividual () 1]; [mkIndividual () 1]] ()
       = Some ([false; false; true], self')).
Proof.
  split.
  - apply (TerminationStagnation_spec (TerminationStagnation.new 2) 2
             [mkIndividual () 0]
             [[mkIndividual () 0]; [mkIndividual () 1]; [mkIndividual () 3]]
             [0; 1; 3]%Q 0 ()).
    + repeat constructor.
    + repeat constructor.
    + intros f [= <-]. right. split; [lia | apply Qle_refl].
  - apply (TerminationStagnation_spec (TerminationStagnation.new 2) 2
             [mkIndividual () 1]
             [[mkIndividual () 1]; [mkIndividual () 1]; [mkIndividual () 1]]
             [] 1 ()).
    + unfold INT_MAX. lia.
    + repeat constructor; by exists 1%Q.
    + reflexivity.
Defined.

(** The claim fails where the first best fitness does not exceed the
    initial best 0: with [max_generations = 1] the strictly increasing
    sequence 0, 1, 2 stops the predicate at the very first call. *)
Lemma TerminationStagnation_increasing_counterexample :
  Forall2 (λ (pop : Population ()) f, best_fitness pop = Some f)
    [[mkIndividual () 0]; [mkIndividual () 1]; [mkIndividual () 2]]
    [0; 1; 2]%Q ∧
  StronglySorted Qlt [0; 1; 2]%Q ∧
  TerminationStagnation.run (TerminationStagnation.new 1)
    [[mkIndividual () 0]; [mkIndividual () 1]; [mkIndividual () 2]] ()
    = Some ([true; false; false], TerminationStagnation.mk 1 0 2).
Proof. repeat split; repeat constructor. Qed.

(** ** Roulette-wheel selection and stochastic universal sampling *)

Section SelectionFacts.
Context `{RandomSource Rng} {T : Type}.
Implicit Types src dst : Population T.




(** With a total of zero every expected count is the NaN [0 / 0], the
    comparison that guards the inner loop is false, and nothing is
    selected. *)
Lemma Sus_zero size src dst (rng : Rng) samples :
  Forall (λ it, fitness it == 0)%Q src → (total_fitness src == 0)%Q →
  SelectionSize_call size (length src) = Some samples →
  SelectionSus size src dst rng = Some (src, dst, (canonical rng).2).
Proof.
  intros Hzero Htotal Hsamples.
  unfold SelectionSus. rewrite Hsamples. simpl.
  destruct (canonical rng) as [offset rng']. simpl.
  destruct (for_range_inv
    (λ _ (s : Fext * Population T * nat), s.1.2 = dst)
    (Sus_body samples (total_fitness src) offset src) (length src) 0
    (Finite 0, dst, 0)) as ([[cum d] idx] & Hrun & Hd).
  - done.
  - intros i [[cum d] idx] Hi Hd. simpl in Hd. subst d.
    destruct (lookup_lt_is_Some_2 src i ltac:(lia)) as [it Hit].
    unfold Sus_body. rewrite Hit. simpl.
    assert (fitness it == 0)%Q as Hfit.
    { rewrite Forall_lookup in Hzero. by apply (Hzero i). }
    unfold Fdiv.
    rewrite (proj2 (Qeq_bool_iff _ _) Htotal).
    rewrite (proj2 (Qeq_bool_iff (_ * fitness it) 0));
      [| rewrite Hfit; ring].
    destruct cum; simpl; by eexists.
  - simpl in Hrun, Hd. rewrite Hrun. simpl. by subst d.
Qed.

Lemma ceil_size_t_ge (c : Q) :
  (c <= inject_Z (Z.of_nat (ceil_size_t c)))%Q.
Proof.
  destruct (Qlt_le_dec c 0) as [Hneg|Hpos].
  - apply Qlt_le_weak, Qlt_le_trans with 0%Q; [done |].
    change 0%Q with (inject_Z 0). rewrite <- Zle_Qle. lia.
  - by apply ceil_size_t_spec.
Qed.

(** The fuel of the inner loop is enough: the loop is left because its
    guard is false, not because the fuel is used up. *)
Lemma Sus_while_exit fuel (c offset : Q) (it : Individual T) dst index :
  (0 <= offset)%Q → ceil_size_t c ≤ fuel + index →
  Qlt_bool (offset + inject_Z (Z.of_nat
              (Sus_while fuel c offset it dst index).2)) c = false.
Proof.
  intros Hoff. revert dst index.
  induction fuel as [|fuel IH]; intros dst index Hfuel; simpl.
  - apply Qlt_bool_false.
    apply Qle_trans with (inject_Z (Z.of_nat (ceil_size_t c)));
      [apply ceil_size_t_ge |].
    apply Qle_trans with (inject_Z (Z.of_nat index)).
    + rewrite <- Zle_Qle. lia.
    + rewrite <- (Qplus_0_l (inject_Z (Z.of_nat index))) at 1.
      by apply Qplus_le_l.
  - destruct (Qlt_bool (offset + inject_Z (Z.of_nat index)) c) eqn:Hc.
    + apply IH. lia.
    + done.
Qed.
End SelectionFacts.




(** On a population whose whole fitness sits in one individual both
    operators select that individual only. *)
Example selection_concentrated :
  SelectionRouletteWheel (SelectionSize_count 2)
    [mkIndividual 10 0; mkIndividual 20 3; mkIndividual 30 0] []
    ([500; 999]%N : Tape)
    = Some ([mkIndividual 10 0; mkIndividual 20 3; mkIndividual 30 0],
            [mkIndividual 20 3; mkIndividual 20 3], []) ∧
  SelectionSus (SelectionSize_count 2)
    [mkIndividual 10 0; mkIndividual 20 3; mkIndividual 30 0] []
    ([500]%N : Tape)
    = Some ([mkIndividual 10 0; mkIndividual 20 3; mkIndividual 30 0],
            [mkIndividual 20 3; mkIndividual 20 3], []).
Proof. vm_compute. done. Qed.

(** ** One step of the genetic algorithm *)

Section EvaluateFacts.
Context {T Rng : Type}.
Implicit Types pop : Population T.

(** Evaluation writes fitness values only: every individual keeps its
    representation, a clean individual is left as it is, and a dirty one
    receives a fitness that is not negative. *)
Lemma Evaluate_spec (func : T → Rng → Q * Rng) pop (rng : Rng) pop' rng' :
  Evaluate func pop rng = Some (pop', rng') →
  data <$> pop' = data <$> pop ∧
  Forall2 (λ it it', if is_dirty it then (0 <= fitness it')%Q
                     else it' = it) pop pop'.
Proof.
  revert rng pop' rng'.
  induction pop as [|it pop IH]; intros rng pop' rng'; simpl.
  - intros [= <- <-]. by split.
  - destruct (is_dirty it) eqn:Hdirty.
    + destruct (func (data it) rng) as [f rng1].
      destruct (Qle_bool 0 f) eqn:Hf; [| done]. simpl.
      destruct (Evaluate func pop rng1) as [[pop1 rng2]|] eqn:Hrest;
        [| done]. simpl.
      intros [= <- <-]. destruct (IH _ _ _ Hrest) as [Hdata Hall].
      split; [by rewrite !fmap_cons, Hdata |].
      constructor; [| done]. rewrite Hdirty. by apply Qle_bool_iff.
    + destruct (Evaluate func pop rng) as [[pop1 rng2]|] eqn:Hrest;
        [| done]. simpl.
      intros [= <- <-]. destruct (IH _ _ _ Hrest) as [Hdata Hall].
      split; [by rewrite !fmap_cons, Hdata |].
      constructor; [| done]. by rewrite Hdirty.
Qed.

(** The fitness that evaluation writes: the individual at position [i],
    if dirty, receives the value of the evaluator on its representation
    and on the generator left by the individuals before it. *)
Lemma Evaluate_fitness (func : T → Rng → Q * Rng) pop (rng : Rng) pop' rng' :
  Evaluate func pop rng = Some (pop', rng') →
  rng' = Evaluate_rng func pop rng ∧
  ∀ i it, pop !! i = Some it →
    pop' !! i
      = Some (if is_dirty it
              then mkIndividual (data it)
                     (func (data it) (Evaluate_rng func (take i pop) rng)).1
              else it).
Proof.
  revert rng pop' rng'.
  induction pop as [|it pop IH]; intros rng pop' rng'; simpl.
  - intros [= <- <-]. by split.
  - destruct (is_dirty it) eqn:Hdirty.
    + destruct (func (data it) rng) as [f rng1] eqn:Hfunc.
      destruct (Qle_bool 0 f); [| done]. simpl.
      destruct (Evaluate func pop rng1) as [[pop1 rng2]|] eqn:Hrest;
        [| done]. simpl.
      intros [= <- <-]. destruct (IH _ _ _ Hrest) as [Hrng Hfit].
      split; [done |]. intros [|i] x Hx; simplify_eq/=.
      * by rewrite Hdirty, Hfunc.
      * rewrite Hdirty, Hfunc. simpl. by apply Hfit.
    + destruct (Evaluate func pop rng) as [[pop1 rng2]|] eqn:Hrest;
        [| done]. simpl.
      intros [= <- <-]. destruct (IH _ _ _ Hrest) as [Hrng Hfit].
      split; [done |]. intros [|i] x Hx; simplify_eq/=.
      * by rewrite Hdirty.
      * rewrite Hdirty. by apply Hfit.
Qed.

Lemma Evaluate_clean (func : T → Rng → Q * Rng) pop (rng : Rng) :
  Forall (λ it, is_dirty it = false) pop →
  Evaluate func pop rng = Some (pop, rng).
Proof.
  induction 1 as [|it pop Hit Hall IH]; simpl; [done |].
  by rewrite Hit, IH.
Qed.
End EvaluateFacts.

(** C4, as the code has it.  In a step on a non-empty population the
    evaluation of the dirty individuals and the selection come first; if
    the mating pool that selection produced is empty, the step returns
    false with the population as these two left it, and with the
    generator as selection left it: crossover, mutation, replacement and
    the termination predicate are not run, and the functors of the
    algorithm are unchanged.  Evaluation keeps every representation and
    every clean individual; every dirty individual has received the
    fitness that the evaluation functor computes for its representation,
    which is not negative, the functor having been called on the dirty
    individuals in their order; a population without dirty individuals is
    not changed by it. *)
Theorem Ga_step_empty_pool `{RandomSource Rng} {T St : Type}
    (ga : Ga.t T Rng St) (pop pop1 pop2 : Population T)
    (rng rng1 rng2 : Rng) :
  Ga.rate_ok (Ga.mutation_rate ga) = true →
  Ga.rate_ok (Ga.crossover_rate ga) = true →
  pop ≠ [] →
  Evaluate (Ga.evaluation ga) pop rng = Some (pop1, rng1) →
  Ga.selection ga pop1 [] rng1 = Some (pop2, [], rng2) →
  Ga.step ga pop rng = Some (false, ga, pop2, rng2) ∧
  data <$> pop1 = data <$> pop ∧
  Forall2 (λ it it', if is_dirty it then (0 <= fitness it')%Q
                     else it' = it) pop pop1 ∧
  (∀ i it, pop !! i = Some it →
     pop1 !! i
       = Some (if is_dirty it
               then mkIndividual (data it)
                      (Ga.evaluation ga (data it)
                         (Evaluate_rng (Ga.evaluation ga) (take i pop) rng)).1
               else it)) ∧
  rng1 = Evaluate_rng (Ga.evaluation ga) pop rng ∧
  (Forall (λ it, is_dirty it = false) pop → pop1 = pop).
Proof.
  intros Hm Hc Hne Heval Hsel.
  destruct (Evaluate_spec _ _ _ _ _ Heval) as [Hdata Hall].
  destruct (Evaluate_fitness _ _ _ _ _ Heval) as [Hrng Hfit].
  split; [| split; [done | split; [done | split; [done | split; [done |]]]]].
  - unfold Ga.step. rewrite Hm, Hc. simpl.
    destruct pop as [|it pop]; [done |].
    rewrite Heval. simpl. by rewrite Hsel.
  - intros Hclean. rewrite (Evaluate_clean _ _ rng Hclean) in Heval.
    congruence.
Qed.

(** A bit-string algorithm whose selection asks for no sample at all:
    the fitness is the number of set bits. *)
Lemma Ga_step_empty_pool_witness :
  let ga :=
    Ga.mk (1 # 5) (4 # 5)
      (λ (v : list bool) (g : Tape),
         (inject_Z (Z.of_nat (length (filter Is_true v))), g))
      (SelectionSus SelectionSize_default)
      CrossoverUniform (MutationFlip (1 # 10))
      (ReplacementElitist (SelectionSize_percentage (3 # 5)))
      TerminationStagnation.call (TerminationStagnation.new 10) in
  let pop := [mkIndividual [true; false] (-1); mkIndividual [true; true] 2] in
  let pop1 := [mkIndividual [true; false] 1; mkIndividual [true; true] 2] in
  Ga.step ga pop ([5; 6]%N : Tape) = Some (false, ga, pop1, [6]%N) ∧
  data <$> pop1 = data <$> pop ∧
  Forall2 (λ it it', if is_dirty it then (0 <= fitness it')%Q
                     else it' = it) pop pop1 ∧
  (∀ i it, pop !! i = Some it →
     pop1 !! i
       = Some (if is_dirty it
               then mkIndividual (data it)
                      (Ga.evaluation ga (data it)
                         (Evaluate_rng (Ga.evaluation ga) (take i pop)
                            ([5; 6]%N : Tape))).1
               else it)) ∧
  ([5; 6]%N : Tape) = Evaluate_rng (Ga.evaluation ga) pop ([5; 6]%N : Tape) ∧
  (Forall (λ it, is_dirty it = false) pop → pop1 = pop).
Proof.
  intros ga pop pop1.
  apply (Ga_step_empty_pool ga pop pop1 pop1
           ([5; 6]%N : Tape) ([5; 6]%N : Tape) ([6]%N : Tape)).
  - reflexivity.
  - reflexivity.
  - discriminate.
  - vm_compute. reflexivity.
  - vm_compute. reflexivity.
Defined.

(** The claim fails where the population holds a dirty individual: the
    step returns false on an empty pool, and the population has been
    written to, the stale fitness -1 is now the evaluated fitness 1. *)
Lemma Ga_step_empty_pool_counterexample :
  let ga :=
    Ga.mk (1 # 5) (4 # 5)
      (λ (v : list bool) (g : Tape),
         (inject_Z (Z.of_nat (length (filter Is_true v))), g))
      (SelectionSus SelectionSize_default)
      CrossoverUniform (MutationFlip (1 # 10))
      (ReplacementElitist (SelectionSize_percentage (3 # 5)))
      TerminationStagnation.call (TerminationStagnation.new 10) in
  let pop := [mkIndividual [true; false] (-1)] in
  SelectionSus SelectionSize_default [mkIndividual [true; false] 1] []
    ([5]%N : Tape) = Some ([mkIndividual [true; false] 1], [], []) ∧
  (λ r, (r.1.1.1, r.1.2)) <$> Ga.step ga pop ([5]%N : Tape)
    = Some (false, [mkIndividual [true; false] 1]) ∧
  [mkIndividual [true; false] 1] ≠ pop.
Proof. vm_compute. repeat split; discriminate. Qed.

(** ** The distribution update of PBIL *)

Section PbilFacts.
Context `{RandomSource Rng} `{StdSort}.
Implicit Types pop : Population (list bool).
Implicit Types self : PbilUpdate.t.

Lemma set_count_S pop n i it :
  pop !! n = Some it →
  set_count pop (S n) i
    = set_count pop n i
      + (if bool_decide (data it !! i = Some true) then 1 else 0).
Proof.
  intros Hit. unfold set_count.
  rewrite (take_S_r _ _ _ Hit), filter_app, length_app. f_equal.
  rewrite filter_cons, filter_nil.
  case_bool_decide; by rewrite decide_bool_decide; case_bool_decide.
Qed.

(** The inner loop adds [lr] once for every set bit among the best. *)
Lemma PbilUpdate_best_loop_spec pop i lr n (p0 : Q) :
  n ≤ length pop →
  Forall (λ it, i < length (data it)) pop →
  ∃ p, for_range n 0 (PbilUpdate.best_body pop i lr) p0 = Some p ∧
       (p == p0 + inject_Z (Z.of_nat (set_count pop n i)) * lr)%Q.
Proof.
  intros Hn Hbits.
  destruct (for_range_inv
    (λ k p, (p == p0 + inject_Z (Z.of_nat (set_count pop k i)) * lr)%Q)
    (PbilUpdate.best_body pop i lr) n 0 p0) as (p & Hrun & Hp).
  - simpl. unfold set_count. rewrite take_0. simpl. ring.
  - intros j p Hj Hp.
    destruct (lookup_lt_is_Some_2 pop j ltac:(lia)) as [it Hit].
    assert (i < length (data it)) as Hlen.
    { rewrite Forall_lookup in Hbits. by apply (Hbits j). }
    destruct (lookup_lt_is_Some_2 (data it) i Hlen) as [b Hb].
    unfold PbilUpdate.best_body. rewrite Hit. simpl. rewrite Hb. simpl.
    eexists. split; [done |].
    rewrite (set_count_S pop j i it Hit), Hb.
    destruct b; case_bool_decide; try done.
    + rewrite Hp, Nat2Z.inj_add, inject_Z_plus. simpl. ring.
    + rewrite Hp, Nat.add_0_r. reflexivity.
  - by exists p.
Qed.

Lemma pbil_nudge_proper shift m f (p p' : Q) :
  (p == p')%Q → (pbil_nudge shift m f p == pbil_nudge shift m f p')%Q.
Proof. intros Hp. unfold pbil_nudge. destruct m, f; by rewrite Hp. Qed.

Lemma PbilUpdate_mutate_spec self (p : Q) (rng : Rng) :
  PbilUpdate.mutate self p rng
    = (pbil_nudge (PbilUpdate.mutation_shift self)
         (bernoulli (PbilUpdate.mutation_prob self) rng).1
         (bernoulli (1 # 2)
            (bernoulli (PbilUpdate.mutation_prob self) rng).2).1 p,
       if (bernoulli (PbilUpdate.mutation_prob self) rng).1
       then (bernoulli (1 # 2)
               (bernoulli (PbilUpdate.mutation_prob self) rng).2).2
       else (bernoulli (PbilUpdate.mutation_prob self) rng).2).
Proof.
  unfold PbilUpdate.mutate, pbil_nudge.
  destruct (bernoulli (PbilUpdate.mutation_prob self) rng) as [[] g1];
    simpl; [| done].
  by destruct (bernoulli (1 # 2) g1) as [[] g2].
Qed.

(** The result of the two clamping calls lies between the bounds. *)
Lemma clamp_range (p lo hi : Q) :
  (lo <= hi)%Q →
  (lo <= std_min (std_max p lo) hi)%Q ∧ (std_min (std_max p lo) hi <= hi)%Q.
Proof.
  intros Hbounds. unfold std_min, std_max.
  destruct (Qlt_bool p lo) eqn:Hlo.
  - destruct (Qlt_bool hi lo) eqn:Hhi.
    + apply Qlt_bool_iff in Hhi. by apply Qlt_not_le in Hhi.
    + split; [apply Qle_refl | done].
  - assert (lo <= p)%Q as Hp.
    { apply Qnot_lt_le. intros Hlt. apply Qlt_bool_iff in Hlt. congruence. }
    destruct (Qlt_bool hi p) eqn:Hhi.
    + split; [done | apply Qle_refl].
    + split; [done |]. apply Qnot_lt_le. intros Hlt.
      apply Qlt_bool_iff in Hlt. congruence.
Qed.

(** One position of the update. *)
Lemma PbilUpdate_body_spec self pop i (cur : list Q) old (g : Rng) :
  0 < PbilUpdate.best_count self ≤ length pop →
  Forall (λ it, i < length (data it)) pop →
  cur !! i = Some old →
  ∃ p,
    PbilUpdate.body self pop i (cur, g)
      = Some (<[i := std_min (std_max p (PbilUpdate.lower_bound self))
                       (PbilUpdate.upper_bound self)]> cur,
              if (bernoulli (PbilUpdate.mutation_prob self) g).1
              then (bernoulli (1 # 2)
                      (bernoulli (PbilUpdate.mutation_prob self) g).2).2
              else (bernoulli (PbilUpdate.mutation_prob self) g).2) ∧
    (p == pbil_nudge (PbilUpdate.mutation_shift self)
            (bernoulli (PbilUpdate.mutation_prob self) g).1
            (bernoulli (1 # 2)
               (bernoulli (PbilUpdate.mutation_prob self) g).2).1
            (pbil_blend (PbilUpdate.rate self) old
               (set_count pop (PbilUpdate.best_count self) i)
               (PbilUpdate.best_count self)))%Q.
Proof.
  intros Hbest Hbits Hold.
  destruct (PbilUpdate_best_loop_spec pop i
              (PbilUpdate.rate self
               / inject_Z (Z.of_nat (PbilUpdate.best_count self)))
              (PbilUpdate.best_count self)
              (old * (1 - PbilUpdate.rate self))%Q)
    as (p1 & Hloop & Hp1); [lia | done |].
  unfold PbilUpdate.body. rewrite Hold. simpl. rewrite Hloop. simpl.
  rewrite (PbilUpdate_mutate_spec self p1 g).
  eexists. split; [reflexivity |].
  apply pbil_nudge_proper.
  rewrite Hp1. unfold pbil_blend, Qdiv. ring.
Qed.
End PbilFacts.

(** C5, as the code has it.  The update sorts the population descending
    by fitness and then, position by position, replaces the probability
    [old] by the clamped value of [p], where [p] starts as the blend of
    [old] (weight [1 - rate]) and the frequency of set bits among the
    [best_count] best individuals (weight [rate]); when the draw with
    probability [mutation_prob] succeeds, [p] is scaled by
    [1 - mutation_shift], and a second, fair draw decides whether
    [mutation_shift] is added: the mutation moves [p] towards 0 or towards
    1 by the fraction [mutation_shift] of the distance, it does not add or
    subtract [mutation_shift].  With [lower_bound <= upper_bound] the
    stored value lies between the bounds.  The first part is the body of
    the loop with the draws it makes, the second the whole update. *)
Theorem PbilUpdate_spec `{RandomSource Rng} `{StdSort}
    (self : PbilUpdate.t) (prob : list Q) (pop : Population (list bool))
    (rng : Rng) :
  0 < PbilUpdate.best_count self ≤ length pop →
  Forall (λ it, length prob ≤ length (data it)) pop →
  (∀ i old (cur : list Q) (g : Rng),
     i < length prob → cur !! i = Some old →
     ∃ p,
       PbilUpdate.body self (sort_greater pop) i (cur, g)
         = Some (<[i := std_min (std_max p (PbilUpdate.lower_bound self))
                          (PbilUpdate.upper_bound self)]> cur,
                 if (bernoulli (PbilUpdate.mutation_prob self) g).1
                 then (bernoulli (1 # 2)
                         (bernoulli (PbilUpdate.mutation_prob self) g).2).2
                 else (bernoulli (PbilUpdate.mutation_prob self) g).2) ∧
       (p == pbil_nudge (PbilUpdate.mutation_shift self)
               (bernoulli (PbilUpdate.mutation_prob self) g).1
               (bernoulli (1 # 2)
                  (bernoulli (PbilUpdate.mutation_prob self) g).2).1
               (pbil_blend (PbilUpdate.rate self) old
                  (set_count (sort_greater pop)
                     (PbilUpdate.best_count self) i)
                  (PbilUpdate.best_count self)))%Q) ∧
  ∃ prob' rng',
    PbilUpdate.call self prob pop rng
      = Some (prob', sort_greater pop, rng') ∧
    sort_greater pop ≡ₚ pop ∧
    StronglySorted fitness_ge (sort_greater pop) ∧
    length prob' = length prob ∧
    ∀ i old, prob !! i = Some old →
      ∃ m f p,
        prob' !! i
          = Some (std_min (std_max p (PbilUpdate.lower_bound self))
                    (PbilUpdate.upper_bound self)) ∧
        (p == pbil_nudge (PbilUpdate.mutation_shift self) m f
                (pbil_blend (PbilUpdate.rate self) old
                   (set_count (sort_greater pop)
                      (PbilUpdate.best_count self) i)
                   (PbilUpdate.best_count self)))%Q ∧
        ((PbilUpdate.lower_bound self <= PbilUpdate.upper_bound self)%Q →
         (PbilUpdate.lower_bound self
            <= std_min (std_max p (PbilUpdate.lower_bound self))
                 (PbilUpdate.upper_bound self))%Q ∧
         (std_min (std_max p (PbilUpdate.lower_bound self))
            (PbilUpdate.upper_bound self)
            <= PbilUpdate.upper_bound self)%Q).
Proof.
  intros Hbest Hbits.
  pose proof (sort_greater_perm _ pop) as Hperm.
  assert (length (sort_greater pop) = length pop) as Hlen
    by (by rewrite Hperm).
  assert (∀ i, i < length prob →
            Forall (λ it, i < length (data it)) (sort_greater pop))
    as Hsorted_bits.
  { intros i Hi. rewrite Hperm.
    eapply Forall_impl; [exact Hbits |]. simpl. intros it Hit. lia. }
  assert (∀ i old (cur : list Q) (g : Rng),
     i < length prob → cur !! i = Some old →
     ∃ p,
       PbilUpdate.body self (sort_greater pop) i (cur, g)
         = Some (<[i := std_min (std_max p (PbilUpdate.lower_bound self))
                          (PbilUpdate.upper_bound self)]> cur,
                 if (bernoulli (PbilUpdate.mutation_prob self) g).1
                 then (bernoulli (1 # 2)
                         (bernoulli (PbilUpdate.mutation_prob self) g).2).2
                 else (bernoulli (PbilUpdate.mutation_prob self) g).2) ∧
       (p == pbil_nudge (PbilUpdate.mutation_shift self)
               (bernoulli (PbilUpdate.mutation_prob self) g).1
               (bernoulli (1 # 2)
                  (bernoulli (PbilUpdate.mutation_prob self) g).2).1
               (pbil_blend (PbilUpdate.rate self) old
                  (set_count (sort_greater pop)
                     (PbilUpdate.best_count self) i)
                  (PbilUpdate.best_count self)))%Q) as Hstep.
  { intros i old cur g Hi Hold.
    apply PbilUpdate_body_spec; [lia | by apply Hsorted_bits | done]. }
  split; [exact Hstep |].
  unfold PbilUpdate.call.
  rewrite (proj2 (Nat.ltb_lt _ _)), (proj2 (Nat.leb_le _ _)) by lia. simpl.
  destruct (for_range_inv
    (λ k (s : list Q * Rng),
       length s.1 = length prob ∧
       (∀ i, k ≤ i → s.1 !! i = prob !! i) ∧
       (∀ i old, i < k → prob !! i = Some old →
          ∃ m f p,
            s.1 !! i
              = Some (std_min (std_max p (PbilUpdate.lower_bound self))
                        (PbilUpdate.upper_bound self)) ∧
            (p == pbil_nudge (PbilUpdate.mutation_shift self) m f
                    (pbil_blend (PbilUpdate.rate self) old
                       (set_count (sort_greater pop)
                          (PbilUpdate.best_count self) i)
                       (PbilUpdate.best_count self)))%Q))
    (PbilUpdate.body self (sort_greater pop)) (length prob) 0 (prob, rng))
    as ([prob' rng'] & Hrun & Hl & _ & Hdone).
  - simpl. repeat split; try done. intros; lia.
  - intros k [cur g] Hk (Hl & Hrest & Hdone). simpl in *.
    destruct (lookup_lt_is_Some_2 prob k ltac:(lia)) as [old Hold].
    destruct (Hstep k old cur g) as (p & Hbody & Hp);
      [lia | by rewrite Hrest |].
    eexists. split; [exact Hbody |]. simpl.
    rewrite length_insert. repeat split; [done | |].
    + intros i Hi. rewrite list_lookup_insert_ne by lia. apply Hrest. lia.
    + intros i old' Hi Hold'. destruct (decide (i = k)) as [->|Hne].
      * assert (old' = old) as -> by congruence.
        eexists _, _, p. split; [| exact Hp].
        apply list_lookup_insert_eq. lia.
      * rewrite list_lookup_insert_ne by done. apply Hdone; [lia | done].
  - simpl in *. rewrite Hrun. simpl.
    exists prob', rng'. repeat split; try done.
    + apply sort_greater_sorted.
    + intros i old Hold.
      destruct (Hdone i old) as (m & f & p & Hi & Hp);
        [by eapply lookup_lt_Some | done |].
      exists m, f, p. repeat split; try done; by apply clamp_range.
Qed.

Lemma PbilUpdate_spec_witness :
  ∃ prob' rng',
    PbilUpdate.call (PbilUpdate.mk (1 # 10) 1 1 (1 # 10) 0 1)
      [1 # 2; 1 # 2]
      [mkIndividual [false; true] 1; mkIndividual [true; true] 2]
      ([0; 0; 0; 900]%N : Tape)
      = Some (prob',
              sort_greater
                [mkIndividual [false; true] 1; mkIndividual [true; true] 2],
              rng') ∧
    length prob' = 2.
Proof.
  destruct (PbilUpdate_spec (PbilUpdate.mk (1 # 10) 1 1 (1 # 10) 0 1)
              [1 # 2; 1 # 2]
              [mkIndividual [false; true] 1; mkIndividual [true; true] 2]
              ([0; 0; 0; 900]%N : Tape))
    as (_ & prob' & rng' & Hcall & _ & _ & Hlen & _).
  - simpl. lia.
  - repeat constructor.
  - exists prob', rng'. split; [exact Hcall | exact Hlen].
Defined.

(** The claim fails on the mutation.  One position with probability 1/2,
    learning rate 1/10, the best individual with its bit set: the blend is
    11/20.  A mutation with shift 1/10 gives 119/200 when the fair draw
    succeeds and 99/200 when it fails, neither 11/20 + 1/10 nor
    11/20 - 1/10. *)
Lemma PbilUpdate_nudge_counterexample :
  PbilUpdate.call (PbilUpdate.mk (1 # 10) 1 0 (1 # 10) 0 1) [1 # 2]
    [mkIndividual [true] 1] ([0; 0]%N : Tape)
    = Some ([110 # 200], [mkIndividual [true] 1], [0%N]) ∧
  PbilUpdate.call (PbilUpdate.mk (1 # 10) 1 1 (1 # 10) 0 1) [1 # 2]
    [mkIndividual [true] 1] ([0; 0]%N : Tape)
    = Some ([11900 # 20000], [mkIndividual [true] 1], []) ∧
  PbilUpdate.call (PbilUpdate.mk (1 # 10) 1 1 (1 # 10) 0 1) [1 # 2]
    [mkIndividual [true] 1] ([0; 900]%N : Tape)
    = Some ([990 # 2000], [mkIndividual [true] 1], []) ∧
  ¬ (11900 # 20000 == (110 # 200) + (1 # 10))%Q ∧
  ¬ (11900 # 20000 == (110 # 200) - (1 # 10))%Q ∧
  ¬ (990 # 2000 == (110 # 200) + (1 # 10))%Q ∧
  ¬ (990 # 2000 == (110 # 200) - (1 # 10))%Q.
Proof. vm_compute. repeat split; discriminate. Qed.

(** ** Migration *)

Section MigrationFacts.
Context `{RandomSource Rng} {T GaT : Type}.
Implicit Types islands : list (Island.t T GaT).
Implicit Types src dst isl : Island.t T GaT.
Implicit Types p l : Population T.

(** Replacing an island exchanges its individuals for the new ones. *)
Lemma individuals_insert islands i src isl :
  islands !! i = Some src →
  individuals (<[i := isl]> islands) ++ Island.pop src
    ≡ₚ individuals islands ++ Island.pop isl.
Proof.
  unfold individuals. revert i.
  induction islands as [|a islands IH]; intros [|i] Hi; simplify_eq/=.
  - solve_Permutation.
  - rewrite <- !app_assoc. by rewrite (IH i Hi).
Qed.

(** An elementary change keeps the number of islands, the algorithm of
    every island and the individuals of all islands together. *)
Lemma migrate_step_preserves islands islands' :
  migrate_step islands islands' →
  length islands' = length islands ∧
  Island.ga <$> islands' = Island.ga <$> islands ∧
  individuals islands' ≡ₚ individuals islands.
Proof.
  destruct 1 as [islands i src p Hsrc Hp|islands i j src dst l1 x l2
                   Hne Hsrc Hdst Hpop].
  - rewrite length_insert. repeat split.
    + rewrite list_fmap_insert. simpl. apply list_insert_id.
      by rewrite list_lookup_fmap, Hsrc.
    + apply (Permutation_app_inv_r (Island.pop src)).
      rewrite (individuals_insert _ _ _ _ Hsrc). simpl. by rewrite Hp.
  - rewrite !length_insert. repeat split.
    + rewrite !list_fmap_insert. simpl.
      rewrite (list_insert_id _ j); [apply list_insert_id |].
      * by rewrite list_lookup_fmap, Hsrc.
      * rewrite list_lookup_insert_ne by done.
        by rewrite list_lookup_fmap, Hdst.
    + assert (<[i := Island.set_pop src (l1 ++ l2)]> islands !! j
                = Some dst) as Hdst'
        by (by rewrite list_lookup_insert_ne).
      pose proof (individuals_insert _ _ _
                    (Island.set_pop dst (Island.pop dst ++ [x])) Hdst')
        as Hj.
      pose proof (individuals_insert _ _ _
                    (Island.set_pop src (l1 ++ l2)) Hsrc) as Hi.
      simpl in Hj, Hi. rewrite Hpop in Hi.
      apply (Permutation_app_inv_r (Island.pop dst ++ l1 ++ x :: l2)).
      rewrite (app_assoc _ (Island.pop dst)), Hj.
      transitivity
        ((individuals (<[i := Island.set_pop src (l1 ++ l2)]> islands)
          ++ l1 ++ x :: l2) ++ Island.pop dst ++ [x]);
        [solve_Permutation |].
      rewrite Hi. solve_Permutation.
Qed.

Lemma migrate_preserves islands islands' :
  rtc migrate_step islands islands' →
  length islands' = length islands ∧
  Island.ga <$> islands' = Island.ga <$> islands ∧
  individuals islands' ≡ₚ individuals islands.
Proof.
  induction 1 as [|a b c Hstep _ (Hl & Hg & Hp)]; [done |].
  destruct (migrate_step_preserves _ _ Hstep) as (Hl' & Hg' & Hp').
  repeat split; [congruence | congruence | by rewrite Hp, Hp'].
Qed.
(** Two vectors of islands built by assignments to single islands are
    equal when they agree island by island. *)
Ltac islands_ext :=
  apply list_eq; intros ?;
  rewrite ?list_lookup_insert, ?length_insert;
  repeat (case_decide; simplify_eq/=);
  try done; try (exfalso; intuition lia).

(** Several individuals leaving the back of one population for another
    island are moved one after the other. *)
Lemma migrate_bulk islands i j src dst l1 l2 :
  i ≠ j →
  islands !! i = Some src → islands !! j = Some dst →
  Island.pop src = l1 ++ l2 →
  rtc migrate_step islands
    (<[j := Island.set_pop dst (Island.pop dst ++ l2)]>
       (<[i := Island.set_pop src l1]> islands)).
Proof.
  intros Hne. revert islands src dst l1.
  induction l2 as [|x l2 IH]; intros islands src dst l1 Hsrc Hdst Hpop.
  - rewrite !app_nil_r in *.
    replace (Island.set_pop dst (Island.pop dst)) with dst by (by destruct dst).
    replace (Island.set_pop src l1) with src
      by (destruct src; simpl in *; by subst).
    rewrite (list_insert_id _ i) by done.
    by rewrite list_insert_id.
  - eapply rtc_l; [by eapply (migrate_move islands i j src dst l1 x l2) |].
    pose proof (lookup_lt_Some _ _ _ Hsrc) as Hi.
    pose proof (lookup_lt_Some _ _ _ Hdst) as Hj.
    pose proof (IH
      (<[j := Island.set_pop dst (Island.pop dst ++ [x])]>
         (<[i := Island.set_pop src (l1 ++ l2)]> islands))
      (Island.set_pop src (l1 ++ l2))
      (Island.set_pop dst (Island.pop dst ++ [x])) l1) as Hrest.
    simpl in Hrest. rewrite <- app_assoc in Hrest. simpl in Hrest.
    replace (<[j := Island.set_pop dst (Island.pop dst ++ x :: l2)]>
               (<[i := Island.set_pop src l1]> islands))
      with (<[j := Island.set_pop dst (Island.pop dst ++ x :: l2)]>
              (<[i := Island.set_pop src l1]>
                 (<[j := Island.set_pop dst (Island.pop dst ++ [x])]>
                    (<[i := Island.set_pop src (l1 ++ l2)]> islands))))
      by islands_ext.
    apply Hrest; [| | done].
    + rewrite list_lookup_insert_ne by done.
      by rewrite list_lookup_insert_eq.
    + rewrite list_lookup_insert_eq; [done |]. by rewrite length_insert.
Qed.
Lemma erase_tail_spec islands i src count :
  islands !! i = Some src → count ≤ length (Island.pop src) →
  erase_tail islands i count
    = Some (<[i := Island.set_pop src
                 (take (length (Island.pop src) - count) (Island.pop src))]>
              islands).
Proof.
  intros Hsrc Hcount. unfold erase_tail. rewrite Hsrc. simpl.
  by rewrite (proj2 (Nat.leb_le _ _) Hcount).
Qed.

(** One island of the ring: its population is rearranged and its last
    [count] individuals move to the successor. *)
Lemma MigrationRing_body_spec size islands i (rng : Rng) :
  SelectionSize_valid size → 2 ≤ length islands → i < length islands →
  ∃ islands' rng',
    MigrationRing_body size (length islands) i (islands, rng)
      = Some (islands', rng') ∧
    rtc migrate_step islands islands'.
Proof.
  intros Hvalid Hn Hi.
  destruct (lookup_lt_is_Some_2 islands i Hi) as [src Hsrc].
  unfold MigrationRing_body. rewrite Hsrc. simpl.
  pose proof (shuffle_perm _ (Island.pop src) rng) as Hperm.
  destruct (shuffle (Island.pop src) rng) as [p rng']. simpl in Hperm.
  destruct (SelectionSize_call_Some size (length p) Hvalid)
    as (count & -> & Hcount). simpl.
  set (index := if length islands <=? i + 1 then 0 else i + 1).
  assert (index ≠ i ∧ index < length islands) as [Hne Hindex].
  { unfold index. destruct (length islands <=? i + 1) eqn:Hcmp.
    - apply Nat.leb_le in Hcmp. lia.
    - apply Nat.leb_gt in Hcmp. lia. }
  destruct (lookup_lt_is_Some_2 islands index Hindex) as [dst Hdst].
  rewrite list_lookup_insert_ne by done. rewrite Hdst. simpl.
  rewrite (erase_tail_spec _ i (Island.set_pop src p)); simpl; [| | done].
  2:{ rewrite list_lookup_insert_ne by done.
      by rewrite list_lookup_insert_eq. }
  eexists _, _. split; [done |].
  eapply rtc_l; [by apply (migrate_shuffle islands i src p) |].
  pose proof (migrate_bulk (<[i := Island.set_pop src p]> islands)
                i index (Island.set_pop src p) dst
                (take (length p - count) p) (drop (length p - count) p))
    as Hbulk.
  simpl in Hbulk.
  replace (<[i := Island.set_pop src (take (length p - count) p)]>
             (<[index := Island.set_pop dst
                           (Island.pop dst ++ drop (length p - count) p)]>
                (<[i := Island.set_pop src p]> islands)))
    with (<[index := Island.set_pop dst
                       (Island.pop dst ++ drop (length p - count) p)]>
            (<[i := Island.set_pop src (take (length p - count) p)]>
               (<[i := Island.set_pop src p]> islands)))
    by islands_ext.
  apply Hbulk; [done | | | by rewrite take_drop].
  - by rewrite list_lookup_insert_eq.
  - by rewrite list_lookup_insert_ne.
Qed.

(** One island of the random migration: its population is rearranged
    and each of its last [count] individuals moves to some other island. *)
Lemma MigrationRandom_body_spec size islands i (rng : Rng) :
  SelectionSize_valid size → 2 ≤ length islands → i < length islands →
  ∃ islands' rng',
    MigrationRandom_body size (length islands) i (islands, rng)
      = Some (islands', rng') ∧
    rtc migrate_step islands islands'.
Proof.
  intros Hvalid Hn Hi.
  destruct (lookup_lt_is_Some_2 islands i Hi) as [src Hsrc].
  unfold MigrationRandom_body. rewrite Hsrc. simpl.
  pose proof (shuffle_perm _ (Island.pop src) rng) as Hperm.
  destruct (shuffle (Island.pop src) rng) as [p rng1]. simpl in Hperm.
  destruct (SelectionSize_call_Some size (length p) Hvalid)
    as (count & -> & Hcount). simpl.
  set (lo := length p - count).
  set (islands1 := <[i := Island.set_pop src p]> islands).
  destruct (for_range_inv
    (λ k (s : list (Island.t T GaT) * Rng),
       length s.1 = length islands ∧
       s.1 !! i = Some (Island.set_pop src p) ∧
       rtc migrate_step islands1
         (<[i := Island.set_pop src (take lo p ++ drop k p)]> s.1))
    (MigrationRandom_move (length islands) i) count lo (islands1, rng1))
    as ([islands2 rng2] & Hrun & Hlen2 & Hsrc2 & Hreach).
  - simpl. unfold islands1. rewrite length_insert.
    repeat split; [by rewrite list_lookup_insert_eq |].
    rewrite take_drop, list_insert_insert_eq. done.
  - intros k [cur g] Hk (Hlen & Hcur & Hreach). simpl in *.
    unfold MigrationRandom_move. rewrite Hcur. simpl.
    destruct (lookup_lt_is_Some_2 p k ltac:(lia)) as [x Hx].
    rewrite Hx. simpl.
    pose proof (uniform_int_range 1 (N.of_nat (length islands) - 1) g
                  ltac:(lia)) as Hrange.
    destruct (uniform_int 1 (N.of_nat (length islands) - 1) g)
      as [index g']. simpl in Hrange.
    set (j := if (index =? N.of_nat i)%N then 0 else N.to_nat index).
    assert (j ≠ i ∧ j < length islands) as [Hne Hj].
    { unfold j. destruct (index =? N.of_nat i)%N eqn:Hcmp.
      - apply N.eqb_eq in Hcmp. lia.
      - apply N.eqb_neq in Hcmp. lia. }
    destruct (lookup_lt_is_Some_2 cur j ltac:(lia)) as [dst Hdst].
    unfold push_back. rewrite Hdst. simpl.
    eexists. split; [done |]. simpl. rewrite length_insert.
    repeat split; [done | by rewrite list_lookup_insert_ne |].
    eapply rtc_r; [exact Hreach |].
    replace (<[i := Island.set_pop src (take lo p ++ drop (S k) p)]>
               (<[j := Island.set_pop dst (Island.pop dst ++ [x])]> cur))
      with (<[j := Island.set_pop dst (Island.pop dst ++ [x])]>
              (<[i := Island.set_pop
                         (Island.set_pop src (take lo p ++ drop k p))
                         (take lo p ++ drop (S k) p)]>
                 (<[i := Island.set_pop src (take lo p ++ drop k p)]> cur)))
      by islands_ext.
    apply migrate_move; [done | | |].
    + apply list_lookup_insert_eq. lia.
    + by rewrite list_lookup_insert_ne.
    + simpl. by rewrite (drop_S _ _ _ Hx).
  - simpl in *. rewrite Hrun. simpl.
    rewrite (erase_tail_spec _ i (Island.set_pop src p)); simpl;
      [| done | done].
    eexists _, _. split; [done |].
    eapply rtc_l; [by apply (migrate_shuffle islands i src p) |].
    fold islands1. fold lo.
    replace (lo + count) with (length p) in Hreach by lia.
    by rewrite drop_all, app_nil_r in Hreach.
Qed.
End MigrationFacts.

(** C9. Migration moves individuals, it neither copies nor loses them.
    On a vector of at least two islands and for every size that passes
    the assertion of [SelectionSize], the random and the ring migration
    return, and the islands afterwards are reached from the islands before
    by elementary changes only, each of which rearranges one island or
    takes one individual out of the population of an island and adds it to
    the population of another island.  Hence the number of islands and
    the algorithm of every island are unchanged, and the individuals of
    all islands together are the same multiset as before. *)
Theorem migration_preserves_individuals `{RandomSource Rng} {T GaT : Type}
    (size : SelectionSize) (islands : list (Island.t T GaT)) (rng : Rng) :
  2 ≤ length islands → SelectionSize_valid size →
  (∃ islands' rng',
     MigrationRandom size islands rng = Some (islands', rng') ∧
     rtc migrate_step islands islands' ∧
     length islands' = length islands ∧
     Island.ga <$> islands' = Island.ga <$> islands ∧
     individuals islands' ≡ₚ individuals islands) ∧
  (∃ islands' rng',
     MigrationRing size islands rng = Some (islands', rng') ∧
     rtc migrate_step islands islands' ∧
     length islands' = length islands ∧
     Island.ga <$> islands' = Island.ga <$> islands ∧
     individuals islands' ≡ₚ individuals islands).
Proof.
  intros Hn Hvalid.
  assert (∀ body,
    (∀ cur i (g : Rng), length cur = length islands → i < length islands →
       ∃ cur' g', body i (cur, g) = Some (cur', g') ∧
                  rtc migrate_step cur cur') →
    ∃ islands' rng',
      for_range (length islands) 0 body (islands, rng)
        = Some (islands', rng') ∧
      rtc migrate_step islands islands') as Hloop.
  { intros body Hbody.
    destruct (for_range_inv
      (λ _ (s : list (Island.t T GaT) * Rng),
         length s.1 = length islands ∧ rtc migrate_step islands s.1)
      body (length islands) 0 (islands, rng))
      as ([islands' rng'] & Hrun & _ & Hreach).
    - done.
    - intros i [cur g] Hi [Hlen Hreach]. simpl in *.
      destruct (Hbody cur i g) as (cur' & g' & Hstep & Hcur');
        [done | lia |].
      eexists. split; [exact Hstep |]. simpl. split.
      + destruct (migrate_preserves _ _ Hcur') as [-> _]. done.
      + by etrans.
    - by exists islands', rng'. }
  split.
  - destruct (Hloop (MigrationRandom_body size (length islands)))
      as (islands' & rng' & Hrun & Hreach).
    { intros cur i g Hlen Hi. rewrite <- Hlen.
      apply MigrationRandom_body_spec; [done | lia | lia]. }
    exists islands', rng'. unfold MigrationRandom.
    rewrite (proj2 (Nat.ltb_lt _ _)) by lia. simpl.
    destruct (migrate_preserves _ _ Hreach) as (? & ? & ?). done.
  - destruct (Hloop (MigrationRing_body size (length islands)))
      as (islands' & rng' & Hrun & Hreach).
    { intros cur i g Hlen Hi. rewrite <- Hlen.
      apply MigrationRing_body_spec; [done | lia | lia]. }
    exists islands', rng'. unfold MigrationRing.
    rewrite (proj2 (Nat.ltb_lt _ _)) by lia. simpl.
    destruct (migrate_preserves _ _ Hreach) as (? & ? & ?). done.
Qed.

Lemma migration_preserves_individuals_witness :
  let islands :=
    [Island.mk [mkIndividual 1 1; mkIndividual 2 2] ();
     Island.mk [mkIndividual 3 3] ();
     Island.mk [mkIndividual 4 4; mkIndividual 5 5] ()] in
  (∃ islands' rng',
     MigrationRandom (SelectionSize_count 1) islands
       ([1; 7; 0; 4; 2; 5]%N : Tape) = Some (islands', rng') ∧
     rtc migrate_step islands islands' ∧
     length islands' = length islands ∧
     Island.ga <$> islands' = Island.ga <$> islands ∧
     individuals islands' ≡ₚ individuals islands) ∧
  (∃ islands' rng',
     MigrationRing (SelectionSize_count 1) islands
       ([1; 7; 0; 4; 2; 5]%N : Tape) = Some (islands', rng') ∧
     rtc migrate_step islands islands' ∧
     length islands' = length islands ∧
     Island.ga <$> islands' = Island.ga <$> islands ∧
     individuals islands' ≡ₚ individuals islands).
Proof.
  intros islands.
  apply (migration_preserves_individuals (SelectionSize_count 1) islands
           ([1; 7; 0; 4; 2; 5]%N : Tape)).
  - simpl. lia.
  - left. reflexivity.
Defined.

(** Three islands, one migrant each.  In the ring the migrant of
    island 0 reaches island 1, where the rearrangement decides who moves
    on; in the random migration an individual that arrived can be sent on
    by the island it arrived at. *)
Example migration_example :
  let islands :=
    [Island.mk [mkIndividual 1 1; mkIndividual 2 2] ();
     Island.mk [mkIndividual 3 3] ();
     Island.mk [mkIndividual 4 4; mkIndividual 5 5] ()] in
  MigrationRing (SelectionSize_count 1) islands ([0; 1; 1]%N : Tape)
    = Some ([Island.mk [mkIndividual 1 1; mkIndividual 4 4] ();
             Island.mk [mkIndividual 2 2] ();
             Island.mk [mkIndividual 5 5; mkIndividual 3 3] ()], []) ∧
  MigrationRandom (SelectionSize_count 1) islands
    ([0; 0; 0; 1; 0; 0]%N : Tape)
    = Some ([Island.mk [mkIndividual 1 1] ();
             Island.mk [mkIndividual 3 3; mkIndividual 2 2] ();
             Island.mk [mkIndividual 4 4; mkIndividual 5 5] ()], []).
Proof. vm_compute. done. Qed.

(** * Further properties of the operators *)

(** ** Loops that append to the destination *)


Lemma for_range_ext {St : Type} (body body' : nat → St → option St) k i s :
  (∀ j s, body j s = body' j s) →
  for_range k i body s = for_range k i body' s.
Proof.
  intros Hext. revert i s. induction k as [|k IH]; intros i s; simpl; [done |].
  rewrite Hext. destruct (body' i s) as [s'|]; simpl; [apply IH | done].
Qed.

(** ** Random, truncation and tournament selection *)

Section SelectionMoreFacts.
Context `{RandomSource Rng} `{StdSort} {T : Type}.
Implicit Types src dst : Population T.




End SelectionMoreFacts.





(** The fitter of two candidates wins each tournament. *)
Example SelectionTournament_example :
  SelectionTournament (SelectionSize_count 2) 2
    [mkIndividual 1 1; mkIndividual 2 2; mkIndividual 3 3] []
    ([0; 1; 2; 0]%N : Tape)
    = Some ([mkIndividual 1 1; mkIndividual 2 2; mkIndividual 3 3],
            [mkIndividual 2 2; mkIndividual 3 3], []).
Proof. vm_compute. reflexivity. Qed.

(** X3. A tournament of size 1 is random selection: on every input the
    two operators return the same result and leave the generator in the
    same state. *)
Theorem SelectionTournament_one_is_random `{RandomSource Rng} {T : Type}
    (size : SelectionSize) (src dst : Population T) (rng : Rng) :
  SelectionTournament size 1 src dst rng = SelectionRandom size src dst rng.
Proof.
  unfold SelectionTournament, SelectionRandom. simpl.
  destruct (SelectionSize_call size (length src)) as [samples|]; [| done].
  simpl.
  rewrite (for_range_ext (Tournament_body 1 src) (SelectionRandom_body src));
    [done |].
  intros j [d g]. unfold Tournament_body, SelectionRandom_body. simpl.
  by destruct (uniform_int 0 (size_t_sub (N.of_nat (length src)) 1) g).
Qed.



(** ** Roulette-wheel selection on a positive total *)

Section WheelFacts.
Context {T : Type}.
Implicit Types src dst : Population T.











End WheelFacts.

Section WheelSelects.
Context `{RandomSource Rng} {T : Type}.
Implicit Types src dst : Population T.

End WheelSelects.




(** A draw of exactly zero picks the first individual although its
    fitness is zero; a draw of 0.9 picks the last one. *)
Example SelectionRouletteWheel_zero_draw :
  SelectionRouletteWheel (SelectionSize_count 2)
    [mkIndividual 10 0; mkIndividual 20 3; mkIndividual 30 1] []
    ([0; 900]%N : Tape)
    = Some ([mkIndividual 10 0; mkIndividual 20 3; mkIndividual 30 1],
            [mkIndividual 10 0; mkIndividual 30 1], []).
Proof. vm_compute. reflexivity. Qed.

(** ** Rank-based selection *)

Section RankFacts.
Context `{RandomSource Rng} `{StdSort} {T : Type}.
Implicit Types src dst tmp : Population T.



End RankFacts.



(** The best individual (fitness 1/2) is selected with the score 3, the
    dirty one with the score 1. *)
Example SelectionRank_example :
  SelectionRank (SelectionRouletteWheel (SelectionSize_count 2))
    (λ rank size : nat, inject_Z (Z.of_nat (size - rank)))
    [mkIndividual 10 0; mkIndividual 20 (-1); mkIndividual 30 (1 # 2)] []
    ([0; 900]%N : Tape)
    = Some ([mkIndividual 10 0; mkIndividual 20 (-1);
             mkIndividual 30 (1 # 2)],
            [mkIndividual 30 3; mkIndividual 20 1], []).
Proof. vm_compute. reflexivity. Qed.

(** ** Evaluation *)

(** X9. When the evaluator never returns a negative fitness, evaluation
    returns and leaves no dirty individual: the population keeps its size
    and its representations, and evaluating it again, with any evaluator,
    changes nothing and does not touch the generator. *)
Theorem Evaluate_cleans {T Rng : Type} (func : T → Rng → Q * Rng)
    (pop : Population T) (rng : Rng) :
  (∀ x g, 0 <= (func x g).1)%Q →
  ∃ pop' rng',
    Evaluate func pop rng = Some (pop', rng') ∧
    Forall (λ it, is_dirty it = false) pop' ∧
    length pop' = length pop ∧
    data <$> pop' = data <$> pop ∧
    ∀ (func' : T → Rng → Q * Rng) (g : Rng),
      Evaluate func' pop' g = Some (pop', g).
Proof.
  intros Hfunc.
  assert (∃ pop' rng', Evaluate func pop rng = Some (pop', rng'))
    as (pop' & rng' & Heval).
  { revert rng. induction pop as [|it pop IH]; intros rng; simpl.
    - by eexists _, _.
    - destruct (is_dirty it).
      + pose proof (Hfunc (data it) rng) as Hf.
        destruct (func (data it) rng) as [f rng1]. simpl in Hf.
        rewrite (Qle_bool_true _ _ Hf). simpl.
        destruct (IH rng1) as (pop1 & rng2 & ->). by eexists _, _.
      + destruct (IH rng) as (pop1 & rng2 & ->). by eexists _, _. }
  exists pop', rng'. split; [done |].
  destruct (Evaluate_spec _ _ _ _ _ Heval) as [Hdata Hall].
  assert (Forall (λ it, is_dirty it = false) pop') as Hclean.
  { clear Heval Hdata. induction Hall as [|it it' pop pop' Hit Hall IH];
      constructor; [| done].
    destruct (is_dirty it) eqn:Hdirty; [| by subst].
    unfold is_dirty. by apply Qlt_bool_false. }
  repeat split; try done.
  - by rewrite <- (length_fmap data pop'), Hdata, length_fmap.
  - intros func' g. by apply Evaluate_clean.
Qed.

Lemma Evaluate_cleans_witness :
  ∃ pop' rng',
    Evaluate (λ (x : nat) (g : Tape), (inject_Z (Z.of_nat x), g))
      [mkIndividual 3 (-1); mkIndividual 5 2] [] = Some (pop', rng') ∧
    Forall (λ it, is_dirty it = false) pop' ∧
    length pop' = 2 ∧
    data <$> pop' = [3; 5] ∧
    ∀ (func' : nat → Tape → Q * Tape) (g : Tape),
      Evaluate func' pop' g = Some (pop', g).
Proof.
  apply (Evaluate_cleans (λ (x : nat) (g : Tape), (inject_Z (Z.of_nat x), g))
           [mkIndividual 3 (-1); mkIndividual 5 2] []).
  intros x g. simpl. change 0%Q with (inject_Z 0).
  rewrite <- Zle_Qle. lia.
Defined.

(** ** The fitness and generation predicates *)

Section PredicateFacts.
Context {T Rng : Type}.
Implicit Types pop : Population T.

(** [max_element] returns an individual of the range that no individual
    of the range exceeds. *)
Lemma max_element_from_spec (largest : Individual T) pop :
  max_element_from largest pop ∈ largest :: pop ∧
  Forall (λ it, fitness it <= fitness (max_element_from largest pop))%Q
    (largest :: pop).
Proof.
  revert largest. induction pop as [|it pop IH]; intros largest; simpl.
  - split; [by left |]. constructor; [apply Qle_refl | constructor].
  - unfold Individual_lt.
    destruct (Qlt_bool (fitness largest) (fitness it)) eqn:Hlt.
    + apply Qlt_bool_iff in Hlt. destruct (IH it) as [Hin Hall].
      split; [by right |].
      apply Forall_cons in Hall as [Hit Hall].
      repeat constructor; [lra | done | done].
    + assert (fitness it <= fitness largest)%Q as Hle.
      { apply Qnot_lt_le. intros Hgt. apply Qlt_bool_iff in Hgt.
        congruence. }
      destruct (IH largest) as [Hin Hall].
      apply Forall_cons in Hall as [Hl Hall].
      split.
      * apply elem_of_cons in Hin as [->|Hin]; [by left |].
        right. by right.
      * repeat constructor; [done | lra | done].
Qed.

Lemma max_element_spec pop best :
  max_element pop = Some best →
  best ∈ pop ∧ Forall (λ it, fitness it <= fitness best)%Q pop.
Proof.
  destruct pop as [|it pop]; [done |]. simpl. intros [= <-].
  apply max_element_from_spec.
Qed.
End PredicateFacts.

(** X10. The fitness predicate never fails and changes nothing; it
    returns true exactly when the population is empty or holds an
    individual whose fitness reaches the target. *)
Theorem TerminationFitness_spec {T Rng : Type}
    (self : TerminationFitness.t) (pop : Population T) (rng : Rng) :
  ∃ b, TerminationFitness.call self pop rng = Some (b, self, pop, rng) ∧
       (b = true ↔
        pop = [] ∨
        Exists (λ it, TerminationFitness.target_fitness self
                        <= fitness it)%Q pop).
Proof.
  unfold TerminationFitness.call.
  destruct (max_element pop) as [best|] eqn:Hbest.
  - destruct (max_element_spec pop best Hbest) as [Hin Hall].
    eexists. split; [done |]. rewrite Qle_bool_iff. split.
    + intros Hle. right. apply Exists_exists. by exists best.
    + intros [->|Hex]; [done |].
      apply Exists_exists in Hex as (it & Hit & Hle).
      rewrite Forall_forall in Hall.
      specialize (Hall it Hit). lra.
  - destruct pop; [| done]. exists true. split; [done |]. by split; [left|].
Qed.

Lemma TerminationGeneration_run_from {T Rng : Type}
    (self : TerminationGeneration.t) (pops : list (Population T))
    (rng : Rng) :
  (TerminationGeneration.curr_generation_ self + Z.of_nat (length pops)
   ≤ INT_MAX)%Z →
  Termination_run TerminationGeneration.call self pops rng
    = Some ((λ j, (TerminationGeneration.max_generations self
                     <=? TerminationGeneration.curr_generation_ self
                         + Z.of_nat j)%Z) <$> seq 1 (length pops),
            TerminationGeneration.mk
              (TerminationGeneration.max_generations self)
              (TerminationGeneration.curr_generation_ self
               + Z.of_nat (length pops))).
Proof.
  revert self rng. induction pops as [|pop pops IH]; intros self rng Hmax.
  - simpl. rewrite Z.add_0_r. by destruct self.
  - simpl in Hmax. cbn [Termination_run].
    assert (TerminationGeneration.call self pop rng
              = Some ((TerminationGeneration.max_generations self
                         <=? TerminationGeneration.curr_generation_ self
                             + 1)%Z,
                      TerminationGeneration.mk
                        (TerminationGeneration.max_generations self)
                        (TerminationGeneration.curr_generation_ self + 1),
                      pop, rng)) as ->.
    { unfold TerminationGeneration.call, int_incr.
      by rewrite (proj2 (Z.ltb_lt _ _)) by lia. }
    simpl. rewrite IH; simpl; [| lia].
    rewrite <- (fmap_S_seq 1), <- list_fmap_compose.
    do 3 f_equal.
    + apply list_fmap_ext. intros _ j _. unfold compose. f_equal. lia.
    + lia.
Qed.

(** X11. The generation predicate counts its calls, whatever the
    populations are: from a fresh predicate with limit [max_generations]
    the [j]-th call returns true exactly when [max_generations <= j], so
    with a limit of at least 1 the first true comes at call
    [max_generations]; the counter is the number of calls made. *)
Theorem TerminationGeneration_counts {T Rng : Type} (max_generations : Z)
    (pops : list (Population T)) (rng : Rng) :
  (Z.of_nat (length pops) ≤ INT_MAX)%Z →
  Termination_run TerminationGeneration.call
    (TerminationGeneration.new max_generations) pops rng
    = Some ((λ j, (max_generations <=? Z.of_nat j)%Z) <$> seq 1 (length pops),
            TerminationGeneration.mk max_generations
              (Z.of_nat (length pops))).
Proof.
  intros Hmax.
  by rewrite TerminationGeneration_run_from.
Qed.

Lemma TerminationGeneration_counts_witness :
  Termination_run TerminationGeneration.call
    (TerminationGeneration.new 2)
    [[mkIndividual () 1]; []; [mkIndividual () 0]] ()
    = Some ((λ j, (2 <=? Z.of_nat j)%Z) <$> seq 1 3,
            TerminationGeneration.mk 2 (Z.of_nat 3)).
Proof.
  apply (TerminationGeneration_counts 2
           [[mkIndividual () 1]; []; [mkIndividual () 0]] ()).
  vm_compute. discriminate.
Defined.

(** ** Draws from a real interval *)

Lemma uniform_real_range `{RandomSource Rng} (a b : Q) (rng : Rng) :
  (a <= b)%Q →
  (a <= (uniform_real a b rng).1)%Q ∧ ((uniform_real a b rng).1 <= b)%Q.
Proof.
  intros Hab. unfold uniform_real.
  pose proof (canonical_range rng) as [Hu0 Hu1].
  destruct (canonical rng) as [u rng']. simpl in *. split; nra.
Qed.


(** ** Mutation *)

Section MutationFacts.
Context `{RandomSource Rng}.

(** The loop of [MutationFlip] applies a mask that is fixed by the
    generator alone. *)
Lemma MutationFlip_loop (prob : Q) (k : nat) :
  ∀ (i : nat) (g : Rng), ∃ (mask : nat → bool) (g' : Rng),
    ∀ v : list bool, i + k ≤ length v →
      ∃ v', for_range k i (MutationFlip_body prob) (v, g) = Some (v', g') ∧
            length v' = length v ∧
            ∀ j x, v !! j = Some x →
              v' !! j = Some (if bool_decide (i ≤ j < i + k)
                              then xorb x (mask j) else x).
Proof.
  induction k as [|k IH]; intros i g.
  - exists (λ _, false), g. intros v _. exists v. simpl.
    split; [done |]. split; [done |]. intros j x Hx.
    rewrite bool_decide_false; [done | lia].
  - destruct (bernoulli prob g) as [b g1] eqn:Hb.
    destruct (IH (S i) g1) as (mask' & g' & Hrun).
    exists (λ j, if decide (j = i) then b else mask' j), g'.
    intros v Hlen.
    destruct (lookup_lt_is_Some_2 v i) as [xi Hxi]; [lia |].
    assert (MutationFlip_body prob i (v, g)
            = Some (if b then <[i := negb xi]> v else v, g1)) as Hbody.
    { unfold MutationFlip_body. rewrite Hb.
      destruct b; [by rewrite Hxi | done]. }
    destruct (Hrun (if b then <[i := negb xi]> v else v))
      as (v' & Hrun' & Hlen' & Hlook).
    { destruct b; rewrite ?length_insert; lia. }
    exists v'. cbn [for_range]. rewrite Hbody. cbn [mbind option_bind].
    split; [done |]. split.
    { rewrite Hlen'. destruct b; by rewrite ?length_insert. }
    intros j x Hx. destruct (decide (j = i)) as [->|Hne].
    + assert (x = xi) as -> by congruence.
      rewrite (Hlook i (xorb xi b)).
      * rewrite bool_decide_false by lia. rewrite bool_decide_true by lia.
        done.
      * destruct b.
        -- rewrite list_lookup_insert_eq by (apply lookup_lt_is_Some; eauto).
           by destruct xi.
        -- rewrite Hxi. by destruct xi.
    + rewrite (Hlook j x).
      * destruct (bool_decide (S i ≤ j < S i + k)) eqn:Hin.
        -- apply bool_decide_eq_true in Hin.
           rewrite bool_decide_true by lia. done.
        -- apply bool_decide_eq_false in Hin.
           rewrite bool_decide_false by lia. done.
      * destruct b; [by rewrite list_lookup_insert_ne | done].
Qed.

Lemma MutationFlip_mask_list (prob : Q) (n : nat) (rng : Rng) :
  ∃ (mask : list bool) (rng' : Rng),
    length mask = n ∧
    ∀ value : list bool, length value = n →
      MutationFlip prob value rng = Some (zip_with xorb value mask, rng').
Proof.
  destruct (MutationFlip_loop prob n 0 rng) as (m & rng' & Hrun).
  exists (m <$> seq 0 n), rng'. split; [by rewrite length_fmap, length_seq |].
  intros value Hlen. unfold MutationFlip. rewrite Hlen.
  destruct (Hrun value) as (v' & -> & Hlen' & Hlook); [lia |].
  f_equal. f_equal. apply list_eq. intros j.
  rewrite lookup_zip_with, list_lookup_fmap.
  destruct (value !! j) as [x|] eqn:Hx; simpl.
  - apply lookup_lt_Some in Hx as Hj.
    rewrite (Hlook j x Hx), bool_decide_true by lia.
    rewrite lookup_seq_lt by lia. done.
  - apply lookup_ge_None. apply lookup_ge_None in Hx. lia.
Qed.

Lemma zip_with_xorb_twice (value mask : list bool) :
  length mask = length value →
  zip_with xorb (zip_with xorb value mask) mask = value.
Proof.
  revert mask. induction value as [|x value IH]; intros [|m mask] Hlen;
    simplify_eq/=; [done |].
  rewrite IH by done. by destruct x, m.
Qed.

Lemma clamp_cases (p lo hi : Q) :
  (lo <= hi)%Q →
  ((p < lo)%Q ∧ std_min (std_max p lo) hi = lo) ∨
  ((lo <= p)%Q ∧ (p <= hi)%Q ∧ std_min (std_max p lo) hi = p) ∨
  ((hi < p)%Q ∧ std_min (std_max p lo) hi = hi).
Proof.
  intros Hbounds. unfold std_min, std_max.
  destruct (Qlt_bool p lo) eqn:Hlo.
  - apply Qlt_bool_iff in Hlo. left. split; [done |].
    by rewrite Qlt_bool_false.
  - assert (lo <= p)%Q as Hp.
    { apply Qnot_lt_le. intros Hlt. apply Qlt_bool_iff in Hlt. congruence. }
    destruct (Qlt_bool hi p) eqn:Hhi.
    + apply Qlt_bool_iff in Hhi. by right; right.
    + right; left. repeat split; [done |]. apply Qnot_lt_le. intros Hlt.
      apply Qlt_bool_iff in Hlt. congruence.
Qed.

Lemma MutationUniform_spec (range lo hi value : Q) (rng : Rng) :
  (0 <= range)%Q → (binary64 range == range)%Q → (lo <= hi)%Q →
  let r := (MutationUniform range lo hi value rng).1 in
  (lo <= r)%Q ∧ (r <= hi)%Q ∧
  ((lo <= value)%Q → (value <= hi)%Q → (binary64 value == value)%Q →
   (binary64 (value - range) <= r)%Q ∧ (r <= binary64 (value + range))%Q).
Proof.
  intros Hrange Hdouble Hbounds. unfold MutationUniform.
  pose proof (uniform_real_range (- range) range rng ltac:(lra)) as [Hd0 Hd1].
  destruct (uniform_real (- range) range rng) as [d0 rng']. simpl in *.
  pose proof (binary64_mono _ _ Hd0) as Hlo.
  pose proof (binary64_mono _ _ Hd1) as Hhi.
  rewrite binary64_opp in Hlo. rewrite Hdouble in Hlo, Hhi.
  set (d := binary64 d0) in *.
  pose proof (binary64_mono (value - range) (value + d) ltac:(lra)) as Hs0.
  pose proof (binary64_mono (value + d) (value + range) ltac:(lra)) as Hs1.
  pose proof (binary64_mono (value - range) value ltac:(lra)) as Hv0.
  pose proof (binary64_mono value (value + range) ltac:(lra)) as Hv1.
  destruct (clamp_cases (binary64 (value + d)) lo hi Hbounds)
    as [[Hlt ->]|[(Hge & Hle & ->)|[Hgt ->]]];
    (split; [lra |]); (split; [lra |]); intros ? ? Hvalue; split; lra.
Qed.

(** The loop of [MutationVector] relates every element to its image by
    any reflexive relation that the wrapped mutation respects. *)
Lemma MutationVector_loop {A : Type} (R : A → A → Prop) (prob : Q)
    (func : A → Rng → option (A * Rng)) (value : list A) (rng : Rng) :
  (∀ x, R x x) →
  (∀ x g, x ∈ value → ∃ x' g', func x g = Some (x', g') ∧ R x x') →
  ∃ value' rng',
    MutationVector prob func value rng = Some (value', rng') ∧
    Forall2 R value value'.
Proof.
  intros Hrefl Hfunc. unfold MutationVector.
  destruct (for_range_inv
    (λ k (s : list A * Rng),
       length s.1 = length value ∧
       ∀ j x, value !! j = Some x →
         ∃ x', s.1 !! j = Some x' ∧ if decide (j < k) then R x x' else x' = x)
    (MutationVector_body prob func) (length value) 0 (value, rng))
    as ([value' rng'] & Hrun & Hlen & Hlook).
  - split; [done |]. intros j x Hx. exists x. split; [done |].
    by destruct (decide (j < 0)); [lia |].
  - intros i [v g] Hi [Hlen Hlook]. simpl in Hlen, Hlook.
    unfold MutationVector_body.
    destruct (bernoulli prob g) as [b g1].
    destruct (lookup_lt_is_Some_2 value i) as [xi Hxi]; [lia |].
    destruct (Hlook i xi Hxi) as (y & Hy & Hyx).
    destruct (decide (i < i)); [lia |]. subst y.
    destruct b.
    + rewrite Hy. simpl.
      destruct (Hfunc xi g1) as (x' & g' & -> & HR);
        [by eapply list_elem_of_lookup_2 |]. simpl.
      eexists. split; [done |]. simpl. split; [by rewrite length_insert |].
      intros j x Hx. destruct (decide (j = i)) as [->|Hne].
      * exists x'. rewrite list_lookup_insert_eq by lia.
        split; [done |]. destruct (decide (i < S i)); [| lia]. congruence.
      * rewrite list_lookup_insert_ne by done.
        destruct (Hlook j x Hx) as (y & Hyj & Hrel). exists y.
        split; [done |].
        destruct (decide (j < i)), (decide (j < S i)); done || lia.
    + eexists. split; [done |]. simpl. split; [done |].
      intros j x Hx. destruct (decide (j = i)) as [->|Hne].
      * exists xi. split; [done |].
        destruct (decide (i < S i)); [| lia]. by simplify_eq.
      * destruct (Hlook j x Hx) as (y & Hyj & Hrel). exists y.
        split; [done |].
        destruct (decide (j < i)), (decide (j < S i)); done || lia.
  - exists value', rng'. split; [done |]. simpl in Hlen, Hlook.
    apply Forall2_same_length_lookup. split; [done |].
    intros j x y Hx Hy. destruct (Hlook j x Hx) as (y' & Hy' & Hrel).
    apply lookup_lt_Some in Hx.
    destruct (decide (j < length value)); [| lia]. by simplify_eq.
Qed.

End MutationFacts.

(** X13. Bit-flip mutation never fails and keeps the length; which
    positions it flips is fixed by the generator state and the length
    alone (a mask, the same for every vector of that length), and the
    generator after the call is the same as well.  Hence mutating the
    result again from the same generator state gives the original back. *)
Theorem MutationFlip_mask `{RandomSource Rng} (prob : Q) (value : list bool)
    (rng : Rng) :
  ∃ (mask : list bool) (rng' : Rng),
    length mask = length value ∧
    MutationFlip prob value rng = Some (zip_with xorb value mask, rng') ∧
    MutationFlip prob (zip_with xorb value mask) rng = Some (value, rng') ∧
    ∀ other : list bool, length other = length value →
      MutationFlip prob other rng = Some (zip_with xorb other mask, rng').
Proof.
  destruct (MutationFlip_mask_list prob (length value) rng)
    as (mask & rng' & Hlen & Hrun).
  exists mask, rng'. split; [done |]. split; [by apply Hrun |].
  split; [| done].
  rewrite Hrun.
  - by rewrite zip_with_xorb_twice.
  - rewrite length_zip_with. lia.
Qed.

Example MutationFlip_example :
  MutationFlip (1 # 2) [true; true; false; false] ([100; 900; 200; 800]%N : Tape)
  = Some ([false; true; true; false], []).
Proof. reflexivity. Qed.

(** X14. Uniform mutation with a non-negative range and ordered bounds
    always yields a value within the bounds; a value that was within the
    bounds moves no further than to the doubles nearest to
    [value - range] and [value + range]: by at most [range], up to the
    rounding of the sum. *)
Theorem MutationUniform_range `{RandomSource Rng} (range lo hi value : Q)
    (rng : Rng) :
  (0 <= range)%Q → (binary64 range == range)%Q → (lo <= hi)%Q →
  let r := (MutationUniform range lo hi value rng).1 in
  (lo <= r)%Q ∧ (r <= hi)%Q ∧
  ((lo <= value)%Q → (value <= hi)%Q → (binary64 value == value)%Q →
   (binary64 (value - range) <= r)%Q ∧ (r <= binary64 (value + range))%Q).
Proof. apply MutationUniform_spec. Qed.

Lemma MutationUniform_range_witness :
  let r := (MutationUniform 1 0 10 (19 # 2) ([900]%N : Tape)).1 in
  (0 <= r)%Q ∧ (r <= 10)%Q ∧
  ((0 <= 19 # 2)%Q → (19 # 2 <= 10)%Q → (binary64 (19 # 2) == 19 # 2)%Q →
   (binary64 ((19 # 2) - 1) <= r)%Q ∧ (r <= binary64 ((19 # 2) + 1))%Q).
Proof.
  apply (MutationUniform_range 1 0 10 (19 # 2) ([900]%N : Tape));
    vm_compute; (discriminate || reflexivity).
Defined.

(** The sum is rounded: from 2^53 + 2 a draw of 6/5 leads to 2^53 + 4, a
    move of 2 with the range 3/2 (the double nearest to
    [value + range]). *)
Example MutationUniform_rounds :
  let value := inject_Z (2 ^ 53 + 2) in
  let r := (MutationUniform (3 # 2) 0 (inject_Z (2 ^ 60)) value
              ([900]%N : Tape)).1 in
  (binary64 value == value)%Q ∧
  (r == inject_Z (2 ^ 53 + 4))%Q ∧
  (binary64 (value + (3 # 2)) == inject_Z (2 ^ 53 + 4))%Q.
Proof. vm_compute. repeat split. Qed.

(** X15. Element-wise mutation: when the wrapped mutation returns on
    every element of the vector, [MutationVector] returns, keeps the
    length, and relates every element to the element at the same position
    of the result by any reflexive relation that the wrapped mutation
    establishes (an element is either left alone or replaced by its
    image). *)
Theorem MutationVector_pointwise `{RandomSource Rng} {A : Type}
    (R : A → A → Prop) (prob : Q) (func : A → Rng → option (A * Rng))
    (value : list A) (rng : Rng) :
  (∀ x, R x x) →
  (∀ x g, x ∈ value → ∃ x' g', func x g = Some (x', g') ∧ R x x') →
  ∃ value' rng',
    MutationVector prob func value rng = Some (value', rng') ∧
    length value' = length value ∧
    Forall2 R value value'.
Proof.
  intros Hrefl Hfunc.
  destruct (MutationVector_loop R prob func value rng Hrefl Hfunc)
    as (value' & rng' & Hrun & Hall).
  exists value', rng'. split; [done |]. split; [| done].
  symmetry. by eapply Forall2_length.
Qed.

Lemma MutationVector_pointwise_witness :
  ∃ value' rng',
    MutationVector (1 # 2)
      (λ x (g : Tape), Some (MutationUniform 1 0 10 x g))
      [0; 5; 10]%Q ([100; 0; 900; 200; 999]%N : Tape) = Some (value', rng') ∧
    length value' = 3 ∧
    Forall2 stays_within [0; 5; 10]%Q value'.
Proof.
  apply (MutationVector_pointwise stays_within (1 # 2)
           (λ x (g : Tape), Some (MutationUniform 1 0 10 x g))
           [0; 5; 10]%Q ([100; 0; 900; 200; 999]%N : Tape)).
  - by intros x Hx.
  - intros x g _. eexists _, _. split.
    + by rewrite (surjective_pairing (MutationUniform 1 0 10 x g)).
    + intros _.
      destruct (MutationUniform_spec 1 0 10 x g) as (? & ? & _);
        [lra | reflexivity | lra |]. done.
Defined.

(** ** Mutation of permutations *)

Section PermutationFacts.
Context `{RandomSource Rng} {A : Type}.
Implicit Types value v : list A.

Lemma draw_distinct_spec (fuel : nat) (b index0 : N) (rng : Rng) :
  match draw_distinct fuel b index0 rng with
  | Returns (index1, _) => (index1 ≤ b)%N ∧ index1 ≠ index0
  | Undefined => False
  | OutOfFuel => True
  end.
Proof.
  revert rng. induction fuel as [|fuel IH]; intros rng; simpl; [done |].
  pose proof (uniform_int_range 0 b rng ltac:(lia)) as Hrange.
  destruct (uniform_int 0 b rng) as [index1 rng1]. simpl in Hrange.
  destruct (index0 =? index1)%N eqn:Heq; [apply IH |].
  apply N.eqb_neq in Heq. split; [lia | done].
Qed.

(** With a single possible value the rejection loop never ends. *)
Lemma draw_distinct_single (fuel : nat) (rng : Rng) :
  draw_distinct fuel 0 0 rng = OutOfFuel.
Proof.
  revert rng. induction fuel as [|fuel IH]; intros rng; simpl; [done |].
  pose proof (uniform_int_range 0 0 rng ltac:(lia)) as Hrange.
  destruct (uniform_int 0 0 rng) as [index1 rng1]. simpl in Hrange.
  assert (index1 = 0%N) as -> by lia. simpl. apply IH.
Qed.

Lemma size_t_sub_one (n : nat) :
  0 < n → (N.of_nat n < 2 ^ 64)%N →
  size_t_sub (N.of_nat n) 1 = N.of_nat (n - 1).
Proof.
  intros Hn Hsize. unfold size_t_sub.
  replace (N.of_nat n + 2 ^ 64 - 1)%N
    with (N.of_nat (n - 1) + 1 * 2 ^ 64)%N by lia.
  rewrite N.Div0.mod_add. apply N.mod_small. lia.
Qed.

(** On a non-empty vector the two indices are distinct positions. *)
Lemma draw_two_spec (fuel size : nat) (rng : Rng) :
  0 < size → (N.of_nat size < 2 ^ 64)%N →
  match draw_two fuel size rng with
  | Returns (index0, index1, _) =>
      index0 < size ∧ index1 < size ∧ index0 ≠ index1
  | Undefined => False
  | OutOfFuel => True
  end.
Proof.
  intros Hsize Hmax. unfold draw_two. rewrite size_t_sub_one by done.
  pose proof (uniform_int_range 0 (N.of_nat (size - 1)) rng ltac:(lia))
    as Hrange.
  destruct (uniform_int 0 (N.of_nat (size - 1)) rng) as [index0 rng1].
  simpl in Hrange.
  pose proof (draw_distinct_spec fuel (N.of_nat (size - 1)) index0 rng1)
    as Hdraw.
  destruct (draw_distinct fuel (N.of_nat (size - 1)) index0 rng1)
    as [[index1 rng2]| |]; simpl; [| done | done].
  destruct Hdraw as [Hle Hne]. lia.
Qed.

Lemma draw_two_single (fuel : nat) (rng : Rng) :
  draw_two fuel 1 rng = OutOfFuel.
Proof.
  unfold draw_two. change (size_t_sub (N.of_nat 1) 1) with 0%N.
  pose proof (uniform_int_range 0 0 rng ltac:(lia)) as Hrange.
  destruct (uniform_int 0 0 rng) as [index0 rng1]. simpl in Hrange.
  assert (index0 = 0%N) as -> by lia.
  by rewrite draw_distinct_single.
Qed.

Lemma insert_swap_head v j x y :
  v !! j = Some y → y :: <[j := x]> v ≡ₚ x :: v.
Proof.
  revert j. induction v as [|b v IH]; intros [|j] Hj; simplify_eq/=.
  - apply perm_swap.
  - rewrite perm_swap, (IH j Hj). apply perm_swap.
Qed.

Lemma swap_elems_perm v i j :
  i < length v → j < length v →
  ∃ v', swap_elems v i j = Some v' ∧ v' ≡ₚ v.
Proof.
  intros Hi Hj.
  destruct (lookup_lt_is_Some_2 v i Hi) as [x Hx].
  destruct (lookup_lt_is_Some_2 v j Hj) as [y Hy].
  unfold swap_elems. rewrite Hx, Hy. simpl. eexists. split; [done |].
  clear Hi Hj. revert i j Hx Hy.
  induction v as [|b v IH]; intros [|i] [|j] Hx Hy; simplify_eq/=.
  - done.
  - by apply insert_swap_head.
  - by apply insert_swap_head.
  - by rewrite (IH i j).
Qed.

Lemma MutationSwap_loop_spec (fuel count : nat) v (rng : Rng) :
  0 < length v → (N.of_nat (length v) < 2 ^ 64)%N →
  match MutationSwap_loop fuel count v rng with
  | Returns (v', _) => v' ≡ₚ v
  | Undefined => False
  | OutOfFuel => True
  end.
Proof.
  revert v rng. induction count as [|count IH]; intros v rng Hlen Hmax;
    simpl; [done |].
  pose proof (draw_two_spec fuel (length v) rng Hlen Hmax) as Hdraw.
  destruct (draw_two fuel (length v) rng) as [[[index0 index1] rng1]| |];
    simpl; [| done | done].
  destruct Hdraw as (H0 & H1 & _).
  destruct (swap_elems_perm v index0 index1 H0 H1) as (v1 & -> & Hperm).
  simpl. pose proof (Permutation_length Hperm) as Hlen1.
  specialize (IH v1 rng1). rewrite Hlen1 in IH.
  specialize (IH Hlen Hmax).
  destruct (MutationSwap_loop fuel count v1 rng1) as [[v' rng']| |];
    [| done | done].
  by rewrite IH.
Qed.

Lemma MutationInvert_spec (fuel : nat) v (rng : Rng) :
  0 < length v → (N.of_nat (length v) < 2 ^ 64)%N →
  match MutationInvert fuel v rng with
  | Returns (v', _) => v' ≡ₚ v ∧ last v' = last v
  | Undefined => False
  | OutOfFuel => True
  end.
Proof.
  intros Hlen Hmax. unfold MutationInvert.
  pose proof (draw_two_spec fuel (length v) rng Hlen Hmax) as Hdraw.
  destruct (draw_two fuel (length v) rng) as [[[index0 index1] rng1]| |];
    simpl; [| done | done].
  destruct Hdraw as (H0 & H1 & Hne).
  set (lo := index0 `min` index1). set (hi := index0 `max` index1).
  assert (lo ≤ hi ∧ hi < length v) as [Hlo Hhi] by (unfold lo, hi; lia).
  destruct (decide (hi ≤ length v)); [| lia].
  assert (drop hi v = drop (hi - lo) (drop lo v)) as Hdrop.
  { rewrite drop_drop. f_equal. lia. }
  split.
  - rewrite reverse_Permutation, Hdrop, (app_assoc (take lo v)).
    rewrite <- (app_assoc (take lo v)), take_drop. by rewrite take_drop.
  - destruct (drop hi v) as [|d rest] eqn:Hd.
    { apply (f_equal length) in Hd. rewrite length_drop in Hd.
      simpl in Hd. lia. }
    assert (last v = last (d :: rest)) as ->.
    { rewrite <- (take_drop hi v), Hd, last_app.
      by destruct (last (d :: rest)) eqn:Hz; [| apply last_None in Hz]. }
    rewrite !last_app.
    by destruct (last (d :: rest)) eqn:Hz; [| apply last_None in Hz].
Qed.

(** The loop of [MutationMove] after [k] iterations: the elements at the
    [k] positions below [hi] have been copied one position up. *)
Lemma MutationMove_loop v (hi k : nat) :
  k ≤ hi → hi < length v →
  for_range k 0 (MutationMove_body hi) v
    = Some (take (S (hi - k)) v ++ take k (drop (hi - k) v)
            ++ drop (S hi) v).
Proof.
  intros Hk Hhi.
  destruct (for_range_inv
    (λ j (s : list A),
       s = take (S (hi - j)) v ++ take j (drop (hi - j) v) ++ drop (S hi) v)
    (MutationMove_body hi) k 0 v) as (s & -> & ->); [| | done].
  - rewrite Nat.sub_0_r. simpl. by rewrite take_drop.
  - intros j s Hj ->. unfold MutationMove_body.
    set (i := hi - j).
    destruct (lookup_lt_is_Some_2 v (i - 1)) as [x Hx]; [lia |].
    destruct (lookup_lt_is_Some_2 v i) as [y Hy]; [lia |].
    rewrite lookup_app_l by (rewrite length_take; lia).
    rewrite lookup_take_lt by lia. rewrite Hx. simpl.
    unfold assign. rewrite decide_True by (rewrite length_app, length_take; lia).
    eexists. split; [done |].
    replace (hi - S j) with (i - 1) by lia.
    rewrite (take_S_r v i y Hy), <- app_assoc.
    rewrite insert_app_r_alt by (rewrite length_take; lia).
    rewrite length_take. replace (i - i `min` length v) with 0 by lia.
    rewrite (drop_S v x (i - 1) Hx).
    replace (S (i - 1)) with i by lia. done.
Qed.

Lemma MutationMove_spec (fuel : nat) v (rng : Rng) :
  0 < length v → (N.of_nat (length v) < 2 ^ 64)%N →
  match MutationMove fuel v rng with
  | Returns (v', _) =>
      v' ≡ₚ v ∧
      ∃ lo hi x, lo < hi ∧ v !! hi = Some x ∧
        v' = take lo v ++ x :: take (hi - lo) (drop lo v) ++ drop (S hi) v
  | Undefined => False
  | OutOfFuel => True
  end.
Proof.
  intros Hlen Hmax. unfold MutationMove.
  pose proof (draw_two_spec fuel (length v) rng Hlen Hmax) as Hdraw.
  destruct (draw_two fuel (length v) rng) as [[[index0 index1] rng1]| |];
    simpl; [| done | done].
  destruct Hdraw as (H0 & H1 & Hne).
  set (lo := index0 `min` index1). set (hi := index0 `max` index1).
  assert (lo < hi ∧ hi < length v) as [Hlo Hhi] by (unfold lo, hi; lia).
  destruct (lookup_lt_is_Some_2 v hi Hhi) as [x Hx].
  destruct (lookup_lt_is_Some_2 v lo) as [y Hy]; [lia |].
  rewrite Hx. simpl.
  rewrite MutationMove_loop by lia. simpl.
  replace (hi - (hi - lo)) with lo by lia.
  unfold assign.
  rewrite decide_True by (rewrite length_app, length_take; lia). simpl.
  rewrite (take_S_r v lo y Hy), <- app_assoc.
  rewrite insert_app_r_alt by (rewrite length_take; lia).
  rewrite length_take. replace (lo - lo `min` length v) with 0 by lia.
  simpl. split; [| by exists lo, hi, x].
  rewrite <- (take_drop lo v) at 4.
  apply Permutation_app_head.
  rewrite <- (take_drop (hi - lo) (drop lo v)) at 2.
  rewrite drop_drop. replace (lo + (hi - lo)) with hi by lia.
  rewrite (drop_S v x hi Hx). by rewrite Permutation_middle.
Qed.

End PermutationFacts.

(** X16. Swap mutation on a non-empty vector never reads or writes
    outside the vector, and whenever it returns the result is a
    rearrangement of the vector.  On a vector of one element with a positive count it never
    returns: the rejection loop draws the only index for ever. *)
Theorem MutationSwap_permutes `{RandomSource Rng} {A : Type} (fuel : nat)
    (count : Z) (value : list A) (rng : Rng) :
  0 < length value → (N.of_nat (length value) < 2 ^ 64)%N →
  match MutationSwap fuel count value rng with
  | Returns (value', _) => value' ≡ₚ value
  | Undefined => False
  | OutOfFuel => True
  end ∧
  (length value = 1 → (0 < count)%Z →
   MutationSwap fuel count value rng = OutOfFuel).
Proof.
  intros Hlen Hmax. split; [by apply MutationSwap_loop_spec |].
  intros Hone Hcount. unfold MutationSwap.
  destruct (Z.to_nat count) as [|n] eqn:Hn; [lia |]. simpl.
  by rewrite Hone, draw_two_single.
Qed.

Lemma MutationSwap_permutes_witness :
  match MutationSwap 3 2 [10; 20; 30] ([0; 0; 2; 1; 2]%N : Tape) with
  | Returns (value', _) => value' ≡ₚ [10; 20; 30]
  | Undefined => False
  | OutOfFuel => True
  end ∧
  (length [10; 20; 30] = 1 → (0 < 2)%Z →
   MutationSwap 3 2 [10; 20; 30] ([0; 0; 2; 1; 2]%N : Tape) = OutOfFuel).
Proof.
  apply (MutationSwap_permutes 3 2 [10; 20; 30] ([0; 0; 2; 1; 2]%N : Tape));
    [simpl; lia | vm_compute; reflexivity].
Defined.

Example MutationSwap_example :
  MutationSwap 3 2 [10; 20; 30] ([0; 0; 2; 1; 2]%N : Tape)
    = Returns ([30; 10; 20], []) ∧
  MutationSwap 1 2 [10; 20; 30] ([0; 0; 2; 1; 2]%N : Tape) = OutOfFuel ∧
  MutationSwap 3 1 ([] : list nat) ([0; 1]%N : Tape) = Undefined.
Proof. repeat split; vm_compute; reflexivity. Qed.

(** X17. Inversion mutation on a non-empty vector never reaches outside
    the vector, and whenever it returns the result is a rearrangement of
    the vector whose last element is still in the last position: the
    reversed segment ends before the larger index.  On a vector of one
    element it never returns. *)
Theorem MutationInvert_permutes `{RandomSource Rng} {A : Type} (fuel : nat)
    (value : list A) (rng : Rng) :
  0 < length value → (N.of_nat (length value) < 2 ^ 64)%N →
  match MutationInvert fuel value rng with
  | Returns (value', _) => value' ≡ₚ value ∧ last value' = last value
  | Undefined => False
  | OutOfFuel => True
  end ∧
  (length value = 1 → MutationInvert fuel value rng = OutOfFuel).
Proof.
  intros Hlen Hmax. split; [by apply MutationInvert_spec |].
  intros Hone. unfold MutationInvert. by rewrite Hone, draw_two_single.
Qed.

Lemma MutationInvert_permutes_witness :
  match MutationInvert 2 [10; 20; 30; 40] ([3; 3; 0]%N : Tape) with
  | Returns (value', _) =>
      value' ≡ₚ [10; 20; 30; 40] ∧ last value' = last [10; 20; 30; 40]
  | Undefined => False
  | OutOfFuel => True
  end ∧
  (length [10; 20; 30; 40] = 1 →
   MutationInvert 2 [10; 20; 30; 40] ([3; 3; 0]%N : Tape) = OutOfFuel).
Proof.
  apply (MutationInvert_permutes 2 [10; 20; 30; 40] ([3; 3; 0]%N : Tape));
    [simpl; lia | vm_compute; reflexivity].
Defined.

Example MutationInvert_example :
  MutationInvert 2 [10; 20; 30; 40] ([3; 3; 0]%N : Tape)
    = Returns ([30; 20; 10; 40], []) ∧
  MutationInvert 2 [10; 20; 30; 40] ([2; 3]%N : Tape)
    = Returns ([10; 20; 30; 40], []).
Proof. split; vm_compute; reflexivity. Qed.

(** X18. Move mutation on a non-empty vector never reaches outside the
    vector, and whenever it returns it has taken the element at the
    larger of two distinct positions, put it at the smaller one and
    shifted the elements in between one position up, so that the result
    is a rearrangement of the vector.  On a vector of one element it
    never returns. *)
Theorem MutationMove_permutes `{RandomSource Rng} {A : Type} (fuel : nat)
    (value : list A) (rng : Rng) :
  0 < length value → (N.of_nat (length value) < 2 ^ 64)%N →
  match MutationMove fuel value rng with
  | Returns (value', _) =>
      value' ≡ₚ value ∧
      ∃ lo hi x, lo < hi ∧ value !! hi = Some x ∧
        value' = take lo value ++ x :: take (hi - lo) (drop lo value)
                 ++ drop (S hi) value
  | Undefined => False
  | OutOfFuel => True
  end ∧
  (length value = 1 → MutationMove fuel value rng = OutOfFuel).
Proof.
  intros Hlen Hmax. split; [by apply MutationMove_spec |].
  intros Hone. unfold MutationMove. by rewrite Hone, draw_two_single.
Qed.

Lemma MutationMove_permutes_witness :
  match MutationMove 2 [10; 20; 30; 40] ([1; 3]%N : Tape) with
  | Returns (value', _) =>
      value' ≡ₚ [10; 20; 30; 40] ∧
      ∃ lo hi x, lo < hi ∧ [10; 20; 30; 40] !! hi = Some x ∧
        value' = take lo [10; 20; 30; 40]
                 ++ x :: take (hi - lo) (drop lo [10; 20; 30; 40])
                 ++ drop (S hi) [10; 20; 30; 40]
  | Undefined => False
  | OutOfFuel => True
  end ∧
  (length [10; 20; 30; 40] = 1 →
   MutationMove 2 [10; 20; 30; 40] ([1; 3]%N : Tape) = OutOfFuel).
Proof.
  apply (MutationMove_permutes 2 [10; 20; 30; 40] ([1; 3]%N : Tape));
    [simpl; lia | vm_compute; reflexivity].
Defined.

Example MutationMove_example :
  MutationMove 2 [10; 20; 30; 40] ([1; 3]%N : Tape)
    = Returns ([10; 40; 20; 30], []) ∧
  MutationMove 2 [10; 20; 30; 40] ([3; 1]%N : Tape)
    = Returns ([10; 40; 20; 30], []).
Proof. split; vm_compute; reflexivity. Qed.

(** ** Elitism and the best individual *)

Lemma ceil_size_t_pos (x : Q) : (0 < x)%Q → 1 ≤ ceil_size_t x.
Proof.
  intros Hx. pose proof (ceil_size_t_ge x) as Hge.
  destruct (ceil_size_t x) as [|n]; [| lia].
  change (inject_Z (Z.of_nat 0)) with 0%Q in Hge. lra.
Qed.

Lemma ReplacementElitist_best `{StdSort} {T : Type} `{Inhabited T}
    {Rng : Type} (size : SelectionSize) (src dst : Population T) (rng : Rng) :
  (0 < count size)%N ∨ ((0 < percentage size)%Q ∧ (percentage size <= 1)%Q) →
  ∃ dst',
    ReplacementElitist size src dst rng = Some ([], dst', rng) ∧
    ∀ it, it ∈ dst → ∃ best, best ∈ dst' ∧ (fitness it <= fitness best)%Q.
Proof.
  intros Hsize.
  assert (SelectionSize_valid size) as Hvalid.
  { destruct Hsize as [?|[? ?]]; [by left | right; split; [lra | done]]. }
  destruct (SelectionSize_call_Some size (length dst) Hvalid)
    as (k & Hcall & Hk).
  unfold ReplacementElitist. rewrite Hcall. simpl.
  eexists. split; [done |]. intros it Hit.
  assert (1 ≤ k) as Hpos.
  { assert (0 < length dst) as Hlen.
    { destruct dst; [by apply elem_of_nil in Hit | simpl; lia]. }
    unfold SelectionSize_call in Hcall.
    destruct (0 <? count size)%N eqn:Hcount.
    - apply N.ltb_lt in Hcount. simplify_eq. lia.
    - apply N.ltb_ge in Hcount.
      destruct Hsize as [?|[Hp0 Hp1]]; [lia |].
      destruct (assert _); simplify_eq/=.
      apply ceil_size_t_pos.
      assert (0 < inject_Z (Z.of_nat (length dst)))%Q.
      { change 0%Q with (inject_Z 0). rewrite <- Zlt_Qlt. lia. }
      nra. }
  pose proof (sort_greater_perm T dst) as Hperm.
  pose proof (sort_greater_sorted T dst) as Hsorted.
  rewrite resize_le by (by rewrite Hperm).
  rewrite <- Hperm in Hit.
  destruct (sort_greater dst) as [|b sorted] eqn:Hs;
    [by apply elem_of_nil in Hit |].
  exists b. split.
  - destruct k; [lia |]. simpl. by left.
  - apply StronglySorted_inv in Hsorted as [_ Hall].
    apply elem_of_cons in Hit as [->|Hit]; [apply Qle_refl |].
    by apply (proj1 (Forall_forall _ _) Hall).
Qed.

(** X19. Elitist replacement with a positive count, or a percentage in
    (0, 1], never loses the best fitness: every individual of the old
    population is matched or exceeded by an individual of the new one. *)
Theorem ReplacementElitist_keeps_best `{StdSort} {T : Type} `{Inhabited T}
    {Rng : Type} (size : SelectionSize) (src dst : Population T) (rng : Rng) :
  (0 < count size)%N ∨ ((0 < percentage size)%Q ∧ (percentage size <= 1)%Q) →
  ∃ dst',
    ReplacementElitist size src dst rng = Some ([], dst', rng) ∧
    ∀ it, it ∈ dst → ∃ best, best ∈ dst' ∧ (fitness it <= fitness best)%Q.
Proof. apply ReplacementElitist_best. Qed.

Lemma ReplacementElitist_keeps_best_witness :
  ∃ dst',
    ReplacementElitist (SelectionSize_percentage (1 # 10))
      [mkIndividual 7 1] [mkIndividual 1 3; mkIndividual 2 9; mkIndividual 3 5]
      ([] : Tape) = Some ([], dst', []) ∧
    ∀ it, it ∈ [mkIndividual 1 3; mkIndividual 2 9; mkIndividual 3 5] →
      ∃ best, best ∈ dst' ∧ (fitness it <= fitness best)%Q.
Proof.
  apply (ReplacementElitist_keeps_best (SelectionSize_percentage (1 # 10))
           [mkIndividual 7 1]
           [mkIndividual 1 3; mkIndividual 2 9; mkIndividual 3 5]
           ([] : Tape)).
  right. split; vm_compute; [reflexivity | discriminate].
Defined.

(** With the default size (count 0, percentage 0) the elite is empty and
    the replacement is that of [ReplacementAll]: the best can be lost. *)
Example ReplacementElitist_default_is_all :
  ReplacementElitist SelectionSize_default
    [mkIndividual 7 1] [mkIndividual 1 3; mkIndividual 2 9] ([] : Tape)
  = ReplacementAll
    [mkIndividual 7 1] [mkIndividual 1 3; mkIndividual 2 9] ([] : Tape).
Proof. reflexivity. Qed.

(** ** The recombination loop and the run loop of the GA *)

Lemma for_range_inv_partial {St : Type} (P : nat → St → Prop)
    (body : nat → St → option St) k i (s s' : St) :
  P i s →
  (∀ j s s', i ≤ j < i + k → P j s → body j s = Some s' → P (S j) s') →
  for_range k i body s = Some s' → P (i + k) s'.
Proof.
  revert i s. induction k as [|k IH]; intros i s Hs Hbody; simpl.
  - intros [= <-]. by rewrite Nat.add_0_r.
  - destruct (body i s) as [s1|] eqn:Hs1; simpl; [| done]. intros Hrun.
    replace (i + S k) with (S i + k) by lia.
    apply (IH (S i) s1); [| | done].
    + apply (Hbody i s); [lia | done | done].
    + intros j s2 s3 Hj. apply Hbody. lia.
Qed.

Section GaFacts.
Context `{RandomSource Rng} {T St : Type}.
Implicit Types tmp pop : Population T.

Lemma is_dirty_mark_dirty (it : Individual T) : is_dirty (mark_dirty it) = true.
Proof. reflexivity. Qed.

(** One pair: only its two positions are written, each with the
    individual it held or with a dirty one. *)
Lemma pair_body_spec (ga : Ga.t T Rng St) i tmp (rng : Rng) tmp' rng' :
  Ga.pair_body ga i (tmp, rng) = Some (tmp', rng') →
  ∃ o0 o1 c0 c1,
    tmp !! (2 * i + 0) = Some o0 ∧ tmp !! (2 * i + 1) = Some o1 ∧
    tmp' = <[2 * i + 1 := c1]> (<[2 * i + 0 := c0]> tmp) ∧
    touched o0 c0 ∧ touched o1 c1.
Proof.
  unfold Ga.pair_body. intros Hbody.
  destruct (tmp !! (2 * i + 0)) as [o0|] eqn:H0; [| done].
  destruct (tmp !! (2 * i + 1)) as [o1|] eqn:H1; [| done].
  simpl in Hbody.
  destruct (bernoulli (Ga.crossover_rate ga) rng) as [c rng1].
  assert (∃ a0 a1 rng2,
    (if c then
       '(d0, d1, rng) ← Ga.crossover ga (data o0) (data o1) rng1;
       Some (mark_dirty (mkIndividual d0 (fitness o0)),
             mark_dirty (mkIndividual d1 (fitness o1)), rng)
     else Some (o0, o1, rng1)) = Some (a0, a1, rng2) ∧
    touched o0 a0 ∧ touched o1 a1) as (a0 & a1 & rng2 & Hcross & Ha0 & Ha1).
  { destruct c.
    - destruct (Ga.crossover ga (data o0) (data o1) rng1)
        as [[[d0 d1] rng2]|]; [| done]. simpl.
      eexists _, _, _. split; [done |]. split; by right.
    - eexists _, _, _. split; [done |]. split; by left. }
  rewrite Hcross in Hbody. simpl in Hbody.
  destruct (bernoulli (Ga.mutation_rate ga) rng2) as [m0 rng3].
  assert (∃ b0 rng4,
    (if m0 then
       '(d0, rng) ← Ga.mutation ga (data a0) rng3;
       Some (mark_dirty (mkIndividual d0 (fitness a0)), rng)
     else Some (a0, rng3)) = Some (b0, rng4) ∧ touched o0 b0)
    as (b0 & rng4 & Hmut0 & Hb0).
  { destruct m0.
    - destruct (Ga.mutation ga (data a0) rng3) as [[d0 rng4]|]; [| done].
      simpl. eexists _, _. split; [done |]. by right.
    - by eexists _, _. }
  rewrite Hmut0 in Hbody. simpl in Hbody.
  destruct (bernoulli (Ga.mutation_rate ga) rng4) as [m1 rng5].
  assert (∃ b1 rng6,
    (if m1 then
       '(d1, rng) ← Ga.mutation ga (data a1) rng5;
       Some (mark_dirty (mkIndividual d1 (fitness a1)), rng)
     else Some (a1, rng5)) = Some (b1, rng6) ∧ touched o1 b1)
    as (b1 & rng6 & Hmut1 & Hb1).
  { destruct m1.
    - destruct (Ga.mutation ga (data a1) rng5) as [[d1 rng6]|]; [| done].
      simpl. eexists _, _. split; [done |]. by right.
    - by eexists _, _. }
  rewrite Hmut1 in Hbody. simpl in Hbody. simplify_eq.
  by exists o0, o1, b0, b1.
Qed.

(** With operators that always return, one pair always returns. *)
Lemma pair_body_total (ga : Ga.t T Rng St) i tmp (rng : Rng) :
  (∀ a b g, is_Some (Ga.crossover ga a b g)) →
  (∀ a g, is_Some (Ga.mutation ga a g)) →
  2 * i + 1 < length tmp →
  ∃ tmp' rng', Ga.pair_body ga i (tmp, rng) = Some (tmp', rng') ∧
               length tmp' = length tmp.
Proof.
  intros Hcross Hmut Hi. unfold Ga.pair_body.
  destruct (lookup_lt_is_Some_2 tmp (2 * i + 0)) as [o0 ->]; [lia |].
  destruct (lookup_lt_is_Some_2 tmp (2 * i + 1)) as [o1 ->]; [lia |].
  simpl.
  destruct (bernoulli (Ga.crossover_rate ga) rng) as [c rng1].
  assert (∃ a0 a1 rng2,
    (if c then
       '(d0, d1, rng) ← Ga.crossover ga (data o0) (data o1) rng1;
       Some (mark_dirty (mkIndividual d0 (fitness o0)),
             mark_dirty (mkIndividual d1 (fitness o1)), rng)
     else Some (o0, o1, rng1)) = Some (a0, a1, rng2))
    as (a0 & a1 & rng2 & ->).
  { destruct c; [| by eexists _, _, _].
    destruct (Hcross (data o0) (data o1) rng1) as [[[d0 d1] rng2] ->].
    by eexists _, _, _. }
  simpl.
  destruct (bernoulli (Ga.mutation_rate ga) rng2) as [m0 rng3].
  assert (∃ b0 rng4,
    (if m0 then
       '(d0, rng) ← Ga.mutation ga (data a0) rng3;
       Some (mark_dirty (mkIndividual d0 (fitness a0)), rng)
     else Some (a0, rng3)) = Some (b0, rng4)) as (b0 & rng4 & ->).
  { destruct m0; [| by eexists _, _].
    destruct (Hmut (data a0) rng3) as [[d0 rng4] ->]. by eexists _, _. }
  simpl.
  destruct (bernoulli (Ga.mutation_rate ga) rng4) as [m1 rng5].
  assert (∃ b1 rng6,
    (if m1 then
       '(d1, rng) ← Ga.mutation ga (data a1) rng5;
       Some (mark_dirty (mkIndividual d1 (fitness a1)), rng)
     else Some (a1, rng5)) = Some (b1, rng6)) as (b1 & rng6 & ->).
  { destruct m1; [| by eexists _, _].
    destruct (Hmut (data a1) rng5) as [[d1 rng6] ->]. by eexists _, _. }
  simpl. eexists _, _. split; [done |]. by rewrite !length_insert.
Qed.

Lemma pair_loop_spec (ga : Ga.t T Rng St) tmp (rng : Rng) tmp' rng' :
  for_range (length tmp / 2) 0 (Ga.pair_body ga) (tmp, rng)
    = Some (tmp', rng') →
  Forall2 touched tmp tmp' ∧
  (Nat.odd (length tmp) = true → last tmp' = last tmp).
Proof.
  intros Hrun.
  pose proof (Nat.Div0.div_mod (length tmp) 2) as Hdiv.
  pose proof (Nat.mod_upper_bound (length tmp) 2 ltac:(lia)) as Hmod.
  pose proof (for_range_inv_partial
    (λ j (s : Population T * Rng),
       length s.1 = length tmp ∧
       ∀ t it, tmp !! t = Some it →
         ∃ it', s.1 !! t = Some it' ∧
                if decide (t < 2 * j) then touched it it' else it' = it)
    (Ga.pair_body ga) (length tmp / 2) 0 (tmp, rng) (tmp', rng'))
    as Hinv.
  destruct Hinv as [Hlen Hlook]; [| | done |].
  - split; [done |]. intros t it Hit. exists it. split; [done |].
    by destruct (decide (t < 2 * 0)); [lia |].
  - intros j [cur g] [cur' g'] Hj [Hlen Hlook] Hbody. simpl in Hlen, Hlook.
    apply pair_body_spec in Hbody
      as (o0 & o1 & c0 & c1 & H0 & H1 & -> & Hc0 & Hc1).
    simpl. split; [by rewrite !length_insert |].
    intros t it Hit. destruct (Hlook t it Hit) as (it' & Hit' & Hrel).
    pose proof (lookup_lt_Some _ _ _ H0) as Hlt0.
    pose proof (lookup_lt_Some _ _ _ H1) as Hlt1.
    destruct (decide (t = 2 * j + 1)) as [->|Hne1].
    + exists c1. rewrite list_lookup_insert_eq by (rewrite length_insert; lia).
      split; [done |]. repeat case_decide; try lia. by simplify_eq.
    + rewrite list_lookup_insert_ne by done.
      destruct (decide (t = 2 * j + 0)) as [->|Hne0].
      * exists c0. rewrite list_lookup_insert_eq by lia.
        split; [done |]. repeat case_decide; try lia. by simplify_eq.
      * rewrite list_lookup_insert_ne by done. exists it'. split; [done |].
        repeat case_decide; done || lia.
  - cbn [fst] in Hlen, Hlook. split.
    + apply Forall2_same_length_lookup. split; [done |].
      intros t it it' Hit Hit'. destruct (Hlook t it Hit) as (it2 & Hit2 & Hrel).
      simplify_eq. case_decide; [done | by left].
    + intros Hodd. rewrite !last_lookup, Hlen.
      apply Nat.odd_spec in Hodd as [m Hm].
      destruct (tmp !! pred (length tmp)) as [it|] eqn:Hit.
      * destruct (Hlook _ it Hit) as (it' & -> & Hrel).
        case_decide; [lia | by subst].
      * apply lookup_ge_None in Hit. lia.
Qed.

Lemma pair_loop_total (ga : Ga.t T Rng St) tmp (rng : Rng) :
  (∀ a b g, is_Some (Ga.crossover ga a b g)) →
  (∀ a g, is_Some (Ga.mutation ga a g)) →
  is_Some (for_range (length tmp / 2) 0 (Ga.pair_body ga) (tmp, rng)).
Proof.
  intros Hcross Hmut.
  pose proof (Nat.Div0.div_mod (length tmp) 2) as Hdiv.
  destruct (for_range_inv
    (λ _ (s : Population T * Rng), length s.1 = length tmp)
    (Ga.pair_body ga) (length tmp / 2) 0 (tmp, rng)) as (s & -> & _);
    [done | | done].
  intros j [cur g] Hj Hlen. simpl in Hlen.
  destruct (pair_body_total ga j cur g Hcross Hmut) as (cur' & g' & -> & Hlen');
    [lia |].
  eexists. split; [done |]. simpl. congruence.
Qed.

Lemma fold_fitness_all_zero tmp (acc : Q) :
  Forall (λ it, fitness it == 0)%Q tmp →
  (fold_left (λ acc it, acc + fitness it) tmp acc == acc)%Q.
Proof.
  intros Hall. revert acc.
  induction Hall as [|it tmp Hit Hall IH]; intros acc; simpl; [done |].
  rewrite IH. lra.
Qed.

(** A step of a GA that selects with SUS from a population whose
    fitness values are all 0 selects nothing and asks for another step. *)
Lemma Ga_step_sus_zero (ga : Ga.t T Rng St) size pop (rng : Rng) :
  Ga.rate_ok (Ga.mutation_rate ga) = true →
  Ga.rate_ok (Ga.crossover_rate ga) = true →
  Ga.selection ga = SelectionSus size →
  SelectionSize_valid size →
  pop ≠ [] → Forall (λ it, fitness it == 0)%Q pop →
  Ga.step ga pop rng = Some (false, ga, pop, (canonical rng).2).
Proof.
  intros Hm Hc Hsel Hvalid Hne Hzero. unfold Ga.step.
  rewrite Hm, Hc. simpl. destruct pop as [|it0 pop0]; [done |].
  cbv beta iota. remember (it0 :: pop0) as pop eqn:Hpop. clear Hpop.
  rewrite Evaluate_clean.
  2:{ eapply Forall_impl; [exact Hzero |]. intros x Hx. simpl in Hx.
      unfold is_dirty. apply Qlt_bool_false. lra. }
  simpl. rewrite Hsel.
  destruct (SelectionSize_call_Some size (length pop) Hvalid)
    as (samples & Hcall & _).
  rewrite (Sus_zero size pop [] rng samples); [done | done | | done].
  unfold total_fitness. by apply fold_fitness_all_zero.
Qed.

End GaFacts.

(** X20. The recombination loop of the GA keeps the size of the mating
    pool and leaves every individual either exactly as it was or marked
    dirty, so no individual whose data crossover or mutation rewrote
    keeps its old fitness; the last individual of a pool of odd size is
    never touched.  With a crossover and a mutation that always return,
    the loop always returns. *)
Theorem Ga_recombination_marks_dirty `{RandomSource Rng} {T St : Type}
    (ga : Ga.t T Rng St) (tmp : Population T) (rng : Rng) :
  (∀ tmp' rng',
     for_range (length tmp / 2) 0 (Ga.pair_body ga) (tmp, rng)
       = Some (tmp', rng') →
     length tmp' = length tmp ∧
     Forall2 (λ it it', it' = it ∨ is_dirty it' = true) tmp tmp' ∧
     (Nat.odd (length tmp) = true → last tmp' = last tmp)) ∧
  ((∀ a b g, is_Some (Ga.crossover ga a b g)) →
   (∀ a g, is_Some (Ga.mutation ga a g)) →
   is_Some (for_range (length tmp / 2) 0 (Ga.pair_body ga) (tmp, rng))).
Proof.
  split; [| apply pair_loop_total].
  intros tmp' rng' Hrun. destruct (pair_loop_spec _ _ _ _ _ Hrun) as [Hall Hodd].
  split; [| done]. symmetry. by eapply Forall2_length.
Qed.

Example Ga_recombination_example :
  let ga :=
    Ga.mk 1 1 (λ (v : list bool) (g : Tape), (0%Q, g))
      (SelectionRandom SelectionSize_default)
      CrossoverUniform (MutationFlip (1 # 2))
      ReplacementAll TerminationGeneration.call (TerminationGeneration.new 1) in
  for_range 1 0 (Ga.pair_body ga)
    ([mkIndividual [true; true] 4; mkIndividual [false; false] 5;
      mkIndividual [true; false] 6], ([900; 1; 2; 3; 4; 5; 6]%N : Tape))
  = Some ([mkIndividual [true; true] (-1); mkIndividual [false; false] (-1);
           mkIndividual [true; false] 6], []).
Proof. vm_compute. reflexivity. Qed.

(** X21. A GA that selects with stochastic universal sampling never
    leaves [Run] on a non-empty population whose fitness values are all 0:
    every step evaluates nothing, selects nothing and returns false
    without reaching the termination predicate, whatever the other
    operators are. *)
Theorem Ga_Run_sus_zero_diverges `{RandomSource Rng} {T St : Type}
    (ga : Ga.t T Rng St) (size : SelectionSize) (pop : Population T)
    (rng : Rng) (fuel : nat) :
  Ga.rate_ok (Ga.mutation_rate ga) = true →
  Ga.rate_ok (Ga.crossover_rate ga) = true →
  Ga.selection ga = SelectionSus size →
  SelectionSize_valid size →
  pop ≠ [] → Forall (λ it, fitness it == 0)%Q pop →
  Ga_Run fuel ga pop rng = OutOfFuel.
Proof.
  intros Hm Hc Hsel Hvalid Hne Hzero. revert rng.
  induction fuel as [|fuel IH]; intros rng; simpl; [done |].
  rewrite (Ga_step_sus_zero ga size pop rng) by done. apply IH.
Qed.

Lemma Ga_Run_sus_zero_diverges_witness :
  Ga_Run 50
    (Ga.mk (1 # 5) (4 # 5) (λ (v : list bool) (g : Tape), (0%Q, g))
       (SelectionSus (SelectionSize_percentage 1))
       CrossoverUniform (MutationFlip (1 # 10))
       ReplacementAll TerminationGeneration.call (TerminationGeneration.new 1))
    [mkIndividual [true; false] 0; mkIndividual [true; true] 0]
    ([5; 6]%N : Tape) = OutOfFuel.
Proof.
  apply (Ga_Run_sus_zero_diverges _ (SelectionSize_percentage 1)).
  - reflexivity.
  - reflexivity.
  - reflexivity.
  - right. split; vm_compute; discriminate.
  - discriminate.
  - repeat constructor.
Defined.

(** ** One generation of the EDA with PBIL *)

Section EdaFacts.
Context `{RandomSource Rng} `{StdSort}.

(** Sampling from the probability vector writes the first [Size] bits of
    a vector that is long enough. *)
Lemma PbilDist_call_total (prob : list Q) (value : list bool) (rng : Rng) :
  length prob ≤ length value →
  ∃ value' rng',
    PbilDist_call prob value rng = Some (value', rng') ∧
    length value' = length value.
Proof.
  intros Hlen. unfold PbilDist_call.
  destruct (for_range_inv
    (λ _ (s : list bool * Rng), length s.1 = length value)
    (PbilDist_body prob) (length prob) 0 (value, rng))
    as ([value' rng'] & Hrun & Hlen'); [done | | by exists value', rng'].
  intros i [cur g] Hi Hcur. simpl in Hcur. unfold PbilDist_body.
  destruct (lookup_lt_is_Some_2 prob i) as [p ->]; [lia |]. simpl.
  destruct (bernoulli p g) as [b g'].
  rewrite (proj2 (Nat.ltb_lt i (length cur))) by lia. simpl.
  eexists. split; [done |]. simpl. by rewrite length_insert.
Qed.

Lemma Eda_sample_loop (prob : list Q) (pop : Population (list bool))
    (rng : Rng) :
  Forall (λ it, length prob ≤ length (data it)) pop →
  ∃ pop' rng',
    for_range (length pop) 0 (Eda.sample_body PbilDist_call prob) (pop, rng)
      = Some (pop', rng') ∧
    length pop' = length pop ∧
    Forall (λ it, length prob ≤ length (data it)) pop'.
Proof.
  intros Hall.
  destruct (for_range_inv
    (λ _ (s : Population (list bool) * Rng),
       length s.1 = length pop ∧
       Forall (λ it, length prob ≤ length (data it)) s.1)
    (Eda.sample_body PbilDist_call prob) (length pop) 0 (pop, rng))
    as ([pop' rng'] & Hrun & Hlen & Hdata); [done | | by exists pop', rng'].
  intros i [cur g] Hi [Hlen Hcur]. simpl in Hlen, Hcur.
  unfold Eda.sample_body.
  destruct (lookup_lt_is_Some_2 cur i) as [it Hit]; [lia |].
  rewrite Hit. simpl.
  pose proof (proj1 (Forall_lookup _ _) Hcur i it Hit) as Hdata.
  simpl in Hdata.
  destruct (PbilDist_call_total prob (data it) g Hdata)
    as (d & g' & -> & Hd). simpl.
  eexists. split; [done |]. simpl. split; [by rewrite length_insert |].
  apply Forall_insert; [done |]. simpl. lia.
Qed.

Lemma Evaluate_total {T : Type} (func : T → Rng → Q * Rng)
    (pop : Population T) (rng : Rng) :
  (∀ x g, 0 <= (func x g).1)%Q →
  ∃ pop' rng', Evaluate func pop rng = Some (pop', rng').
Proof.
  intros Hfunc. revert rng.
  induction pop as [|it pop IH]; intros rng; simpl.
  - by eexists _, _.
  - destruct (is_dirty it).
    + pose proof (Hfunc (data it) rng) as Hf.
      destruct (func (data it) rng) as [f rng1]. simpl in Hf.
      rewrite (Qle_bool_true _ _ Hf). simpl.
      destruct (IH rng1) as (pop1 & rng2 & ->). by eexists _, _.
    + destruct (IH rng) as (pop1 & rng2 & ->). by eexists _, _.
Qed.

(** The whole update: every probability ends within the bounds. *)
Lemma PbilUpdate_call_range (self : PbilUpdate.t) (prob : list Q)
    (pop : Population (list bool)) (rng : Rng) :
  0 < PbilUpdate.best_count self ≤ length pop →
  Forall (λ it, length prob ≤ length (data it)) pop →
  (PbilUpdate.lower_bound self <= PbilUpdate.upper_bound self)%Q →
  ∃ prob' rng',
    PbilUpdate.call self prob pop rng = Some (prob', sort_greater pop, rng') ∧
    length prob' = length prob ∧
    Forall (λ p, (PbilUpdate.lower_bound self <= p)%Q ∧
                 (p <= PbilUpdate.upper_bound self)%Q) prob'.
Proof.
  intros Hcount Hdata Hbounds. unfold PbilUpdate.call.
  assert ((0 <? PbilUpdate.best_count self)
          && (PbilUpdate.best_count self <=? length pop) = true) as ->.
  { apply andb_true_iff. split; [apply Nat.ltb_lt | apply Nat.leb_le]; lia. }
  simpl.
  pose proof (sort_greater_perm _ pop) as Hperm.
  assert (Forall (λ it, length prob ≤ length (data it)) (sort_greater pop))
    as Hsorted by (by rewrite Hperm).
  destruct (for_range_inv
    (λ k (s : list Q * Rng),
       length s.1 = length prob ∧
       ∀ j, j < k → ∃ p, s.1 !! j = Some p ∧
         (PbilUpdate.lower_bound self <= p)%Q ∧
         (p <= PbilUpdate.upper_bound self)%Q)
    (PbilUpdate.body self (sort_greater pop)) (length prob) 0 (prob, rng))
    as ([prob' rng'] & Hrun & Hlen & Hrange).
  - split; [done |]. intros j Hj. lia.
  - intros i [cur g] Hi [Hlen Hrange]. simpl in Hlen, Hrange.
    destruct (lookup_lt_is_Some_2 cur i) as [old Hold]; [lia |].
    destruct (PbilUpdate_body_spec self (sort_greater pop) i cur old g)
      as (p & -> & _); [by rewrite Hperm | | done |].
    { eapply Forall_impl; [exact Hsorted |]. simpl. lia. }
    eexists. split; [done |]. simpl. split; [by rewrite length_insert |].
    intros j Hj. destruct (decide (j = i)) as [->|Hne].
    + eexists. rewrite list_lookup_insert_eq by lia. split; [done |].
      by apply clamp_range.
    + rewrite list_lookup_insert_ne by done. apply Hrange. lia.
  - rewrite Hrun. simpl in *. exists prob', rng'. split; [done |].
    split; [done |]. apply Forall_lookup. intros j p Hp.
    destruct (Hrange j) as (p' & Hp' & Hp'range).
    { apply lookup_lt_Some in Hp. lia. }
    by simplify_eq.
Qed.

Lemma Eda_pbil_step_spec `{Inhabited (list bool)} {St : Type}
    (eda : Eda.t (list bool) (list Q) Rng St) (self : PbilUpdate.t)
    (prob : list Q) (rng : Rng) :
  Eda.update eda = PbilUpdate.call self →
  length prob ≤ length (inhabitant : list bool) →
  0 < PbilUpdate.best_count self ≤ Eda.pop_size eda →
  (∀ x g, 0 <= (Eda.evaluation eda x g).1)%Q →
  (∀ pop g,
     is_Some (Eda.termination eda (Eda.termination_state eda) pop g)) →
  (PbilUpdate.lower_bound self <= PbilUpdate.upper_bound self)%Q →
  ∃ b eda' prob' rng',
    Eda.step eda PbilDist_call prob rng = Some (b, eda', prob', rng') ∧
    length prob' = length prob ∧
    Forall (λ p, (PbilUpdate.lower_bound self <= p)%Q ∧
                 (p <= PbilUpdate.upper_bound self)%Q) prob'.
Proof.
  intros Hupdate Hsize Hcount Heval Hterm Hbounds. unfold Eda.step.
  set (pop0 := resize [] (Eda.pop_size eda)).
  assert (length pop0 = Eda.pop_size eda) as Hlen0.
  { unfold pop0, resize. rewrite length_app, length_take, length_replicate.
    simpl. lia. }
  assert (Forall (λ it, length prob ≤ length (data it)) pop0) as Hdata0.
  { unfold pop0, resize. rewrite take_nil. simpl.
    destruct (Eda.pop_size eda - 0); [constructor |].
    by apply Forall_replicate. }
  destruct (Eda_sample_loop prob pop0 rng Hdata0)
    as (pop1 & rng1 & -> & Hlen1 & Hdata1). simpl.
  destruct (Evaluate_total (Eda.evaluation eda) pop1 rng1 Heval)
    as (pop2 & rng2 & Heval2). rewrite Heval2. simpl.
  destruct (Evaluate_spec _ _ _ _ _ Heval2) as [Hd _].
  assert (length pop2 = length pop1) as Hlen2.
  { by rewrite <- (length_fmap data pop2), Hd, length_fmap. }
  assert (Forall (λ it, length prob ≤ length (data it)) pop2) as Hdata2.
  { apply Forall_lookup. intros j it' Hj.
    assert ((data <$> pop1) !! j = Some (data it')) as Hj1
      by (by rewrite <- Hd, list_lookup_fmap, Hj).
    rewrite list_lookup_fmap in Hj1.
    destruct (pop1 !! j) as [it|] eqn:Hit; [| done].
    simpl in Hj1. injection Hj1 as Heq. rewrite <- Heq.
    exact (proj1 (Forall_lookup _ _) Hdata1 j it Hit). }
  rewrite Hupdate.
  destruct (PbilUpdate_call_range self prob pop2 rng2)
    as (prob' & rng3 & -> & Hlen' & Hrange); [lia | done | done |]. simpl.
  destruct (Hterm (sort_greater pop2) rng3)
    as [[[[b st] pop3] rng4] ->]. simpl.
  by eexists _, _, _, _.
Qed.

End EdaFacts.

(** X22. One generation of the EDA with the PBIL distribution and
    update always returns when the best count is between 1 and the
    population size, the bit vectors have at least as many bits as there
    are probabilities, the evaluation is non-negative, the termination
    predicate returns from its current state and the bounds are ordered; the probability vector
    keeps its length and every probability ends within the bounds. *)
Theorem Eda_pbil_step `{RandomSource Rng} `{StdSort}
    `{Inhabited (list bool)} {St : Type}
    (eda : Eda.t (list bool) (list Q) Rng St) (self : PbilUpdate.t)
    (prob : list Q) (rng : Rng) :
  Eda.update eda = PbilUpdate.call self →
  length prob ≤ length (inhabitant : list bool) →
  0 < PbilUpdate.best_count self ≤ Eda.pop_size eda →
  (∀ x g, 0 <= (Eda.evaluation eda x g).1)%Q →
  (∀ pop g,
     is_Some (Eda.termination eda (Eda.termination_state eda) pop g)) →
  (PbilUpdate.lower_bound self <= PbilUpdate.upper_bound self)%Q →
  ∃ b eda' prob' rng',
    Eda.step eda PbilDist_call prob rng = Some (b, eda', prob', rng') ∧
    length prob' = length prob ∧
    Forall (λ p, (PbilUpdate.lower_bound self <= p)%Q ∧
                 (p <= PbilUpdate.upper_bound self)%Q) prob'.
Proof. apply Eda_pbil_step_spec. Qed.

Lemma Eda_pbil_step_witness :
  let bitset : Inhabited (list bool) := populate [false; false; false] in
  let self := PbilUpdate.mk (1 # 10) 2 (1 # 50) (1 # 20) (1 # 20) (19 # 20) in
  let eda :=
    Eda.mk 4
      (λ (v : list bool) (g : Tape),
         (inject_Z (Z.of_nat (length (filter Is_true v))), g))
      (PbilUpdate.call self)
      TerminationGeneration.call (TerminationGeneration.new 5) in
  ∃ b eda' prob' rng',
    Eda.step eda PbilDist_call (PbilDist_new 3) ([100; 700; 300]%N : Tape)
      = Some (b, eda', prob', rng') ∧
    length prob' = length (PbilDist_new 3) ∧
    Forall (λ p, (PbilUpdate.lower_bound self <= p)%Q ∧
                 (p <= PbilUpdate.upper_bound self)%Q) prob'.
Proof.
  intros bitset self eda.
  apply (Eda_pbil_step eda self (PbilDist_new 3) ([100; 700; 300]%N : Tape)).
  - reflexivity.
  - simpl. lia.
  - simpl. lia.
  - intros x g. simpl. change 0%Q with (inject_Z 0).
    rewrite <- Zle_Qle. lia.
  - intros pop g. by eexists.
  - vm_compute. discriminate.
Defined.

Example Eda_pbil_step_example :
  let bitset : Inhabited (list bool) := populate [false; false; false] in
  let self := PbilUpdate.mk (1 # 10) 2 (1 # 50) (1 # 20) (1 # 20) (19 # 20) in
  let eda :=
    Eda.mk 4
      (λ (v : list bool) (g : Tape),
         (inject_Z (Z.of_nat (length (filter Is_true v))), g))
      (PbilUpdate.call self)
      TerminationGeneration.call (TerminationGeneration.new 5) in
  match
    Eda.step eda PbilDist_call (PbilDist_new 3)
      ([100; 700; 300; 600; 100; 200; 900; 800; 100; 450; 550; 650; 10; 999;
        5; 600]%N : Tape)
  with
  | Some (b, _, prob', rng') => Some (b, Qred <$> prob', rng')
  | None => None
  end = Some (false, [(19 # 40)%Q; (19 # 40)%Q; (229 # 400)%Q], []).
Proof. vm_compute. reflexivity. Qed.

(** ** The island model *)

Section IslandModelFacts.
Context `{RandomSource Rng} {T St : Type}.
Implicit Types islands : list (Island.t T (Ga.t T Rng St)).

(** A step of an island without individuals answers true, if at all. *)
Lemma Island_call_empty (isl : Island.t T (Ga.t T Rng St)) (rng : Rng)
    b isl' rng' :
  Island.pop isl = [] →
  IslandModel.Island_call isl rng = Some (b, isl', rng') →
  b = true ∧ isl' = isl ∧ rng' = rng.
Proof.
  intros Hpop. unfold IslandModel.Island_call, Ga.step. rewrite Hpop.
  destruct (assert (Ga.rate_ok (Ga.mutation_rate (Island.ga isl))));
    [| done].
  destruct (assert (Ga.rate_ok (Ga.crossover_rate (Island.ga isl))));
    [| done].
  simpl. intros [= <- <- <-]. repeat split. destruct isl. simpl in *.
  by subst.
Qed.

Lemma IslandModel_round_empty islands (rng : Rng) k isl r islands1 rng1 :
  islands !! k = Some isl → Island.pop isl = [] →
  IslandModel.round islands rng = Some (r, islands1, rng1) →
  r = true ∧ length islands1 = length islands ∧ islands1 !! k = Some isl.
Proof.
  intros Hk Hpop Hrun. unfold IslandModel.round in Hrun.
  pose proof (lookup_lt_Some _ _ _ Hk) as Hlt.
  pose proof (for_range_inv_partial
    (λ j (s : bool * list (Island.t T (Ga.t T Rng St)) * Rng),
       length s.1.2 = length islands ∧ s.1.2 !! k = Some isl ∧
       (k < j → s.1.1 = true))
    IslandModel.round_body (length islands) 0 (false, islands, rng)
    (r, islands1, rng1)) as Hinv.
  destruct Hinv as (Hlen & Hisl & Hres); [| | done |].
  - simpl. repeat split; [done | lia].
  - intros j [[res cur] g] [[res' cur'] g'] Hj (Hlen & Hisl & Hres) Hbody.
    simpl in Hlen, Hisl, Hres. unfold IslandModel.round_body in Hbody.
    destruct (cur !! j) as [it|] eqn:Hit; [| done]. simpl in Hbody.
    destruct (IslandModel.Island_call it g) as [[[b it'] g2]|] eqn:Hcall;
      [| done].
    simpl in Hbody. simplify_eq. simpl.
    split; [by rewrite length_insert |].
    destruct (decide (j = k)) as [->|Hne].
    + simplify_eq.
      destruct (Island_call_empty _ _ _ _ _ Hpop Hcall) as (-> & -> & ->).
      split; [by rewrite list_lookup_insert_eq by lia | done].
    + split; [by rewrite list_lookup_insert_ne |].
      intros Hkj. rewrite Hres by lia. by destruct b.
  - simpl in Hlen, Hisl, Hres. repeat split; [| done | done].
    apply Hres. lia.
Qed.

Lemma IslandModel_step_empty (self : IslandModel.t T Rng St) islands
    (rng : Rng) k isl :
  (0 < IslandModel.migration_rate self)%Z →
  islands !! k = Some isl → Island.pop isl = [] →
  is_Some (IslandModel.round islands rng) →
  ∃ islands1 rng1,
    IslandModel.round islands rng = Some (true, islands1, rng1) ∧
    IslandModel.step self islands rng = Some (true, islands1, rng1) ∧
    length islands1 = length islands ∧
    islands1 !! k = Some isl.
Proof.
  intros Hrate Hk Hpop [[[r islands1] rng1] Hround].
  destruct (IslandModel_round_empty _ _ _ _ _ _ _ Hk Hpop Hround)
    as (-> & Hlen & Hisl).
  exists islands1, rng1. split; [done |]. split; [| done].
  unfold IslandModel.step.
  rewrite (proj2 (Z.ltb_lt 0 (IslandModel.migration_rate self)) Hrate).
  simpl. destruct (Z.to_nat (IslandModel.migration_rate self)) as [|n] eqn:Hn;
    [lia |].
  simpl. by rewrite Hround.
Qed.

End IslandModelFacts.

(** X23. When one island has no individuals, a step of the island model
    in which the first generation of every island returns answers true
    right after that generation: every island has been stepped once, the
    empty island is unchanged, and neither a further generation nor the
    migration is run. *)
Theorem IslandModel_empty_island_stops `{RandomSource Rng} {T St : Type}
    (self : IslandModel.t T Rng St)
    (islands : list (Island.t T (Ga.t T Rng St))) (rng : Rng)
    (k : nat) (isl : Island.t T (Ga.t T Rng St)) :
  (0 < IslandModel.migration_rate self)%Z →
  islands !! k = Some isl → Island.pop isl = [] →
  is_Some (IslandModel.round islands rng) →
  ∃ islands1 rng1,
    IslandModel.round islands rng = Some (true, islands1, rng1) ∧
    IslandModel.step self islands rng = Some (true, islands1, rng1) ∧
    length islands1 = length islands ∧
    islands1 !! k = Some isl.
Proof. apply IslandModel_step_empty. Qed.

Lemma IslandModel_empty_island_stops_witness :
  let ga :=
    Ga.mk (1 # 5) (4 # 5)
      (λ (v : list bool) (g : Tape),
         (inject_Z (Z.of_nat (length (filter Is_true v))), g))
      (SelectionRandom (SelectionSize_percentage 1))
      CrossoverUniform (MutationFlip (1 # 10))
      ReplacementAll TerminationGeneration.call (TerminationGeneration.new 3) in
  let self := IslandModel.mk 2 (MigrationRing (SelectionSize_count 1)) in
  let islands :=
    [Island.mk [mkIndividual [true; false] (-1); mkIndividual [true; true] 2]
       ga;
     Island.mk [] ga] in
  ∃ islands1 rng1,
    IslandModel.round islands ([5; 6; 7]%N : Tape)
      = Some (true, islands1, rng1) ∧
    IslandModel.step self islands ([5; 6; 7]%N : Tape)
      = Some (true, islands1, rng1) ∧
    length islands1 = length islands ∧
    islands1 !! 1 = Some (Island.mk [] ga).
Proof.
  intros ga self islands.
  apply (IslandModel_empty_island_stops self islands ([5; 6; 7]%N : Tape) 1
           (Island.mk [] ga)).
  - reflexivity.
  - reflexivity.
  - reflexivity.
  - eexists. reflexivity.
Defined.

(** ** Crossover of an individual with itself *)

Section IdenticalParents.
Context `{RandomSource Rng}.

Lemma pair_preserved_same {A : Type} (v v0 v1 : list A) :
  length v0 = length v → length v1 = length v →
  (∀ i, pair_preserved i v v v0 v1) → v0 = v ∧ v1 = v.
Proof.
  intros Hlen0 Hlen1 Hpair.
  split; apply list_eq; intros i; by destruct (Hpair i) as [[? ?]|[? ?]].
Qed.

Lemma store_same (v : list nat) i x : v !! i = Some x → store v i x = Some v.
Proof.
  intros Hi. unfold store. apply lookup_lt_Some in Hi as Hlt.
  rewrite decide_True by done. by rewrite list_insert_id.
Qed.

Lemma Pmx_exchange_same n (v p : list nat) lo k :
  lo + k ≤ n → inverse_of n v p →
  for_range k lo Pmx_exchange_body (v, v, p, p) = Some (v, v, p, p).
Proof.
  intros Hk (Hlenv & Hlenp & Hvp & Hpv).
  destruct (for_range_inv (λ _ s, s = (v, v, p, p))
              Pmx_exchange_body k lo (v, v, p, p)) as (s & -> & ->);
    [done | | done].
  intros i s Hi ->. exists (v, v, p, p). split; [| done].
  destruct (lookup_lt_is_Some_2 v i) as [x Hx]; [lia |].
  pose proof (Hvp i x Hx) as Hp.
  unfold Pmx_exchange_body. rewrite Hx. simpl.
  rewrite (store_same v i x Hx). simpl. rewrite Hp. simpl.
  rewrite (store_same v i x Hx). simpl.
  unfold swap_entries. rewrite Hp. simpl.
  rewrite (store_same p x i Hp). simpl.
  by rewrite (store_same p x i Hp).
Qed.

Lemma inverse_of_unique n (v p0 p1 : list nat) :
  inverse_of n v p0 → inverse_of n v p1 → p0 = p1.
Proof.
  intros (_ & Hlen0 & Hvp0 & Hpv0) (_ & Hlen1 & Hvp1 & Hpv1).
  apply list_eq. intros x.
  destruct (p0 !! x) as [j|] eqn:H0.
  - symmetry. by apply Hvp1, Hpv0.
  - symmetry. apply lookup_ge_None. apply lookup_ge_None in H0. lia.
Qed.

Lemma CrossoverPmx_same (v : list nat) (rng : Rng) :
  v ≡ₚ seq 0 (length v) →
  ∃ rng', CrossoverPmx v v rng = Some (v, v, rng').
Proof.
  intros Hperm. unfold CrossoverPmx. rewrite Nat.min_id.
  pose proof (uniform_int_range 0 (N.of_nat (length v)) rng ltac:(lia))
    as Hr0.
  destruct (uniform_int 0 (N.of_nat (length v)) rng) as [a rng1].
  pose proof (uniform_int_range 0 (N.of_nat (length v)) rng1 ltac:(lia))
    as Hr1.
  destruct (uniform_int 0 (N.of_nat (length v)) rng1) as [b rng2].
  simpl in Hr0, Hr1.
  destruct (Pmx_inverse_spec (length v) v v Hperm Hperm)
    as (p0 & p1 & Hinv & Hp0 & Hp1).
  pose proof (inverse_of_unique _ _ _ _ Hp0 Hp1) as <-.
  assert (∀ lo hi : N, (lo ≤ hi)%N → (hi ≤ N.of_nat (length v))%N →
    ∃ rng',
      (if (lo =? hi)%N then Some (v, v, rng2)
       else
         '(p0, p1) ← for_range (length v) 0
                        (Pmx_inverse_body (length v) v v)
                        (replicate (length v) 0, replicate (length v) 0);
         '(value0, value1, _, _) ←
           for_range (N.to_nat hi - N.to_nat lo) (N.to_nat lo)
             Pmx_exchange_body (v, v, p0, p1);
         Some (value0, value1, rng2)) = Some (v, v, rng')) as Hmain.
  { intros lo hi Hle Hhi. exists rng2.
    destruct (lo =? hi)%N; [done |].
    rewrite Hinv. simpl.
    rewrite (Pmx_exchange_same (length v)); [done | lia | done]. }
  destruct (b <? a)%N eqn:Hcmp.
  - apply N.ltb_lt in Hcmp. apply Hmain; lia.
  - apply N.ltb_ge in Hcmp. apply Hmain; lia.
Qed.

End IdenticalParents.

(** X24. Crossing an individual with itself gives the individual back
    twice: N-point crossover on a non-empty vector, uniform crossover on
    any vector and PMX on a permutation of 0 .. n-1 all return both
    parents unchanged. *)
Theorem crossover_identical_parents `{RandomSource Rng} :
  (∀ (A : Type) (point_count : Z) (value : list A) (rng : Rng),
     0 < length value →
     ∃ rng', CrossoverPoint point_count value value rng
             = Some (value, value, rng')) ∧
  (∀ (A : Type) (value : list A) (rng : Rng),
     ∃ rng', CrossoverUniform value value rng = Some (value, value, rng')) ∧
  (∀ (value : list nat) (rng : Rng),
     value ≡ₚ seq 0 (length value) →
     ∃ rng', CrossoverPmx value value rng = Some (value, value, rng')).
Proof.
  split; [| split].
  - intros A point_count value rng Hlen.
    destruct (CrossoverPoint_preserves point_count value value rng)
      as (v0 & v1 & rng' & Hrun & Hlen0 & Hlen1 & Hpair); [done | done |].
    destruct (pair_preserved_same value v0 v1) as [-> ->]; [done.. |].
    by exists rng'.
  - intros A value rng.
    destruct (CrossoverUniform_preserves value value rng)
      as (v0 & v1 & rng' & Hrun & Hlen0 & Hlen1 & Hpair); [done |].
    destruct (pair_preserved_same value v0 v1) as [-> ->]; [done.. |].
    by exists rng'.
  - intros value rng. apply CrossoverPmx_same.
Qed.

Example crossover_identical_example :
  CrossoverPmx [2; 0; 3; 1] [2; 0; 3; 1] ([1; 3]%N : Tape)
    = Some ([2; 0; 3; 1], [2; 0; 3; 1], []) ∧
  CrossoverPoint 2 [true; false; true] [true; false; true] ([1; 2]%N : Tape)
    = Some ([true; false; true], [true; false; true], []).
Proof. split; vm_compute; reflexivity. Qed.

(** ** Ring migration and the sizes of the islands *)

Section RingSizes.
Context `{RandomSource Rng} {T GaT : Type}.
Implicit Types islands : list (Island.t T GaT).

Lemma island_size_insert islands a isl t :
  a < length islands →
  island_size (<[a := isl]> islands) t
    = if decide (t = a) then length (Island.pop isl) else island_size islands t.
Proof.
  intros Ha. unfold island_size. case_decide as Ht.
  - subst. by rewrite list_lookup_insert_eq.
  - by rewrite list_lookup_insert_ne.
Qed.

(** One island of the ring, by sizes: it gives [k] individuals to its
    successor. *)
Lemma MigrationRing_body_sizes (c : N) islands i (rng : Rng) :
  (0 < c)%N → 2 ≤ length islands → i < length islands →
  let k := N.to_nat c `min` island_size islands i in
  let succ := if length islands <=? i + 1 then 0 else i + 1 in
  ∃ islands' rng',
    MigrationRing_body (SelectionSize_count c) (length islands) i
      (islands, rng) = Some (islands', rng') ∧
    length islands' = length islands ∧
    ∀ t, island_size islands' t
         = if decide (t = i) then island_size islands i - k
           else if decide (t = succ) then island_size islands succ + k
           else island_size islands t.
Proof.
  intros Hc Hn Hi k succ.
  destruct (lookup_lt_is_Some_2 islands i Hi) as [src Hsrc].
  assert (island_size islands i = length (Island.pop src)) as Hsize
    by (unfold island_size; by rewrite Hsrc).
  unfold MigrationRing_body. rewrite Hsrc. simpl.
  pose proof (shuffle_perm _ (Island.pop src) rng) as Hperm.
  destruct (shuffle (Island.pop src) rng) as [p rng']. simpl in Hperm.
  pose proof (Permutation_length Hperm) as Hlenp.
  unfold SelectionSize_call. simpl.
  rewrite (proj2 (N.ltb_lt 0 c) Hc). simpl.
  fold succ.
  assert (succ ≠ i ∧ succ < length islands) as [Hne Hsucc].
  { unfold succ. destruct (length islands <=? i + 1) eqn:Hcmp.
    - apply Nat.leb_le in Hcmp. lia.
    - apply Nat.leb_gt in Hcmp. lia. }
  destruct (lookup_lt_is_Some_2 islands succ Hsucc) as [dst Hdst].
  assert (island_size islands succ = length (Island.pop dst)) as Hsized
    by (unfold island_size; by rewrite Hdst).
  rewrite list_lookup_insert_ne by done. rewrite Hdst. simpl.
  rewrite (erase_tail_spec _ i (Island.set_pop src p)); simpl.
  2:{ rewrite list_lookup_insert_ne by done.
      by rewrite list_lookup_insert_eq. }
  2:{ lia. }
  eexists _, _. split; [done |]. split; [by rewrite !length_insert |].
  intros t. rewrite !island_size_insert by (rewrite ?length_insert; lia).
  simpl. rewrite length_take, length_app, length_drop.
  unfold k. rewrite Hsize, Hsized.
  repeat (case_decide; try lia).
Qed.

Lemma MigrationRing_sizes (c : N) islands (rng : Rng) :
  (0 < c)%N → 2 ≤ length islands →
  N.to_nat c ≤ island_size islands 0 →
  ∃ islands' rng',
    MigrationRing (SelectionSize_count c) islands rng
      = Some (islands', rng') ∧
    length islands' = length islands ∧
    ∀ t, island_size islands' t = island_size islands t.
Proof.
  intros Hc Hn Hfirst. unfold MigrationRing.
  rewrite (proj2 (Nat.ltb_lt 1 (length islands))) by lia. simpl.
  set (n := length islands).
  destruct (for_range_inv
    (λ j (s : list (Island.t T GaT) * Rng),
       length s.1 = n ∧
       ∀ t, island_size s.1 t
              + (if decide (t = 0 ∧ 1 ≤ j < n) then N.to_nat c else 0)
            = island_size islands t
              + (if decide (t = j ∧ 1 ≤ j < n) then N.to_nat c else 0))
    (MigrationRing_body (SelectionSize_count c) n) n 0 (islands, rng))
    as ([islands' rng'] & Hrun & Hlen & Hsizes).
  - split; [done |]. intros t. simpl. repeat (case_decide; try lia; try (subst; lia)).
  - intros j [cur g] Hj [Hlen Hsizes]. simpl in Hlen, Hsizes.
    rewrite <- Hlen.
    destruct (MigrationRing_body_sizes c cur j g)
      as (cur' & g' & -> & Hlen' & Hsizes'); [done | lia | lia |].
    eexists. split; [done |]. simpl. split; [lia |].
    intros t. rewrite Hsizes'. rewrite Hlen.
    assert (island_size cur j = island_size islands j
            + (if decide (j = 0) then 0 else N.to_nat c)) as Hjs.
    { pose proof (Hsizes j) as Hjs.
      repeat (case_decide; try lia; try (subst; lia)). }
    rewrite Hjs.
    replace (N.to_nat c `min` (island_size islands j
               + (if decide (j = 0) then 0 else N.to_nat c)))
      with (N.to_nat c) by (case_decide; subst; lia).
    destruct (n <=? j + 1) eqn:Hcmp;
      [apply Nat.leb_le in Hcmp | apply Nat.leb_gt in Hcmp].
    + pose proof (Hsizes 0) as H0s. pose proof (Hsizes t) as Ht.
      destruct (decide (t = j)) as [->|Htj].
      * repeat (case_decide; try lia; try (subst; lia)).
      * destruct (decide (t = 0)) as [->|Ht0];
          repeat (case_decide; try lia; try (subst; lia)).
    + pose proof (Hsizes (j + 1)) as Hj1. pose proof (Hsizes t) as Ht.
      destruct (decide (t = j)) as [->|Htj].
      * repeat (case_decide; try lia; try (subst; lia)).
      * destruct (decide (t = j + 1)) as [->|Ht1];
          repeat (case_decide; try lia; try (subst; lia)).
  - exists islands', rng'. simpl in Hlen, Hsizes. split; [done |].
    split; [done |]. intros t. specialize (Hsizes t).
    repeat (case_decide; try lia; try (subst; lia)).
Qed.

End RingSizes.

(** X25. Ring migration with a fixed positive count keeps the number of
    individuals of every island, provided the first island has at least
    that many individuals: each island gives [count] individuals to its
    successor and receives as many from its predecessor (the later
    islands may even be empty, they pass on what they have received). *)
Theorem MigrationRing_keeps_sizes `{RandomSource Rng} {T GaT : Type}
    (c : N) (islands : list (Island.t T GaT)) (rng : Rng) :
  (0 < c)%N → 2 ≤ length islands →
  N.to_nat c ≤ island_size islands 0 →
  ∃ islands' rng',
    MigrationRing (SelectionSize_count c) islands rng
      = Some (islands', rng') ∧
    length islands' = length islands ∧
    ∀ t, island_size islands' t = island_size islands t.
Proof. apply MigrationRing_sizes. Qed.

Lemma MigrationRing_keeps_sizes_witness :
  ∃ islands' rng',
    MigrationRing (SelectionSize_count 2)
      [Island.mk [mkIndividual 1 1; mkIndividual 2 2; mkIndividual 3 3] tt;
       Island.mk [] tt; Island.mk [mkIndividual 4 4] tt]
      ([1; 0; 2]%N : Tape) = Some (islands', rng') ∧
    length islands' = 3 ∧
    ∀ t, island_size islands' t
         = island_size
             [Island.mk [mkIndividual 1 1; mkIndividual 2 2; mkIndividual 3 3]
                tt;
              Island.mk [] tt; Island.mk [mkIndividual 4 4] tt] t.
Proof.
  apply (MigrationRing_keeps_sizes 2
           [Island.mk [mkIndividual 1 1; mkIndividual 2 2; mkIndividual 3 3]
              tt;
            Island.mk [] tt; Island.mk [mkIndividual 4 4] tt]
           ([1; 0; 2]%N : Tape)); [reflexivity | simpl; lia | vm_compute; lia].
Defined.

(** With a percentage the sizes drift: an island gives a share of what
    it has after receiving. *)
Example MigrationRing_percentage_sizes :
  match
    MigrationRing (SelectionSize_percentage 1)
      [Island.mk [mkIndividual 1 1; mkIndividual 2 2] tt;
       Island.mk [mkIndividual 3 3] tt; Island.mk [mkIndividual 4 4] tt]
      ([] : Tape)
  with
  | Some (islands', _) => Some (island_size islands' <$> [0; 1; 2])
  | None => None
  end = Some [4; 0; 0].
Proof. vm_compute. reflexivity. Qed.

(** ** Uniform crossover of vectors of different lengths *)

Lemma CrossoverUniform_prefix `{RandomSource Rng} {A : Type}
    (value0 value1 : list A) (rng : Rng) :
  ∃ value0' value1' rng',
    CrossoverUniform value0 value1 rng = Some (value0', value1', rng') ∧
    length value0' = length value0 ∧ length value1' = length value1 ∧
    (∀ i, pair_preserved i value0 value1 value0' value1') ∧
    drop (length value0 `min` length value1) value0'
      = drop (length value0 `min` length value1) value0 ∧
    drop (length value0 `min` length value1) value1'
      = drop (length value0 `min` length value1) value1.
Proof.
  unfold CrossoverUniform.
  set (n := length value0 `min` length value1).
  destruct (for_range_inv
    (λ _ (s : list A * list A * Rng),
       length s.1.1 = length value0 ∧ length s.1.2 = length value1 ∧
       (∀ i, pair_preserved i value0 value1 s.1.1 s.1.2) ∧
       ∀ i, n ≤ i → s.1.1 !! i = value0 !! i ∧ s.1.2 !! i = value1 !! i)
    CrossoverUniform_body n 0
    (value0, value1, rng)) as ([[v0 v1] g] & Hrun & Hl0 & Hl1 & Hp & Htail).
  - simpl. repeat split; auto using pair_preserved_refl.
  - intros j [[a0 a1] g] Hj (Hl0 & Hl1 & Hp & Htail).
    cbn [fst snd] in Hl0, Hl1, Hp, Htail.
    unfold CrossoverUniform_body.
    destruct (bernoulli (1 # 2) g) as [[] g']; [| by eexists].
    unfold swap_at.
    destruct (lookup_lt_is_Some_2 a0 j ltac:(lia)) as [x Hx].
    destruct (lookup_lt_is_Some_2 a1 j ltac:(lia)) as [y Hy].
    rewrite Hx, Hy. simpl. eexists. split; [done |]. simpl.
    rewrite !length_insert. split; [done |]. split; [done |]. split.
    + intros i. eapply pair_preserved_step; [apply Hp |].
      by apply swap_at_pair.
    + intros i Hi. rewrite !list_lookup_insert_ne by lia. by apply Htail.
  - cbn [fst snd] in Hl0, Hl1, Hp, Htail. exists v0, v1, g.
    split; [done |]. split; [done |]. split; [done |]. split; [done |].
    split; apply list_eq; intros i; rewrite !lookup_drop; apply Htail; lia.
Qed.

(** X26. Uniform crossover returns for any two vectors, also of
    different lengths: both keep their length, every position holds the
    two aligned elements kept or exchanged, and only the common prefix is
    touched, so the tail of the longer vector is unchanged. *)
Theorem CrossoverUniform_any_lengths `{RandomSource Rng} {A : Type}
    (value0 value1 : list A) (rng : Rng) :
  ∃ value0' value1' rng',
    CrossoverUniform value0 value1 rng = Some (value0', value1', rng') ∧
    length value0' = length value0 ∧ length value1' = length value1 ∧
    (∀ i, pair_preserved i value0 value1 value0' value1') ∧
    drop (length value0 `min` length value1) value0'
      = drop (length value0 `min` length value1) value0 ∧
    drop (length value0 `min` length value1) value1'
      = drop (length value0 `min` length value1) value1.
Proof. apply CrossoverUniform_prefix. Qed.

(** N-point crossover draws its cut points up to the length of the
    longer vector, and has no result when a cut point lies beyond the
    shorter one. *)
Example Crossover_different_lengths :
  CrossoverUniform [1; 2; 3; 4] [7; 8] ([100; 900]%N : Tape)
    = Some ([7; 2; 3; 4], [1; 8], []) ∧
  CrossoverPoint 1 [1; 2; 3; 4] [7; 8] ([3]%N : Tape) = None ∧
  CrossoverPoint 1 [1; 2; 3; 4] [7; 8] ([1]%N : Tape)
    = Some ([7; 2; 3; 4], [1; 8], []).
Proof. repeat split; vm_compute; reflexivity. Qed.
